(** * SPMS payroll pipeline: a shallow embedding of [src/lib/pdf-parser.ts]

    The pipeline of the source file is embedded function by function:
    text extraction (line reconstruction), type detection, header mapping,
    row segmentation, employee-block parsing, field normalisation, merge by
    HRPN and validation.

    Conventions of the embedding:
    - a JavaScript string is a [string] of bytes; case folding, white space
      and character classes are the ASCII ones;
    - a JavaScript [number] holding an amount is a rational [Q] with exact
      arithmetic; coordinates that went through [Math.round] are [Z];
    - a [Record<string, number>] is a [gmap string Q];
    - a [RegExp] is a value of [RegExp.t], run by a backtracking matcher
      that explores alternatives in the priority order of the JavaScript
      semantics;
    - object identity of a reconstructed line is an address
      (page position, line position), carried by [Ref]. *)

From Stdlib Require Import Ascii QArith Qabs Qround Lqa.
From stdpp Require Import gmap strings list sorting pretty.

(** ** JavaScript strings *)

Module Js.

Definition isUpper (c : ascii) : bool :=
  (65 <=? N_of_ascii c)%N && (N_of_ascii c <=? 90)%N.
Definition isLower (c : ascii) : bool :=
  (97 <=? N_of_ascii c)%N && (N_of_ascii c <=? 122)%N.
Definition isDigit (c : ascii) : bool :=
  (48 <=? N_of_ascii c)%N && (N_of_ascii c <=? 57)%N.
Definition isAlpha (c : ascii) : bool := isUpper c || isLower c.
(** [\w] *)
Definition isWord (c : ascii) : bool :=
  isAlpha c || isDigit c || bool_decide (c = "_"%char).
(** [\s], restricted to ASCII *)
Definition isSpace (c : ascii) : bool := Ascii.is_space c.
(** a line terminator, which [.] does not match *)
Definition isLineTerminator (c : ascii) : bool :=
  bool_decide (c = "010"%char) || bool_decide (c = "013"%char).

Definition lowerChar (c : ascii) : ascii :=
  if isUpper c then ascii_of_N (N_of_ascii c + 32) else c.
Definition upperChar (c : ascii) : ascii :=
  if isLower c then ascii_of_N (N_of_ascii c - 32) else c.

Fixpoint toLowerCase (s : string) : string :=
  match s with
  | "" => ""
  | String c s' => String (lowerChar c) (toLowerCase s')
  end.

Fixpoint toUpperCase (s : string) : string :=
  match s with
  | "" => ""
  | String c s' => String (upperChar c) (toUpperCase s')
  end.

Fixpoint trimStart (s : string) : string :=
  match s with
  | String c s' => if isSpace c then trimStart s' else s
  | "" => ""
  end.
Definition trimEnd (s : string) : string :=
  String.rev (trimStart (String.rev s)).
Definition trim (s : string) : string := trimEnd (trimStart s).

(** [s.startsWith(p)] *)
Fixpoint startsWith (s p : string) : bool :=
  match p, s with
  | "", _ => true
  | String a p', String b s' => bool_decide (a = b) && startsWith s' p'
  | String _ _, "" => false
  end.

(** [s.includes(needle)] *)
Fixpoint includes (s needle : string) : bool :=
  startsWith s needle ||
  match s with
  | "" => false
  | String _ s' => includes s' needle
  end.

(** [s.indexOf(needle)]; [None] stands for [-1] *)
Fixpoint indexOf (s needle : string) : option nat :=
  if startsWith s needle then Some 0
  else match s with
       | "" => None
       | String _ s' => S <$> indexOf s' needle
       end.

Fixpoint take (n : nat) (s : string) : string :=
  match n, s with
  | S n', String c s' => String c (take n' s')
  | _, _ => ""
  end.
Fixpoint drop (n : nat) (s : string) : string :=
  match n, s with
  | S n', String _ s' => drop n' s'
  | _, _ => s
  end.
(** [s.substring(i, j)] for [i <= j] *)
Definition substring (i j : nat) (s : string) : string :=
  take (j - i) (drop i s).

(** [parts.join(sep)] *)
Fixpoint join (sep : string) (parts : list string) : string :=
  match parts with
  | [] => ""
  | [p] => p
  | p :: ps => p +:+ sep +:+ join sep ps
  end.

(** the characters of a decimal digit string as a natural number *)
Fixpoint digitsValue (acc : N) (s : string) : N :=
  match s with
  | "" => acc
  | String c s' =>
      if isDigit c then digitsValue (acc * 10 + (N_of_ascii c - 48)) s'
      else acc
  end.

End Js.

(** ** Regular expressions

    The patterns of the source only use character classes, concatenation,
    alternation, greedy and lazy repetition, the anchors [^] and [$] (no
    [m] flag is ever set) and the word boundary [\b].  A cursor is the
    character before the current position, if any, and the text that is
    left.  [exec r c] is the list of cursors at which a match of [r]
    started at [c] can end, in the order in which a backtracking matcher
    tries them. *)

Module RegExp.

Inductive t : Type :=
| Chr (p : ascii → bool)
| Eps
| Cat (r1 r2 : t)
| Alt (r1 r2 : t)
| Star (r : t)
| LazyStar (r : t)
| Bol
| Eol
| WordB.

Definition cursor : Type := option ascii * string.

Definition atWordBoundary (c : cursor) : bool :=
  let l := from_option Js.isWord false c.1 in
  let r := match c.2 with "" => false | String a _ => Js.isWord a end in
  xorb l r.

(** Repetition of [step]; an iteration that consumes nothing is
    rejected, as in the JavaScript semantics, so the length of the text
    left bounds the number of iterations. *)
Fixpoint iter (step : cursor → list cursor) (greedy : bool) (fuel : nat)
    (c : cursor) : list cursor :=
  match fuel with
  | 0 => [c]
  | S fuel' =>
      let more :=
        c' ← step c;
        if decide (String.length c'.2 < String.length c.2)
        then iter step greedy fuel' c' else [] in
      if greedy then more ++ [c] else c :: more
  end.

Fixpoint exec (r : t) (c : cursor) : list cursor :=
  match r with
  | Chr p =>
      match c.2 with
      | "" => []
      | String a s => if p a then [(Some a, s)] else []
      end
  | Eps => [c]
  | Cat r1 r2 => c' ← exec r1 c; exec r2 c'
  | Alt r1 r2 => exec r1 c ++ exec r2 c
  | Star r' => iter (exec r') true (String.length c.2) c
  | LazyStar r' => iter (exec r') false (String.length c.2) c
  | Bol => if c.1 is None then [c] else []
  | Eol => if c.2 is "" then [c] else []
  | WordB => if atWordBoundary c then [c] else []
  end.

(** *** Pattern syntax *)

Definition chr (a : ascii) : t := Chr (λ b, bool_decide (a = b)).
(** a character under the [i] flag *)
Definition chri (a : ascii) : t :=
  Chr (λ b, bool_decide (Js.lowerChar a = Js.lowerChar b)).
Definition notChr (a : ascii) : t := Chr (λ b, negb (bool_decide (a = b))).
Fixpoint lit (s : string) : t :=
  match s with
  | "" => Eps
  | String a "" => chr a
  | String a s' => Cat (chr a) (lit s')
  end.
Fixpoint liti (s : string) : t :=
  match s with
  | "" => Eps
  | String a "" => chri a
  | String a s' => Cat (chri a) (liti s')
  end.
Definition digit : t := Chr Js.isDigit.
Definition space : t := Chr Js.isSpace.
Definition nonSpace : t := Chr (λ b, negb (Js.isSpace b)).
Definition alpha : t := Chr Js.isAlpha.
Definition dot : t := Chr (λ b, negb (Js.isLineTerminator b)).
Definition plus (r : t) : t := Cat r (Star r).
Definition lazyPlus (r : t) : t := Cat r (LazyStar r).
Definition opt (r : t) : t := Alt r Eps.
(** [r{n}] *)
Fixpoint rep (n : nat) (r : t) : t :=
  match n with
  | 0 => Eps
  | 1 => r
  | S n' => Cat r (rep n' r)
  end.
(** [r{n,n+1}] *)
Definition rep_or_one_more (n : nat) (r : t) : t := Cat (rep n r) (opt r).
Fixpoint cats (rs : list t) : t :=
  match rs with
  | [] => Eps
  | [r] => r
  | r :: rs' => Cat r (cats rs')
  end.
Fixpoint alts (r : t) (rs : list t) : t :=
  match rs with
  | [] => r
  | r' :: rs' => Alt r (alts r' rs')
  end.

(** *** Running a pattern

    A pattern is run as a sequence of pieces, so that the text matched
    by each piece (a capture group of the source) can be read off. *)

Definition consumed (c c' : cursor) : string :=
  Js.take (String.length c.2 - String.length c'.2) c.2.

Fixpoint execSeq (ps : list t) (c : cursor) : list (list string * cursor) :=
  match ps with
  | [] => [([], c)]
  | p :: ps' =>
      c' ← exec p c;
      m ← execSeq ps' c';
      [(consumed c c' :: m.1, m.2)]
  end.

Definition matchHere (ps : list t) (c : cursor)
    : option (list string * cursor) :=
  head (execSeq ps c).

(** leftmost match at or after the cursor: the text skipped, the text
    of each piece, and the cursor after the match *)
Fixpoint search (ps : list t) (prev : option ascii) (s : string)
    : option (string * list string * cursor) :=
  match matchHere ps (prev, s) with
  | Some (caps, c') => Some ("", caps, c')
  | None =>
      match s with
      | "" => None
      | String a s' =>
          match search ps (Some a) s' with
          | Some (pre, caps, c') => Some (String a pre, caps, c')
          | None => None
          end
      end
  end.

(** [r.test(s)] for a pattern without the [g] flag *)
Definition test (r : t) (s : string) : bool :=
  bool_decide (is_Some (search [r] None s)).

(** [s.match(r)] for a pattern without the [g] flag: the text of each
    piece of the leftmost match *)
Definition matchPieces (ps : list t) (s : string) : option (list string) :=
  (λ m, m.1.2) <$> search ps None s.

(** [s.replace(r, rep)] for a pattern without the [g] flag *)
Definition replaceFirst (r : t) (rep s : string) : string :=
  match search [r] None s with
  | Some (pre, _, c') => pre +:+ rep +:+ c'.2
  | None => s
  end.

(** the matches of a pattern with the [g] flag, from left to right, each
    with the unmatched text before it, and the text after the last one *)
Fixpoint scan (fuel : nat) (r : t) (c : cursor)
    : list (string * string) * string :=
  match fuel with
  | 0 => ([], c.2)
  | S fuel' =>
      match search [r] c.1 c.2 with
      | None => ([], c.2)
      | Some (pre, caps, c') =>
          let m := String.concat "" caps in
          match m, c'.2 with
          | "", "" => ([(pre, m)], "")
          | "", String a s' =>
              (* an empty match: the next search starts one character on *)
              let res := scan fuel' r (Some a, s') in
              match res.1 with
              | [] => ([(pre, m)], String a res.2)
              | (pre', m') :: ms => ((pre, m) :: (String a pre', m') :: ms, res.2)
              end
          | _, _ =>
              let res := scan fuel' r c' in
              ((pre, m) :: res.1, res.2)
          end
      end
  end.

(** [s.match(r)] with the [g] flag, [[]] when nothing matches *)
Definition matchAll (r : t) (s : string) : list string :=
  (scan (S (String.length s)) r (None, s)).1.*2.

(** [s.replace(r, rep)] with the [g] flag *)
Definition replaceAll (r : t) (rep s : string) : string :=
  let res := scan (S (String.length s)) r (None, s) in
  String.concat "" ((λ pm, pm.1 +:+ rep) <$> res.1) +:+ res.2.

(** [s.split(r)] *)
Definition split (r : t) (s : string) : list string :=
  let res := scan (S (String.length s)) r (None, s) in
  match s with
  | "" => if bool_decide (is_Some (matchHere [r] (None, ""))) then [] else [""]
  | _ => res.1.*1 ++ [res.2]
  end.

End RegExp.

(** ** Arrays, exceptions, numbers *)

(** [Array.prototype.sort] with a comparator is stable.  For the consistent
    comparators of the source, its result is the one of this insertion
    sort: an element goes before the first element it does not exceed, so
    elements that compare equal keep their order. *)
Section Sort.
Context {A : Type} (cmp : A → A → Z).

Fixpoint insertSorted (a : A) (l : list A) : list A :=
  match l with
  | [] => [a]
  | b :: l' => if (cmp a b <=? 0)%Z then a :: l else b :: insertSorted a l'
  end.

Definition sortBy (l : list A) : list A := foldr insertSorted [] l.

(** the order the comparator induces: [a] need not come after [b] *)
Definition notAfter (a b : A) : Prop := (cmp a b ≤ 0)%Z.
End Sort.

(** The outcome of a call that may throw [new Error(message)]. *)
Inductive Completion (A : Type) : Type :=
| Return (a : A)
| Throw (message : string).
Arguments Return {A} a.
Arguments Throw {A} message.

(** [s] between double quotes *)
Definition quoted (s : string) : string :=
  String "034" s +:+ String "034" "".

(** [Math.round]: the nearest integer, a tie going up. *)
Definition Math_round (q : Q) : Z := Qfloor (q + (1 # 2)).

(** [v || 0] on a number *)
Definition orZero (v : Q) : Q := if Qeq_bool v 0 then 0%Q else v.

(** [Number(m)] and [parseFloat(m)] on a match of [-?\d+\.?\d*]: the
    decimal numeral read exactly. *)
Definition decimalValue (m : string) : Q :=
  let neg := Js.startsWith m "-" in
  let body := if neg then Js.drop 1 m else m in
  let intPart := Js.take (from_option id (String.length body) (Js.indexOf body ".")) body in
  let fracPart := Js.drop (S (String.length intPart)) body in
  let mant := Z.of_N (Js.digitsValue (Js.digitsValue 0 intPart) fracPart) in
  let q := (mant # Z.to_pos (10 ^ Z.of_nat (String.length fracPart)))%Q in
  if neg then (- q)%Q else q.

(** ** Types *)

(** An object reference: the address tells two objects with the same
    content apart ([===] on objects compares addresses). *)
Record Ref (A : Type) : Type := mkRef { addr : nat * nat; deref : A }.
Arguments mkRef {A} addr deref.
Arguments addr {A} r.
Arguments deref {A} r.

Definition sameObject {A : Type} (a b : Ref A) : bool :=
  bool_decide (addr a = addr b).

Module TextItem.
Record t : Type := mk { x : Z; text : string; width : Q }.
End TextItem.

Module TextLine.
Record t : Type := mk { y : Z; items : list TextItem.t; text : string }.
End TextLine.

Module PageData.
Record t : Type := mk { pageNum : nat; lines : list TextLine.t }.
End PageData.

Module ExtractedText.
Record t : Type :=
  mk { pages : list PageData.t; rawText : string; fullLines : list string }.
End ExtractedText.

Inductive PdfType : Type := earning | deduction.

Global Instance PdfType_eq_dec : EqDecision PdfType.
Proof. solve_decision. Defined.

Module PdfMeta.
Record t : Type :=
  mk { type : PdfType; month : option string; billNo : option string;
       office : option string }.
End PdfMeta.

Module EmployeeBlock.
Record t : Type :=
  mk { srNo : N; hrpn : string; rawLines : list (Ref TextLine.t);
       dataLine : Ref TextLine.t; page : nat }.
End EmployeeBlock.

Module ParsedEmployee.
Record t : Type :=
  mk { srNo : N; hrpn : string; name : string; designation : string;
       values : list Q }.
End ParsedEmployee.

Module NormalizedHeader.
Record t : Type := mk { raw : string; canonical : string; category : string }.
End NormalizedHeader.

Module TotalRow.
Record t : Type := mk { rawText : string; page : nat; values : list Q }.
End TotalRow.

(** an element of [SinglePdfResult.records] *)
Module ParsedRecord.
Record t : Type :=
  mk { hrpn : string; name : string; designation : string;
       fields : gmap string Q; rawValues : list Q }.
End ParsedRecord.

Module SinglePdfResult.
Record t : Type :=
  mk { type : PdfType; meta : PdfMeta.t; records : list ParsedRecord.t;
       totalRow : option TotalRow.t; headers : list string;
       normalizedHeaders : list NormalizedHeader.t }.
End SinglePdfResult.

Module PayrollRecord.
Record t : Type :=
  mk { hrpn : string; name : string; designation : string;
       earning : gmap string Q; deduction : gmap string Q;
       gross : Q; totalDed : Q; netPay : Q }.
End PayrollRecord.

(** [ValidationResult.summary]; the two arrays of field keys are built
    from a [Set] and are kept as sets. *)
Module ValidationSummary.
Record t : Type :=
  mk { totalEmployees : nat; totalGross : Q; totalDeductions : Q;
       totalNetPay : Q; earningFieldsFound : gset string;
       deductionFieldsFound : gset string }.
End ValidationSummary.

(** The messages of the validator.  Each constructor stands for one
    template string of the source and carries the values the template
    interpolates. *)
Inductive Message : Type :=
| (** [HRPN ${hrpn}: Earning sum (${earningSum}) ≠ Gross (${gross})] *)
  EarningSumMismatch (hrpn : string) (earningSum gross : Q)
| (** [HRPN ${hrpn}: Gross-Ded=${computedNet} ≠ NetPay=${netPay}] *)
  NetPayMismatch (hrpn : string) (computedNet netPay : Q)
| (** [Invalid HRPN: "${hrpn}"] *)
  InvalidHrpn (hrpn : string).

Module ValidationResult.
Record t : Type :=
  mk { isValid : bool; totalRecords : nat; validRecords : nat;
       errors : list Message; warnings : list Message;
       summary : ValidationSummary.t }.
End ValidationResult.

Module FileMeta.
Record t : Type :=
  mk { file : string; type : PdfType; month : option string;
       billNo : option string; recordCount : nat }.
End FileMeta.

Module BatchMetadata.
Record t : Type :=
  mk { processedAt : string; month : option string; billNo : option string;
       office : option string; files : list FileMeta.t;
       totalEmployees : nat }.
End BatchMetadata.

Module ProcessPayrollResult.
Record t : Type :=
  mk { payroll : list PayrollRecord.t; validation : ValidationResult.t;
       metadata : BatchMetadata.t }.
End ProcessPayrollResult.

(** a call of the progress callback: [onProgress(step, detail)] *)
Definition ProgressEvent : Type := string * string.

(** ** Module 1: extract text *)

(** An element of [textContent.items], as the PDF library delivers it: a
    text run with its string, [transform[4]], [transform[5]] and width,
    or a marked-content item, which has no [str]. *)
Inductive ContentItem : Type :=
| TextRun (str : string) (tx ty width : Q)
| MarkedContent.

(** a source document once decoded: its pages, each the items of its text
    content *)
Definition PdfDocument : Type := list (list ContentItem).

(** the body of the loop over [textContent.items] *)
Definition addToLineMap (lineMap : gmap Z (list TextItem.t)) (item : ContentItem)
    : gmap Z (list TextItem.t) :=
  match item with
  | MarkedContent => lineMap
  | TextRun str tx ty width =>
      if bool_decide (Js.trim str = "") then lineMap
      else
        let y := Math_round ty in
        let x := Math_round tx in
        let width := orZero width in
        <[y := from_option id [] (lineMap !! y) ++
               [TextItem.mk x (Js.trim str) width]]> lineMap
  end.

Definition buildLineMap (items : list ContentItem) : gmap Z (list TextItem.t) :=
  foldl addToLineMap ∅ items.

Definition lineOf (lineMap : gmap Z (list TextItem.t)) (y : Z) : TextLine.t :=
  let items :=
    sortBy (λ a b, TextItem.x a - TextItem.x b)%Z
           (from_option id [] (lineMap !! y)) in
  TextLine.mk y items (Js.join " " (TextItem.text <$> items)).

(** the lines of one page, top of the page first *)
Definition extractLines (items : list ContentItem) : list TextLine.t :=
  let lineMap := buildLineMap items in
  let sortedYs := sortBy (λ a b, b - a)%Z (map_to_list lineMap).*1 in
  lineOf lineMap <$> sortedYs.

Definition extractText (doc : PdfDocument) : ExtractedText.t :=
  let pages :=
    imap (λ i items, PageData.mk (S i) (extractLines items)) doc in
  let allLines := (p ← pages; TextLine.text <$> PageData.lines p) in
  ExtractedText.mk pages (Js.join (String "010" "") allLines) allLines.

(** ** Module 2: detect type *)

Section DetectType.
Import RegExp.

Definition monthPattern : list RegExp.t :=
  [cats [liti "Month"; plus space; liti "of"; Star space; chr ":"; Star space];
           cats [plus alpha; chr "-"; rep 4 digit]].
Definition billPattern : list RegExp.t :=
  [cats [liti "Bill"; plus space; liti "No"; chr "."; Star space; chr ":"; Star space];
           plus nonSpace].
Definition officePattern : list RegExp.t :=
  [cats [liti "Name"; plus space; liti "of"; plus space; liti "Office";
                 Star space; chr ":"; Star space];
           lazyPlus dot;
           Alt (cats [Star space; liti "Bill"; plus space; liti "No"]) Eol].

Definition cannotDetectMessage : string :=
  "Cannot detect PDF type: neither " +:+ quoted "Earning Side" +:+ " nor "
  +:+ quoted "Deduction Side" +:+ " found.".

Definition detectType (rawText : string) : Completion PdfMeta.t :=
  let text := Js.toLowerCase rawText in
  let type :=
    if Js.includes text "earning side" then Some earning
    else if Js.includes text "deduction side" then Some deduction
    else None in
  match type with
  | None =>
      Throw cannotDetectMessage
  | Some type =>
      let month := RegExp.matchPieces monthPattern rawText ≫= (.!! 1%nat) in
      let billNo := RegExp.matchPieces billPattern rawText ≫= (.!! 1%nat) in
      let office :=
        Js.trim <$> (RegExp.matchPieces officePattern rawText ≫= (.!! 1%nat)) in
      Return (PdfMeta.mk type month billNo office)
  end.

End DetectType.

(** ** Module 3: parse headers *)

Module HeaderItem.
Record t : Type := mk { x : Z; text : string; y : Z; width : Q }.
End HeaderItem.

Module DetectResult.
Record t : Type := mk { found : bool; x : Z }.
End DetectResult.

Module Detector.
Record t : Type :=
  mk { label : string;
       detect : list HeaderItem.t → string → DetectResult.t }.
End Detector.

Module HeaderResult.
Record t : Type :=
  mk { headers : list string; isValid : bool; rawHeaderText : string }.
End HeaderResult.

Section ParseHeaders.
Import RegExp.

Fixpoint findItemByText (items : list HeaderItem.t) (pattern : RegExp.t)
    : option HeaderItem.t :=
  match items with
  | [] => None
  | item :: items' =>
      if test pattern (HeaderItem.text item) then Some item
      else findItemByText items' pattern
  end.

Definition findByKeyword (items : list HeaderItem.t) (primaryPattern : RegExp.t)
    (codePattern : option RegExp.t) : DetectResult.t :=
  match findItemByText items primaryPattern with
  | Some item => DetectResult.mk true (HeaderItem.x item)
  | None =>
      match codePattern ≫= findItemByText items with
      | Some codeItem => DetectResult.mk true (HeaderItem.x codeItem)
      | None => DetectResult.mk false 0
      end
  end.

(** [/^(Mr\.|Mrs\.|Miss\.|Ms\.|Dr\.|Shri\.|Smt\.)/i] *)
Definition namePrefixPattern : RegExp.t :=
  Cat Bol (alts (liti "Mr.") [liti "Mrs."; liti "Miss."; liti "Ms."; liti "Dr.";
                              liti "Shri."; liti "Smt."]).

Definition isNamePrefix (text : string) : bool := test namePrefixPattern text.

(** a detector built from [findByKeyword] alone *)
Definition keywordDetector (label : string) (primaryPattern : RegExp.t)
    (codePattern : option RegExp.t) : Detector.t :=
  Detector.mk label (λ items text, findByKeyword items primaryPattern codePattern).

(** [/GPF\s*Reg/i.test(text) || /9670/.test(text)] and its two siblings:
    the keyword item first, the code item next *)
Definition guardedDetector (label : string) (guard : RegExp.t) (code : string)
    (keyword : RegExp.t) : Detector.t :=
  Detector.mk label (λ items text,
    if test guard text || test (lit code) text then
      match findItemByText items keyword with
      | Some item => DetectResult.mk true (HeaderItem.x item)
      | None =>
          match findItemByText items (lit code) with
          | Some codeItem => DetectResult.mk true (HeaderItem.x codeItem)
          | None => DetectResult.mk false 0
          end
      end
    else DetectResult.mk false 0).

(** the detector of the non-private-practice allowance *)
Definition nonPrivatePracticeDetector : Detector.t :=
  Detector.mk "Non Private Practice Allow" (λ items text,
    let nonPrivate :=
      findItemByText items (cats [Bol; liti "Non"; Star space; liti "Private"; Eol]) in
    let practice := findItemByText items (liti "Practice") in
    match nonPrivate, practice with
    | Some nonPrivate, _ => DetectResult.mk true (HeaderItem.x nonPrivate)
    | None, Some practice => DetectResult.mk true (HeaderItem.x practice)
    | None, None =>
        if test (cats [liti "Non"; Star space; liti "Private"]) text
           || test (cats [liti "Practice"; Star space; liti "Allow"]) text
           || test (lit "(0128)") text
        then
          match findItemByText items (lit "0128") with
          | Some item => DetectResult.mk true (HeaderItem.x item)
          | None => DetectResult.mk true 500
          end
        else DetectResult.mk false 0
    end).

Definition getEarningDetectors : list Detector.t :=
  [ keywordDetector "Basic Pay" (liti "Basic") None;
    keywordDetector "DA (0103)" (liti "DA") (Some (lit "0103"));
    keywordDetector "HRA (0110)" (liti "HRA") (Some (lit "0110"));
    keywordDetector "CLA (0111)" (liti "CLA") (Some (lit "0111"));
    keywordDetector "Med Allow" (liti "Med") (Some (lit "0107"));
    keywordDetector "Trans Allow" (liti "Trans") (Some (lit "0113"));
    Detector.mk "Special Additional Pay" (λ items text,
      let special := findItemByText items (cats [Bol; liti "Special"; Eol]) in
      let additional := findItemByText items (cats [Bol; liti "Additional"; Eol]) in
      match special, additional with
      | Some special, Some additional =>
          DetectResult.mk true (Z.min (HeaderItem.x special) (HeaderItem.x additional))
      | _, _ => findByKeyword items (liti "Special") None
      end);
    nonPrivatePracticeDetector;
    keywordDetector "Washing Allow" (liti "Washing") (Some (lit "0132"));
    keywordDetector "Nursing Allow" (liti "Nursing") (Some (lit "0129"));
    keywordDetector "Uniform Allow" (liti "Uniform") (Some (lit "0131"));
    keywordDetector "Book Allow" (liti "Book") (Some (lit "0104"));
    keywordDetector "ESIS Allow" (liti "ESIS") (Some (lit "0127"));
    Detector.mk "Recovery of Pay" (λ items text,
      match findItemByText items (cats [Bol; liti "Recovery"; Eol]) with
      | Some recovery => DetectResult.mk true (HeaderItem.x recovery)
      | None => findByKeyword items (liti "Recovery") None
      end);
    keywordDetector "Gross Amt" (liti "Gross") None;
    keywordDetector "SLO" (cats [Bol; liti "SLO"; Eol]) None ].

Definition getDeductionDetectors : list Detector.t :=
  [ keywordDetector "Income Tax" (liti "Income") (Some (lit "9510"));
    keywordDetector "Prof Tax" (liti "Prof") (Some (lit "9570"));
    keywordDetector "R&B" (liti "R&B") (Some (lit "9550"));
    keywordDetector "GPF Reg Class 4" (liti "Class") (Some (lit "9531"));
    guardedDetector "GPF Reg" (cats [liti "GPF"; Star space; liti "Reg"]) "9670"
                    (liti "GPF");
    keywordDetector "NPS Reg" (liti "NPS") (Some (lit "9534"));
    guardedDetector "Govt Fund" (cats [liti "Govt"; Star space; liti "Fund"]) "9581"
                    (liti "Fund");
    guardedDetector "Govt Saving" (cats [liti "Govt"; Star space; liti "Saving"]) "9582"
                    (liti "Saving");
    keywordDetector "Total Ded" (cats [liti "Total"; Star space; liti "Ded"]) None;
    keywordDetector "Net Pay" (cats [liti "Net"; Star space; liti "Pay"]) None ].

(** [/^\d+\s+\d{8}/] *)
Definition dataRowStart : RegExp.t :=
  cats [Bol; plus digit; plus space; rep 8 digit].

(** the loop of [parseHeadersSmart] that collects the header items *)
Fixpoint collectHeaderItems (inHeaderZone : bool) (pageLines : list TextLine.t)
    : list HeaderItem.t :=
  match pageLines with
  | [] => []
  | line :: rest =>
      let text := TextLine.text line in
      if test (Alt (liti "phone") (liti "mobile")) text
      then collectHeaderItems true rest
      else if inHeaderZone then
        if test dataRowStart text || isNamePrefix (Js.trim text) then []
        else
          ((λ item, HeaderItem.mk (TextItem.x item) (TextItem.text item)
                      (TextLine.y line) (orZero (TextItem.width item)))
             <$> TextLine.items line)
          ++ collectHeaderItems inHeaderZone rest
      else collectHeaderItems inHeaderZone rest
  end.

(** the detectors that fire on a pool of header items, in catalogue
    order: the array [foundHeaders] before it is sorted *)
Definition detectHeaders (detectors : list Detector.t)
    (headerItems : list HeaderItem.t) (rawHeaderText : string)
    : list (string * Z) :=
  omap (λ detector,
          let result := Detector.detect detector headerItems rawHeaderText in
          if DetectResult.found result
          then Some (Detector.label detector, DetectResult.x result)
          else None)
       detectors.

Definition detectorsFor (pdfType : PdfType) : list Detector.t :=
  if decide (pdfType = earning) then getEarningDetectors else getDeductionDetectors.

Definition parseHeadersSmart (pageLines : list TextLine.t) (pdfType : PdfType)
    : HeaderResult.t :=
  let headerItems := collectHeaderItems false pageLines in
  if decide (length headerItems = 0) then HeaderResult.mk [] false ""
  else
    let rawHeaderText := Js.join " " (HeaderItem.text <$> headerItems) in
    let foundHeaders :=
      sortBy (λ a b, a.2 - b.2)%Z
             (detectHeaders (detectorsFor pdfType) headerItems rawHeaderText) in
    HeaderResult.mk foundHeaders.*1 (bool_decide (0 < length foundHeaders))
                    rawHeaderText.

End ParseHeaders.

(** ** Module 4: segment rows *)

Module Segmentation.
Record t : Type :=
  mk { employees : list EmployeeBlock.t; totalRow : option TotalRow.t }.
End Segmentation.

Section SegmentRows.
Import RegExp.

Definition isNamePrefixLine (text : string) : bool :=
  test namePrefixPattern (Js.trim text).

(** [/^total\b/i] *)
Definition totalPattern : RegExp.t := cats [Bol; liti "total"; WordB].

Definition isSkipLine (text : string) : bool :=
  if bool_decide (text = "") || bool_decide (Js.trim text = "") then true
  else if test (Alt (liti "karmyogi") (liti "gujarat.gov")) text then true
  else if test totalPattern text then true
  else if test (alts (liti "hereby certify")
                     [cats [liti "rupees"; Star space; Alt (chr "(") (chr ":")];
                      liti "superintendent";
                      cats [liti "cardex"; Star space; liti "no"];
                      cats [liti "date"; Star space; chr ":"]]) text then true
  else if test (alts (liti "PAYBILL")
                     [liti "INNER SHEET";
                      liti "D.D.O";
                      cats [liti "Name"; plus space; liti "of"; plus space;
                            alts (liti "Office") [liti "D.D.O"; liti "Ministry"]];
                      cats [liti "Phone"; Star space; liti "no"];
                      liti "Taluka";
                      liti "E-Mail";
                      liti "Address";
                      liti "Department";
                      cats [liti "Major"; plus space; liti "Head"];
                      cats [liti "TAN"; plus space; liti "No"];
                      cats [liti "Bill"; plus space; liti "No"];
                      cats [liti "Cardex"; plus space; liti "No"]]) text then true
  else if test (cats [Bol; liti "ESIS"; plus space; liti "General"; plus space;
                      liti "Hospital"]) text then true
  else false.

(** [/-?\d+\.?\d*/g] *)
Definition numberPattern : RegExp.t :=
  cats [opt (chr "-"); plus digit; opt (chr "."); Star digit].

Definition extractNumbers (text : string) : list Q :=
  decimalValue <$> matchAll numberPattern text.

(** [/^(\d+)\s+(\d{8})\s/]: the serial number is piece 1, the HRPN piece 3 *)
Definition dataLinePieces : list RegExp.t :=
  [Bol; plus digit; plus space; rep 8 digit; space].
Definition dataLinePattern : RegExp.t := cats dataLinePieces.

(** the lines of a page with their positions *)
Definition indexed (lines : list TextLine.t) : list (nat * TextLine.t) :=
  imap pair lines.

(** positions [from], ..., [to - 1] of an array *)
Definition slice {A : Type} (from to : nat) (l : list A) : list A :=
  take (to - from) (drop from l).

Definition dataLineIndicesOf (lines : list TextLine.t) : list nat :=
  (filter (λ il, test dataLinePattern (TextLine.text il.2) = true) (indexed lines)).*1.

(** the last line of the page that starts with [total], if any, else the
    one found so far *)
Definition scanTotalRow (pageNum : nat) (lines : list TextLine.t)
    (totalRow : option TotalRow.t) : option TotalRow.t :=
  foldl (λ totalRow line,
           let text := TextLine.text line in
           if test totalPattern (Js.trim text)
           then Some (TotalRow.mk text pageNum (extractNumbers text))
           else totalRow)
        totalRow lines.

Fixpoint headerEndIdxOf (region : list (nat * TextLine.t)) : nat :=
  match region with
  | [] => 0
  | (i, line) :: rest =>
      if isNamePrefixLine (Js.trim (TextLine.text line))
         || test dataLinePattern (TextLine.text line)
      then i else headerEndIdxOf rest
  end.

(** the first loop over the region before a data line: where the lines of
    this employee start *)
Fixpoint employeeStart (d : nat) (region : list (nat * TextLine.t))
    (dataIdx : nat) : nat :=
  match region with
  | [] => dataIdx
  | (i, line) :: rest =>
      let lineText := Js.trim (TextLine.text line) in
      if isSkipLine lineText then employeeStart d rest dataIdx
      else if isNamePrefixLine lineText then i
      else if decide (d = 0) then i
      else employeeStart d rest dataIdx
  end.

(** the second loop: the lines from the start to the data line *)
Definition leadingLines (region : list (nat * TextLine.t))
    : list (nat * TextLine.t) :=
  filter (λ il, isSkipLine (Js.trim (TextLine.text il.2)) = false) region.

(** the third loop: the lines after the data line *)
Fixpoint trailingLines (region : list (nat * TextLine.t))
    : list (nat * TextLine.t) :=
  match region with
  | [] => []
  | (i, line) :: rest =>
      let lineText := Js.trim (TextLine.text line) in
      if isSkipLine lineText then trailingLines rest
      else if test totalPattern lineText then []
      else if isNamePrefixLine lineText then []
      else (i, line) :: trailingLines rest
  end.

Definition lineRef (pagePos : nat) (il : nat * TextLine.t) : Ref TextLine.t :=
  mkRef (pagePos, il.1) il.2.

(** [regionStart]: the header end for the first data line, else the line
    after the previous data line *)
Definition regionStartOf (dataLineIndices : list nat) (headerEndIdx d : nat) : nat :=
  if decide (d = 0) then headerEndIdx
  else from_option S 0 (dataLineIndices !! (d - 1)).

(** [nextBoundary]: the next data line, else the end of the page *)
Definition nextBoundaryOf (lines : list TextLine.t) (dataLineIndices : list nat)
    (d : nat) : nat :=
  if decide (d < length dataLineIndices - 1)
  then from_option id (length lines) (dataLineIndices !! (d + 1))
  else length lines.

(** the body of the loop over [dataLineIndices]; [None] is the [continue]
    taken when the data line does not match *)
Definition blockAt (pagePos : nat) (page : PageData.t) (dataLineIndices : list nat)
    (headerEndIdx : nat) (d : nat) (dataIdx : nat) : option EmployeeBlock.t :=
  let lines := PageData.lines page in
  dataLine ← lines !! dataIdx;
  let regionStart := regionStartOf dataLineIndices headerEndIdx d in
  let thisEmployeeStart :=
    employeeStart d (slice regionStart dataIdx (indexed lines)) dataIdx in
  let nextBoundary := nextBoundaryOf lines dataLineIndices d in
  let blockLines :=
    leadingLines (slice thisEmployeeStart dataIdx (indexed lines))
    ++ [(dataIdx, dataLine)]
    ++ trailingLines (slice (dataIdx + 1) nextBoundary (indexed lines)) in
  dataMatch ← matchPieces dataLinePieces (TextLine.text dataLine);
  srNo ← dataMatch !! 1;
  hrpn ← dataMatch !! 3;
  Some (EmployeeBlock.mk (Js.digitsValue 0 srNo) hrpn
          (lineRef pagePos <$> blockLines) (lineRef pagePos (dataIdx, dataLine))
          (PageData.pageNum page)).

(** the employee blocks of one page *)
Definition segmentPage (pagePos : nat) (page : PageData.t) : list EmployeeBlock.t :=
  let lines := PageData.lines page in
  let dataLineIndices := dataLineIndicesOf lines in
  if decide (length dataLineIndices = 0) then []
  else
    let headerEndIdx := headerEndIdxOf (indexed lines) in
    omap id (imap (blockAt pagePos page dataLineIndices headerEndIdx) dataLineIndices).

Definition segmentRows (pages : list PageData.t) : Segmentation.t :=
  Segmentation.mk
    (mjoin (imap segmentPage pages))
    (foldl (λ totalRow page,
              scanTotalRow (PageData.pageNum page) (PageData.lines page) totalRow)
           None pages).

End SegmentRows.

(** ** Module 5: parse employee block *)

Module DesignationMatch.
Record t : Type :=
  mk { designation : string; namePart : string; afterDesig : string }.
End DesignationMatch.

(** the state of the loop over [rawLines] *)
Module NameScan.
Record t : Type :=
  mk { namesBefore : list string; namesAfter : list string;
       designation : string; foundDataLine : bool }.
End NameScan.

Section ParseEmployeeBlock.
Import RegExp.

Definition DESIGNATIONS : list string :=
  [ "Specialist";
    "Insurance Medical Officer";
    "Administrative Officer";
    "Junior Clerk";
    "Senior Clerk";
    "Junior Pharmacist";
    "Senior Pharmacist";
    "Matron";
    "Laboratory Technician";
    "Physiotherapist";
    "Head Nurse";
    "Staff Nurse";
    "Superintendent";
    "Peon";
    "Sweeper";
    "Watchman";
    "Driver";
    "Class-IV";
    "Class-III" ].

Definition isDesignation (text : string) : bool :=
  let norm := Js.trim text in
  existsb (λ d, bool_decide (Js.toLowerCase norm = Js.toLowerCase d)) DESIGNATIONS.

Definition isPayScale (text : string) : bool :=
  let t := Js.trim text in
  test (Cat Bol
          (alts (cats [liti "PB-"; digit])
                [cats [liti "pb-"; digit];
                 cats [rep_or_one_more 4 digit; chr ")"; chr "/"];
                 cats [rep_or_one_more 4 digit; chr "-"; digit];
                 lit "37400-";
                 lit "20200)";
                 lit "34800)";
                 lit "39100)";
                 lit "67000";
                 lit "4440-"])) t.

Definition removePayScaleFromLine (text : string) : string :=
  let text :=
    replaceAll (cats [Star space; liti "PB-"; digit; Star space; chr "(";
                      Star (notChr ")"); opt (chr "-"); Eol]) "" text in
  let text :=
    replaceAll (cats [Star space; liti "PB-"; digit; Star space; chr "(";
                      Star (notChr ")"); chr ")"; chr "/"; plus digit]) "" text in
  let text :=
    replaceAll (cats [Star space; rep_or_one_more 4 digit; chr ")"; chr "/";
                      plus digit]) "" text in
  let text :=
    replaceAll (cats [Star space; rep 5 digit; chr "-"; rep 5 digit; chr "/";
                      plus digit]) "" text in
  let text :=
    replaceAll (cats [Star space; rep 4 digit; chr "-"; rep 4 digit; chr "/";
                      rep 4 digit]) "" text in
  let text :=
    replaceAll (cats [Star space; rep 4 digit; chr "/"; rep 4 digit]) "" text in
  let text := replaceAll (cats [Star space; lit "4440-"; Star space]) "" text in
  Js.trim text.

Definition isPartOfDesignation (tokens : list string) (i : nat) : bool :=
  bool_decide (0 < i) &&
  bool_decide (Js.toLowerCase (tokens !!! (i - 1)) = "class").

Fixpoint findDesignationIn (sorted : list string) (text : string)
    : option DesignationMatch.t :=
  match sorted with
  | [] => None
  | desig :: rest =>
      match Js.indexOf (Js.toLowerCase text) (Js.toLowerCase desig) with
      | Some idx =>
          Some (DesignationMatch.mk
                  (Js.substring idx (idx + String.length desig) text)
                  (Js.substring 0 idx text)
                  (Js.drop (idx + String.length desig) text))
      | None => findDesignationIn rest text
      end
  end.

Definition findDesignation (text : string) : option DesignationMatch.t :=
  let sorted :=
    sortBy (λ a b, Z.of_nat (String.length b) - Z.of_nat (String.length a))%Z
           DESIGNATIONS in
  findDesignationIn sorted text.

Definition pushName (st : NameScan.t) (part : string) : NameScan.t :=
  if NameScan.foundDataLine st
  then NameScan.mk (NameScan.namesBefore st) (NameScan.namesAfter st ++ [part])
                   (NameScan.designation st) true
  else NameScan.mk (NameScan.namesBefore st ++ [part]) (NameScan.namesAfter st)
                   (NameScan.designation st) false.

Definition setDesignation (st : NameScan.t) (designation : string) : NameScan.t :=
  NameScan.mk (NameScan.namesBefore st) (NameScan.namesAfter st) designation
              (NameScan.foundDataLine st).

(** [if (!designation) designation = d] *)
Definition orDesignation (designation d : string) : string :=
  if bool_decide (designation = "") then d else designation.

(** the body of the loop over [rawLines] *)
Definition scanLine (dataLine : Ref TextLine.t) (st : NameScan.t)
    (line : Ref TextLine.t) : NameScan.t :=
  if sameObject line dataLine
  then NameScan.mk (NameScan.namesBefore st) (NameScan.namesAfter st)
                   (NameScan.designation st) true
  else
    let text := Js.trim (TextLine.text (deref line)) in
    if isPayScale text then st
    else
      let cleaned := removePayScaleFromLine text in
      if test (cats [Bol; chr "("; Star dot; chr ")"; Eol]) cleaned then
        if bool_decide (NameScan.designation st = "") then st
        else setDesignation st (NameScan.designation st +:+ " " +:+ cleaned)
      else if bool_decide (cleaned = "") then st
      else
        match findDesignation cleaned with
        | Some desigInLine =>
            let st :=
              setDesignation st
                (orDesignation (NameScan.designation st)
                               (DesignationMatch.designation desigInLine)) in
            let nameBit := Js.trim (DesignationMatch.namePart desigInLine) in
            if bool_decide (nameBit = "") then st else pushName st nameBit
        | None =>
            if isDesignation cleaned
            then setDesignation st (orDesignation (NameScan.designation st) cleaned)
            else pushName st cleaned
        end.

(** the first index below [n] at which [cond] holds: a loop that breaks *)
Definition firstIndex (cond : nat → bool) (n : nat) : option nat :=
  find cond (seq 0 n).

(** [/\s+/g] *)
Definition spaces : RegExp.t := plus space.

Definition parseEmployeeBlock (block : EmployeeBlock.t) (pdfType : PdfType)
    : ParsedEmployee.t :=
  let dataLine := EmployeeBlock.dataLine block in
  let st :=
    foldl (scanLine dataLine) (NameScan.mk [] [] "" false)
          (EmployeeBlock.rawLines block) in
  let designation := NameScan.designation st in
  let dataText := TextLine.text (deref dataLine) in
  let afterHrpn :=
    replaceFirst (cats [Bol; plus digit; plus space; rep 8 digit; plus space])
                 "" dataText in
  let tokens := split spaces afterHrpn in
  let flagIdx :=
    if decide (pdfType = earning) then
      firstIndex (λ i,
          (bool_decide (tokens !!! i = "No") || bool_decide (tokens !!! i = "Yes"))
          && bool_decide (i + 1 < length tokens)
          && test (cats [Bol; Chr Js.isUpper; Eol]) (tokens !!! (i + 1)))
        (length tokens)
    else None in
  let numericIdx :=
    firstIndex (λ i,
        test (cats [Bol; opt (chr "-"); plus digit; opt (chr "."); Star digit; Eol])
             (tokens !!! i)
        && negb (isPartOfDesignation tokens i))
      (length tokens) in
  (* [textTokens] and [numericStartIdx]; [None] stands for [-1] *)
  let '(textTokens, numericStartIdx) :=
    match flagIdx with
    | Some i => (take i tokens, Some (i + 2))
    | None =>
        match numericIdx with
        | Some i => (take i tokens, Some i)
        | None => ([], None)
        end
    end in
  let textStr := Js.join " " textTokens in
  let desigMatch := findDesignation textStr in
  let designation :=
    match desigMatch with
    | Some m => orDesignation designation (DesignationMatch.designation m)
    | None => designation
    end in
  let nameInDataLine :=
    match desigMatch with
    | Some m => Js.trim (DesignationMatch.namePart m)
    | None => Js.trim textStr
    end in
  let nonEmpty := filter (λ n : string, n ≠ "") in
  let allNameParts :=
    nonEmpty (NameScan.namesBefore st) ++ nonEmpty [nameInDataLine]
    ++ nonEmpty (NameScan.namesAfter st) in
  let fullName := Js.trim (replaceAll spaces " " (Js.join " " allNameParts)) in
  let fullName :=
    Js.trim (replaceAll spaces " " (removePayScaleFromLine fullName)) in
  let numericPart :=
    match numericStartIdx with
    | Some i => Js.join " " (drop i tokens)
    | None => ""
    end in
  let values := decimalValue <$> matchAll numberPattern numericPart in
  ParsedEmployee.mk (EmployeeBlock.srNo block) (EmployeeBlock.hrpn block)
                    fullName designation values.

End ParseEmployeeBlock.

(** ** Module 6: normalize fields *)

Section NormalizeFields.
Import RegExp.

Definition HEADER_NORMALIZATION_MAP : list (RegExp.t * string * string) :=
  [ (* earning *)
    (cats [liti "basic"; Star space; liti "pay"], "basic", "earning");
    (cats [WordB; liti "da"; WordB], "da", "earning");
    (cats [WordB; liti "hra"; WordB], "hra", "earning");
    (cats [WordB; liti "cla"; WordB], "cla", "earning");
    (cats [liti "med"; Star space; liti "allow"], "medAllow", "earning");
    (cats [liti "trans"; Star space; liti "allow"], "transAllow", "earning");
    (cats [liti "special"; Star space; liti "additional"; Star space; liti "pay"],
     "specialPay", "earning");
    (cats [liti "non"; Star space; liti "private"; Star space; liti "practice";
           Star space; liti "allow"], "nppAllow", "earning");
    (cats [liti "washing"; Star space; liti "allow"], "washingAllow", "earning");
    (cats [liti "nursing"; Star space; liti "allow"], "nursingAllow", "earning");
    (cats [liti "uniform"; Star space; liti "allow"], "uniformAllow", "earning");
    (cats [liti "book"; Star space; liti "allow"], "bookAllow", "earning");
    (cats [liti "esis"; Star space; liti "allow"], "esisAllow", "earning");
    (cats [liti "recovery"; Star space; liti "of"; Star space; liti "pay"],
     "recoveryOfPay", "earning");
    (cats [liti "gross"; Star space; liti "amt"], "gross", "earning");
    (cats [WordB; liti "slo"; WordB], "slo", "earning");
    (* deduction *)
    (cats [liti "income"; Star space; liti "tax"], "incomeTax", "deduction");
    (cats [liti "prof"; Star space; liti "tax"], "profTax", "deduction");
    (cats [liti "r"; Star space; chr "&"; Star space; liti "b"], "rnb", "deduction");
    (cats [liti "gpf"; Star space; liti "reg"; Star space; liti "class"; Star space;
           chr "4"], "gpfClass4", "deduction");
    (cats [liti "gpf"; Star space; liti "reg"; WordB], "gpfReg", "deduction");
    (cats [liti "nps"; Star space; liti "reg"], "npsReg", "deduction");
    (cats [liti "gov"; opt (chri "t"); Star space; liti "fund"], "govtFund", "deduction");
    (cats [liti "gov"; opt (chri "t"); Star space; liti "saving"], "govtSaving",
     "deduction");
    (cats [liti "total"; Star space; liti "ded"], "totalDed", "deduction");
    (cats [liti "net"; Star space; liti "pay"], "netPay", "deduction") ].

(** [word.charAt(0).toUpperCase() + word.slice(1).toLowerCase()] *)
Definition capitalize (word : string) : string :=
  Js.toUpperCase (Js.take 1 word) +:+ Js.toLowerCase (Js.drop 1 word).

Definition fallbackKey (rawHeader : string) : string :=
  let stripped :=
    Js.trim (replaceAll (cats [chr "("; Star (notChr ")"); chr ")"]) "" rawHeader) in
  String.concat ""
    (imap (λ i word, if decide (i = 0) then Js.toLowerCase word else capitalize word)
          (split spaces stripped)).

Fixpoint normalizeWith (map : list (RegExp.t * string * string)) (rawHeader : string)
    : string * string :=
  match map with
  | [] =>
      let fallback := fallbackKey rawHeader in
      (if bool_decide (fallback = "") then "unknown" else fallback, "unknown")
  | (pattern, canonical, category) :: rest =>
      if test pattern rawHeader then (canonical, category)
      else normalizeWith rest rawHeader
  end.

(** the canonical key and the category of a header *)
Definition normalizeHeader (rawHeader : string) : string * string :=
  normalizeWith HEADER_NORMALIZATION_MAP rawHeader.

Definition normalizeFields (headers : list string) (values : list Q)
    : gmap string Q :=
  foldl (λ record ih,
           let value := from_option id 0%Q (values !! ih.1) in
           <[(normalizeHeader ih.2).1 := value]> record)
        ∅ (imap pair headers).

End NormalizeFields.

(** ** Module 7: merge payroll *)

(** A JavaScript [Map] with string keys: the entries in insertion order.
    [set] on a key that is present replaces the value in place, which is
    also what mutating the object obtained from [get] does. *)
Module JsMap.
Section Ops.
Context {V : Type}.

Fixpoint get (m : list (string * V)) (k : string) : option V :=
  match m with
  | [] => None
  | (k', v) :: m' => if decide (k' = k) then Some v else get m' k
  end.

Definition has (m : list (string * V)) (k : string) : bool :=
  bool_decide (is_Some (get m k)).

Fixpoint set (m : list (string * V)) (k : string) (v : V) : list (string * V) :=
  match m with
  | [] => [(k, v)]
  | (k', v') :: m' =>
      if decide (k' = k) then (k, v) :: m' else (k', v') :: set m' k v
  end.

Definition values (m : list (string * V)) : list V := m.*2.
End Ops.
End JsMap.

(** [a > b] on numbers *)
Definition gtb (a b : Q) : bool := negb (Qle_bool a b).

(** [a.localeCompare(b)], on the strings of ASCII digits that identifiers
    are: the collation order of digit strings is the order of their
    character codes. *)
Definition localeCompare (a b : string) : Z :=
  match String.compare a b with
  | Lt => -1
  | Eq => 0
  | Gt => 1
  end.

Section MergePayroll.

Definition newEntry (rec : ParsedRecord.t) : PayrollRecord.t :=
  PayrollRecord.mk (ParsedRecord.hrpn rec) (ParsedRecord.name rec)
                   (ParsedRecord.designation rec) ∅ ∅ 0 0 0.

(** [if (rec.name.length > entry.name.length) entry.name = rec.name] *)
Definition longerName (entryName recName : string) : string :=
  if decide (String.length entryName < String.length recName)
  then recName else entryName.

(** [if (rec.designation && (!entry.designation ||
         rec.designation.length > entry.designation.length))
       entry.designation = rec.designation] *)
Definition longerDesignation (entryDesignation recDesignation : string) : string :=
  if negb (bool_decide (recDesignation = ""))
     && (bool_decide (entryDesignation = "")
         || bool_decide (String.length entryDesignation < String.length recDesignation))
  then recDesignation else entryDesignation.

(** [{ ...a, ...b }] *)
Definition spread (a b : gmap string Q) : gmap string Q := b ∪ a.

(** a field that is present and truthy *)
Definition truthyField (fields : gmap string Q) (key : string) : option Q :=
  match fields !! key with
  | Some v => if Qeq_bool v 0 then None else Some v
  | None => None
  end.

Definition mergeEarning (rec : ParsedRecord.t) (entry : PayrollRecord.t)
    : PayrollRecord.t :=
  PayrollRecord.mk
    (PayrollRecord.hrpn entry)
    (longerName (PayrollRecord.name entry) (ParsedRecord.name rec))
    (longerDesignation (PayrollRecord.designation entry) (ParsedRecord.designation rec))
    (spread (PayrollRecord.earning entry) (ParsedRecord.fields rec))
    (PayrollRecord.deduction entry)
    (from_option id (PayrollRecord.gross entry)
                 (truthyField (ParsedRecord.fields rec) "gross"))
    (PayrollRecord.totalDed entry)
    (PayrollRecord.netPay entry).

Definition mergeDeduction (rec : ParsedRecord.t) (entry : PayrollRecord.t)
    : PayrollRecord.t :=
  let deductionFields := ParsedRecord.fields rec in
  let totalDed :=
    from_option id (PayrollRecord.totalDed entry) (deductionFields !! "totalDed") in
  let deductionFields := delete "totalDed" deductionFields in
  let netPay :=
    from_option id (PayrollRecord.netPay entry) (deductionFields !! "netPay") in
  let deductionFields := delete "netPay" deductionFields in
  PayrollRecord.mk
    (PayrollRecord.hrpn entry)
    (longerName (PayrollRecord.name entry) (ParsedRecord.name rec))
    (longerDesignation (PayrollRecord.designation entry) (ParsedRecord.designation rec))
    (PayrollRecord.earning entry)
    (spread (PayrollRecord.deduction entry) deductionFields)
    (PayrollRecord.gross entry)
    totalDed
    netPay.

(** the body of either loop of [mergePayroll]: create the entry if the map
    has none, then update it *)
Definition mergeInto
    (update : ParsedRecord.t → PayrollRecord.t → PayrollRecord.t)
    (payrollMap : list (string * PayrollRecord.t)) (rec : ParsedRecord.t)
    : list (string * PayrollRecord.t) :=
  let hrpn := ParsedRecord.hrpn rec in
  let payrollMap :=
    if JsMap.has payrollMap hrpn then payrollMap
    else JsMap.set payrollMap hrpn (newEntry rec) in
  match JsMap.get payrollMap hrpn with
  | Some entry => JsMap.set payrollMap hrpn (update rec entry)
  | None => payrollMap
  end.

Definition mergePayroll (earningRecords deductionRecords : list ParsedRecord.t)
    : list PayrollRecord.t :=
  let payrollMap := foldl (mergeInto mergeEarning) [] earningRecords in
  let payrollMap := foldl (mergeInto mergeDeduction) payrollMap deductionRecords in
  let results := JsMap.values payrollMap in
  sortBy (λ a b, localeCompare (PayrollRecord.hrpn a) (PayrollRecord.hrpn b)) results.

(** [existing.fields = { ...existing.fields, ...rec.fields };
     if (rec.name.length > existing.name.length) existing.name = rec.name] *)
Definition absorb (rec existing : ParsedRecord.t) : ParsedRecord.t :=
  ParsedRecord.mk
    (ParsedRecord.hrpn existing)
    (longerName (ParsedRecord.name existing) (ParsedRecord.name rec))
    (ParsedRecord.designation existing)
    (spread (ParsedRecord.fields existing) (ParsedRecord.fields rec))
    (ParsedRecord.rawValues existing).

(** update the element that [combined.find(...)] returns, if any *)
Fixpoint updateFound (hrpn : string) (f : ParsedRecord.t → ParsedRecord.t)
    (combined : list ParsedRecord.t) : list ParsedRecord.t :=
  match combined with
  | [] => []
  | r :: rest =>
      if decide (ParsedRecord.hrpn r = hrpn) then f r :: rest
      else r :: updateFound hrpn f rest
  end.

(** the body of the inner loop of [combineRecordSets], on the pair of
    [combined] and [seen] *)
Definition combineRecord (st : list ParsedRecord.t * gset string)
    (rec : ParsedRecord.t) : list ParsedRecord.t * gset string :=
  let '(combined, seen) := st in
  if decide (ParsedRecord.hrpn rec ∈ seen)
  then (updateFound (ParsedRecord.hrpn rec) (absorb rec) combined, seen)
  else (combined ++ [rec], {[ParsedRecord.hrpn rec]} ∪ seen).

Definition combineRecordSets (recordSets : list (list ParsedRecord.t))
    : list ParsedRecord.t :=
  (foldl (foldl combineRecord) ([], ∅) recordSets).1.

End MergePayroll.

(** ** Module 8: validate results *)

Module RecordValidation.
Record t : Type :=
  mk { isValid : bool; errors : list Message; warnings : list Message }.
End RecordValidation.

Section Validate.
Import RegExp.

(** the sum of the earning fields other than [gross] and [slo] *)
Definition earningSumOf (earning : gmap string Q) : Q :=
  map_fold (λ key val sum,
              if bool_decide (key ≠ "gross") && bool_decide (key ≠ "slo")
              then (sum + orZero val)%Q else sum)
           0%Q earning.

Definition earningWarnings (record : PayrollRecord.t) : list Message :=
  if gtb (PayrollRecord.gross record) 0
     && bool_decide (0 < size (PayrollRecord.earning record))
  then
    let earningSum := earningSumOf (PayrollRecord.earning record) in
    let grossDiff := Qabs (earningSum - PayrollRecord.gross record) in
    if gtb grossDiff 1
    then [EarningSumMismatch (PayrollRecord.hrpn record) earningSum
                             (PayrollRecord.gross record)]
    else []
  else [].

Definition netPayErrors (record : PayrollRecord.t) : list Message :=
  if gtb (PayrollRecord.gross record) 0 && gtb (PayrollRecord.totalDed record) 0
     && gtb (PayrollRecord.netPay record) 0
  then
    let computedNet := (PayrollRecord.gross record - PayrollRecord.totalDed record)%Q in
    let netDiff := Qabs (computedNet - PayrollRecord.netPay record) in
    if gtb netDiff 1
    then [NetPayMismatch (PayrollRecord.hrpn record) computedNet
                         (PayrollRecord.netPay record)]
    else []
  else [].

Definition hrpnErrors (record : PayrollRecord.t) : list Message :=
  if bool_decide (PayrollRecord.hrpn record = "")
     || negb (test (cats [Bol; rep 8 digit; Eol]) (PayrollRecord.hrpn record))
  then [InvalidHrpn (PayrollRecord.hrpn record)]
  else [].

Definition validateRecord (record : PayrollRecord.t) : RecordValidation.t :=
  let warnings := earningWarnings record in
  let errors := netPayErrors record ++ hrpnErrors record in
  RecordValidation.mk (bool_decide (length errors = 0)) errors warnings.

Definition validateResults (records : list PayrollRecord.t)
    (earningTotalRow deductionTotalRow : option TotalRow.t) : ValidationResult.t :=
  let results := validateRecord <$> records in
  let validCount := length (filter (λ r, RecordValidation.isValid r = true) results) in
  let allErrors := results ≫= RecordValidation.errors in
  let allWarnings := results ≫= RecordValidation.warnings in
  let earningFieldsFound : gset string :=
    ⋃ ((λ rec, dom (PayrollRecord.earning rec)) <$> records) in
  let deductionFieldsFound : gset string :=
    ⋃ ((λ rec, dom (PayrollRecord.deduction rec)) <$> records) in
  ValidationResult.mk
    (bool_decide (length allErrors = 0))
    (length records)
    validCount
    allErrors
    allWarnings
    (ValidationSummary.mk
       (length records)
       (foldl (λ s r, s + orZero (PayrollRecord.gross r))%Q 0%Q records)
       (foldl (λ s r, s + orZero (PayrollRecord.totalDed r))%Q 0%Q records)
       (foldl (λ s r, s + orZero (PayrollRecord.netPay r))%Q 0%Q records)
       earningFieldsFound
       deductionFieldsFound).

End Validate.

(** ** Main: [parseSinglePDF] and [processPayrollFromFiles] *)

(** An uploaded file: its name, and what the PDF library makes of its
    bytes, either the decoded document or the error it rejects with. *)
Module SourceFile.
Record t : Type := mk { name : string; buffer : Completion PdfDocument }.
End SourceFile.

(** the accumulators of the loop over the files *)
Module Batch.
Record t : Type :=
  mk { earningRecords : list (list ParsedRecord.t);
       deductionRecords : list (list ParsedRecord.t);
       earningTotalRow : option TotalRow.t;
       deductionTotalRow : option TotalRow.t;
       allMetadata : list FileMeta.t;
       month : option string;
       billNo : option string;
       office : option string }.
End Batch.

Section Main.

Definition typeName (type : PdfType) : string :=
  match type with
  | earning => "earning"
  | deduction => "deduction"
  end.

(** the record pushed for one employee block *)
Definition recordOf (normalizedHeaders : list NormalizedHeader.t) (type : PdfType)
    (block : EmployeeBlock.t) : ParsedRecord.t :=
  let parsed := parseEmployeeBlock block type in
  let fields :=
    normalizeFields (NormalizedHeader.canonical <$> normalizedHeaders)
                    (ParsedEmployee.values parsed) in
  ParsedRecord.mk (ParsedEmployee.hrpn parsed) (ParsedEmployee.name parsed)
                  (ParsedEmployee.designation parsed) fields
                  (ParsedEmployee.values parsed).

(** [parseSinglePDF]: the calls of the progress callback it makes, and its
    result or the error it throws *)
Definition parseSinglePDF (fileName : string) (fileBuffer : Completion PdfDocument)
    : list ProgressEvent * Completion SinglePdfResult.t :=
  let log1 := [("Extracting", "Reading text from " +:+ fileName +:+ "...")] in
  match fileBuffer with
  | Throw message => (log1, Throw message)
  | Return doc =>
      let extracted := extractText doc in
      let log2 := log1 ++ [("Detecting", "Detecting PDF type for " +:+ fileName +:+ "...")] in
      match detectType (ExtractedText.rawText extracted) with
      | Throw message => (log2, Throw message)
      | Return meta =>
          let log3 :=
            log2 ++ [("Headers", "Parsing headers (" +:+ typeName (PdfMeta.type meta)
                                  +:+ ") from " +:+ fileName +:+ "...")] in
          match ExtractedText.pages extracted with
          | [] =>
              (* [extracted.pages[0]] is [undefined] *)
              (log3, Throw "Cannot read properties of undefined (reading 'lines')")
          | firstPage :: _ =>
              let headerResult :=
                parseHeadersSmart (PageData.lines firstPage) (PdfMeta.type meta) in
              let normalizedHeaders :=
                (λ h, let n := normalizeHeader h in NormalizedHeader.mk h n.1 n.2)
                  <$> HeaderResult.headers headerResult in
              let log4 :=
                log3 ++ [("Segmenting", "Segmenting employee rows from " +:+ fileName
                                         +:+ "...")] in
              let segmentation := segmentRows (ExtractedText.pages extracted) in
              let employees := Segmentation.employees segmentation in
              let log5 :=
                log4 ++ [("Parsing", "Parsing " +:+ pretty (length employees)
                                      +:+ " employee blocks from " +:+ fileName
                                      +:+ "...")] in
              let records := recordOf normalizedHeaders (PdfMeta.type meta) <$> employees in
              (log5,
               Return (SinglePdfResult.mk (PdfMeta.type meta) meta records
                         (Segmentation.totalRow segmentation)
                         (HeaderResult.headers headerResult) normalizedHeaders))
          end
      end
  end.

(** a string that is neither [null] nor empty *)
Definition truthy (s : option string) : bool :=
  match s with
  | Some s => negb (bool_decide (s = ""))
  | None => false
  end.

(** [if (!current && found) current = found] *)
Definition firstTruthy (current found : option string) : option string :=
  if negb (truthy current) && truthy found then found else current.

(** the [try] block of the loop over the files, once the file is parsed *)
Definition addResult (fileName : string) (result : SinglePdfResult.t) (b : Batch.t)
    : Batch.t :=
  let meta := SinglePdfResult.meta result in
  let isEarning := bool_decide (SinglePdfResult.type result = earning) in
  let totalRow := SinglePdfResult.totalRow result in
  Batch.mk
    (if isEarning then Batch.earningRecords b ++ [SinglePdfResult.records result]
     else Batch.earningRecords b)
    (if isEarning then Batch.deductionRecords b
     else Batch.deductionRecords b ++ [SinglePdfResult.records result])
    (if isEarning && bool_decide (is_Some totalRow) then totalRow
     else Batch.earningTotalRow b)
    (if negb isEarning && bool_decide (is_Some totalRow) then totalRow
     else Batch.deductionTotalRow b)
    (Batch.allMetadata b
     ++ [FileMeta.mk fileName (SinglePdfResult.type result) (PdfMeta.month meta)
           (PdfMeta.billNo meta) (length (SinglePdfResult.records result))])
    (firstTruthy (Batch.month b) (PdfMeta.month meta))
    (firstTruthy (Batch.billNo b) (PdfMeta.billNo meta))
    (firstTruthy (Batch.office b) (PdfMeta.office meta)).

(** the body of the loop over the files: the accumulators after the file,
    and the calls of the progress callback *)
Definition processFile (b : Batch.t) (file : SourceFile.t)
    : Batch.t * list ProgressEvent :=
  let name := SourceFile.name file in
  let log := [("Processing", "Processing " +:+ name +:+ "...")] in
  let parsed := parseSinglePDF name (SourceFile.buffer file) in
  match parsed.2 with
  | Return result => (addResult name result b, log ++ parsed.1)
  | Throw message =>
      (b, log ++ parsed.1
          ++ [("Error", "Failed to parse " +:+ name +:+ ": " +:+ message)])
  end.

Fixpoint processFiles (b : Batch.t) (files : list SourceFile.t)
    : Batch.t * list ProgressEvent :=
  match files with
  | [] => (b, [])
  | file :: rest =>
      let step := processFile b file in
      let more := processFiles step.1 rest in
      (more.1, step.2 ++ more.2)
  end.

Definition emptyBatch : Batch.t := Batch.mk [] [] None None [] None None None.

(** [processPayrollFromFiles]; [now] is [new Date().toISOString()] at the
    time the result is built.  The result comes with the calls of the
    progress callback, in order. *)
Definition processPayrollFromFiles (now : string) (files : list SourceFile.t)
    : ProcessPayrollResult.t * list ProgressEvent :=
  let '(b, log) := processFiles emptyBatch files in
  let combinedEarnings :=
    if decide (0 < length (Batch.earningRecords b))
    then combineRecordSets (Batch.earningRecords b) else [] in
  let combinedDeductions :=
    if decide (0 < length (Batch.deductionRecords b))
    then combineRecordSets (Batch.deductionRecords b) else [] in
  let payroll := mergePayroll combinedEarnings combinedDeductions in
  let validation :=
    validateResults payroll (Batch.earningTotalRow b) (Batch.deductionTotalRow b) in
  (ProcessPayrollResult.mk payroll validation
     (BatchMetadata.mk now (Batch.month b) (Batch.billNo b) (Batch.office b)
                       (Batch.allMetadata b) (length payroll)),
   log ++ [("Merging", "Merging records by HRPN...");
           ("Validating", "Cross-validating results...");
           ("Complete", "Processed " +:+ pretty (length payroll)
                         +:+ " employees successfully!")]).

End Main.

(** ** Utility: the row of a payroll record, the date of a month *)

Module SupabaseRow.
Record t : Type :=
  mk { hrpn : string; name : string; designation : option string;
       month_year : string; month_date : string;
       basic : Q; da : Q; hra : Q; cla : Q; med_allow : Q; trans_allow : Q;
       book_allow : Q; npp_allow : Q; esis_allow : Q; special_pay : Q;
       washing_allow : Q; nursing_allow : Q; uniform_allow : Q;
       recovery_of_pay : Q; slo : Q;
       income_tax : Q; prof_tax : Q; gpf_reg : Q; gpf_class4 : Q; nps_reg : Q;
       rnb : Q; govt_fund : Q; govt_saving : Q;
       gross : Q; total_ded : Q; net_pay : Q;
       source_files : list string; bill_no : option string;
       office : option string }.
End SupabaseRow.

Section Utility.

(** [fields.key || 0] *)
Definition fieldOrZero (fields : gmap string Q) (key : string) : Q :=
  match fields !! key with
  | Some v => orZero v
  | None => 0%Q
  end.

(** [s || null] *)
Definition orNull (s : option string) : option string :=
  if truthy s then s else None.

Definition payrollToSupabaseRow (record : PayrollRecord.t) (monthDate monthYear : string)
    (sourceFiles : list string) (billNo office : option string) : SupabaseRow.t :=
  let earning := PayrollRecord.earning record in
  let deduction := PayrollRecord.deduction record in
  SupabaseRow.mk
    (PayrollRecord.hrpn record)
    (PayrollRecord.name record)
    (orNull (Some (PayrollRecord.designation record)))
    monthYear
    monthDate
    (fieldOrZero earning "basic")
    (fieldOrZero earning "da")
    (fieldOrZero earning "hra")
    (fieldOrZero earning "cla")
    (fieldOrZero earning "medAllow")
    (fieldOrZero earning "transAllow")
    (fieldOrZero earning "bookAllow")
    (from_option id (fieldOrZero earning "nppallow") (truthyField earning "nppAllow"))
    (fieldOrZero earning "esisAllow")
    (fieldOrZero earning "specialPay")
    (fieldOrZero earning "washingAllow")
    (fieldOrZero earning "nursingAllow")
    (fieldOrZero earning "uniformAllow")
    (fieldOrZero earning "recoveryOfPay")
    (fieldOrZero earning "slo")
    (fieldOrZero deduction "incomeTax")
    (fieldOrZero deduction "profTax")
    (fieldOrZero deduction "gpfReg")
    (fieldOrZero deduction "gpfClass4")
    (fieldOrZero deduction "npsReg")
    (fieldOrZero deduction "rnb")
    (fieldOrZero deduction "govtFund")
    (fieldOrZero deduction "govtSaving")
    (orZero (PayrollRecord.gross record))
    (orZero (PayrollRecord.totalDed record))
    (orZero (PayrollRecord.netPay record))
    sourceFiles
    (orNull billNo)
    (orNull office).

(** [s.split(sep)] for a separator of one character *)
Fixpoint splitChar (sep : ascii) (s : string) : list string :=
  match s with
  | "" => [""]
  | String a s' =>
      if decide (a = sep) then "" :: splitChar sep s'
      else match splitChar sep s' with
           | part :: parts => String a part :: parts
           | [] => [String a ""]
           end
  end.

Definition months : list (string * string) :=
  [ ("january", "01"); ("february", "02"); ("march", "03"); ("april", "04");
    ("may", "05"); ("june", "06"); ("july", "07"); ("august", "08");
    ("september", "09"); ("october", "10"); ("november", "11"); ("december", "12") ].

(** [months[key] || '01'], as the template string prints it.  The object
    [months] inherits from [Object.prototype]: of the inherited
    properties, a key in lower case can only name [constructor], the
    function [Object], whose text [objectText] depends on the engine, and
    [__proto__], an object.  Both are truthy. *)
Definition monthNumber (objectText : string) (key : string) : string :=
  match JsMap.get months key with
  | Some number => number
  | None =>
      if decide (key = "constructor") then objectText
      else if decide (key = "__proto__") then "[object Object]"
      else "01"
  end.

(** [monthYearToDate]; [objectText] is the text of the function [Object] *)
Definition monthYearToDate (objectText : string) (monthYear : string) : string :=
  match splitChar "-" monthYear with
  | [month; year] =>
      let monthNum := monthNumber objectText (Js.toLowerCase month) in
      year +:+ "-" +:+ monthNum +:+ "-01"
  | _ => monthYear
  end.

End Utility.

(** * Sample documents

    Small bills used to run the pipeline on concrete inputs. *)

(** a text run at integer coordinates *)
Definition run (str : string) (x y : Z) : ContentItem :=
  TextRun str (inject_Z x) (inject_Z y) 10.

(** an earning-side bill with two employees; the data line of the second
    one carries no amount *)
Definition sampleEarningPage : list ContentItem :=
  [ run "PAYBILL Earning Side" 10 800;
    run "Month of : January-2026" 10 790; run "Bill No. : 123" 200 790;
    run "Phone no : 123" 10 780;
    run "Basic" 300 770; run "DA" 350 770; run "Gross" 450 770;
    run "Pay" 300 760; run "(0103)" 352 760; run "Amt" 450 760;
    run "Mr. Ajay Kumar" 40 750;
    run "1" 10 740; run "00125678" 20 740; run "Staff Nurse" 100 740;
    run "No" 200 740; run "A" 220 740;
    run "40000" 300 740; run "10000" 350 740; run "50000" 450 740;
    run "Ambaliya" 40 730;
    run "Mrs. Bina Shah" 40 720;
    run "2" 10 710; run "00125679" 20 710; run "Peon" 100 710;
    run "Total 100000" 10 700 ].

(** the deduction-side bill of the first employee *)
Definition sampleDeductionPage : list ContentItem :=
  [ run "PAYBILL Deduction Side" 10 800;
    run "Mobile" 10 780;
    run "Income" 300 770; run "Prof" 350 770; run "Total Ded" 400 770;
    run "Net Pay" 450 770;
    run "Mr. Ajay K" 40 750;
    run "1" 10 740; run "00125678" 20 740; run "Staff Nurse" 100 740;
    run "4000" 300 740; run "1000" 350 740; run "5000" 400 740;
    run "45000" 450 740 ].

(** a document that is no bill *)
Definition sampleLetterPage : list ContentItem :=
  [ run "To whom it may concern" 10 800 ].

Definition sampleEarningFile : SourceFile.t :=
  SourceFile.mk "earning.pdf" (Return [sampleEarningPage]).
Definition sampleDeductionFile : SourceFile.t :=
  SourceFile.mk "deduction.pdf" (Return [sampleDeductionPage]).
Definition sampleLetterFile : SourceFile.t :=
  SourceFile.mk "letter.pdf" (Return [sampleLetterPage]).

(** a page with a blank text run beside a word *)
Definition blankPage : list ContentItem := [run " " 10 700; run "Basic" 40 700].

(** merged records of the sample employee, and one of a colleague *)
Definition sampleEarningRecord : ParsedRecord.t :=
  ParsedRecord.mk "00125678" "Ajay K" "Nurse"
    {["basic" := 40000%Q; "da" := 10000%Q; "gross" := 50000%Q]}
    [40000%Q; 10000%Q; 50000%Q].
Definition sampleDeductionRecord : ParsedRecord.t :=
  ParsedRecord.mk "00125678" "Ajay Kumar Ambaliya" "Staff Nurse"
    {["incomeTax" := 4000%Q; "profTax" := 1000%Q; "totalDed" := 5000%Q;
      "netPay" := 45000%Q]}
    [4000%Q; 1000%Q; 5000%Q; 45000%Q].
Definition otherEarningRecord : ParsedRecord.t :=
  ParsedRecord.mk "00125600" "Bina Shah" "Peon"
    {["basic" := 20000%Q; "gross" := 20000%Q]} [20000%Q; 20000%Q].

Definition laterEarningRecord : ParsedRecord.t :=
  ParsedRecord.mk "00125678" "Ajay Kumar Ambaliya" "Staff Nurse"
    {["hra" := 2000%Q]} [2000%Q].

(** an earning-side bill with a column for the special additional pay *)
Definition sampleSpecialPayPage : list ContentItem :=
  [ run "PAYBILL Earning Side" 10 800;
    run "Phone no : 123" 10 780;
    run "Basic" 300 770; run "Special" 350 770; run "Gross" 450 770;
    run "Pay" 300 760; run "Additional" 350 760; run "Amt" 450 760;
    run "Mr. Ajay Kumar" 40 750;
    run "1" 10 740; run "00125678" 20 740; run "Staff Nurse" 100 740;
    run "No" 200 740; run "A" 220 740;
    run "40000" 300 740; run "5000" 350 740; run "45000" 450 740 ].

Definition sampleSpecialPayFile : SourceFile.t :=
  SourceFile.mk "special.pdf" (Return [sampleSpecialPayPage]).

(** a file that the PDF library cannot read *)
Definition sampleBrokenFile : SourceFile.t :=
  SourceFile.mk "broken.pdf" (Throw "Invalid PDF structure.").

(** * Notions used in the statements *)

(** [text] contains [marker] up to the case of its letters. *)
Definition containsIgnoringCase (text marker : string) : Prop :=
  ∃ pre mid post, text = pre +:+ mid +:+ post ∧ Js.toLowerCase mid = marker.

(** The text of a document contains neither marker. *)
Definition undetectable (doc : PdfDocument) : Prop :=
  let text := ExtractedText.rawText (extractText doc) in
  ¬ containsIgnoringCase text "earning side"
  ∧ ¬ containsIgnoringCase text "deduction side".

(** The validator's arithmetic error: gross minus deductions differs from
    the net pay. *)
Definition isArithmeticError (m : Message) : bool :=
  if m is NetPayMismatch _ _ _ then true else false.


(** The record without its earning fields, which cannot raise the
    earning-sum warning. *)
Definition withoutEarning (record : PayrollRecord.t) : PayrollRecord.t :=
  PayrollRecord.mk (PayrollRecord.hrpn record) (PayrollRecord.name record)
    (PayrollRecord.designation record) ∅ (PayrollRecord.deduction record)
    (PayrollRecord.gross record) (PayrollRecord.totalDed record)
    (PayrollRecord.netPay record).

(** The invariant of [payrollMap]: no key twice, and each entry under its
    own identifier. *)
Definition payrollMapOk (m : list (string * PayrollRecord.t)) : Prop :=
  NoDup m.*1 ∧ Forall (λ kv, PayrollRecord.hrpn kv.2 = kv.1) m.

(** what an entry becomes when [rec] is merged into the map *)
Definition mergedEntry
    (update : ParsedRecord.t → PayrollRecord.t → PayrollRecord.t)
    (entry : option PayrollRecord.t) (rec : ParsedRecord.t) : option PayrollRecord.t :=
  Some (update rec (from_option id (newEntry rec) entry)).

(** A positioned token, as the line reconstructor reads it off a text
    run: the coordinates rounded, the text trimmed. *)
Module PositionedToken.
Record t : Type := mk { x : Z; y : Z; text : string; width : Q }.
End PositionedToken.

(** the token of an item of the text content; a marked-content item is no
    token *)
Definition positioned (item : ContentItem) : option PositionedToken.t :=
  match item with
  | TextRun str tx ty width =>
      Some (PositionedToken.mk (Math_round tx) (Math_round ty) (Js.trim str)
                               (orZero width))
  | MarkedContent => None
  end.

Definition pageTokens (items : list ContentItem) : list PositionedToken.t :=
  omap positioned items.

(** the token an item of a reconstructed line stands for *)
Definition tokenAt (y : Z) (item : TextItem.t) : PositionedToken.t :=
  PositionedToken.mk (TextItem.x item) y (TextItem.text item) (TextItem.width item).

(** the tokens of the lines of a page, flattened again *)
Definition reflatten (lines : list TextLine.t) : list PositionedToken.t :=
  line ← lines; tokenAt (TextLine.y line) <$> TextLine.items line.

(** the tokens held by [lineMap] *)
Definition lineMapTokens (lineMap : gmap Z (list TextItem.t)) : list PositionedToken.t :=
  kv ← map_to_list lineMap; tokenAt kv.1 <$> kv.2.

(** two blocks share no line *)
Definition disjointBlocks (b1 b2 : EmployeeBlock.t) : Prop :=
  ∀ l1 l2, l1 ∈ EmployeeBlock.rawLines b1 → l2 ∈ EmployeeBlock.rawLines b2 →
           addr l1 ≠ addr l2.

(** a region of the page: consecutive positions from [a] on *)
Definition regionFrom (a : nat) (region : list (nat * TextLine.t)) : Prop :=
  region.*1 = seq a (length region).

Section Catalogue.
Import RegExp.

(** The detector resolves its field by the keyword pattern [primary] or,
    failing that, by the field-code pattern [code]. *)
Definition byKeywordThenCode (detector : Detector.t) (label : string)
    (primary code : RegExp.t) : Prop :=
  detector = keywordDetector label primary (Some code)
  ∨ (∃ guard codeText,
       code = lit codeText ∧ detector = guardedDetector label guard codeText primary)
  ∨ (detector = nonPrivatePracticeDetector
     ∧ label = "Non Private Practice Allow"
     ∧ primary = cats [Bol; liti "Non"; Star space; liti "Private"; Eol]
     ∧ code = lit "0128").

End Catalogue.

(** [first] is the first item of the pool whose text matches the pattern *)
Definition firstMatch (pattern : RegExp.t) (items : list HeaderItem.t)
    (first : HeaderItem.t) : Prop :=
  ∃ before after,
    items = before ++ first :: after
    ∧ Forall (λ item, RegExp.test pattern (HeaderItem.text item) = false) before
    ∧ RegExp.test pattern (HeaderItem.text first) = true.


(** [combined.find(r => r.hrpn === hrpn)] *)
Fixpoint findByHrpn (hrpn : string) (combined : list ParsedRecord.t)
    : option ParsedRecord.t :=
  match combined with
  | [] => None
  | r :: rest =>
      if decide (ParsedRecord.hrpn r = hrpn) then Some r else findByHrpn hrpn rest
  end.

(** what the combined record of an identifier becomes when [rec] arrives *)
Definition combinedEntry (existing : option ParsedRecord.t) (rec : ParsedRecord.t)
    : option ParsedRecord.t :=
  Some (from_option (absorb rec) rec existing).

(** The invariant of the loop of [combineRecordSets]: [seen] holds the
    identifiers of [combined], each once. *)
Definition combinedOk (st : list ParsedRecord.t * gset string) : Prop :=
  NoDup (ParsedRecord.hrpn <$> st.1)
  ∧ ∀ hrpn, hrpn ∈ st.2 ↔ hrpn ∈ ParsedRecord.hrpn <$> st.1.

(** ** What a pattern matches *)

Section Denotation.
Import RegExp.

(** [denotes r c c']: a match of [r] that starts at the cursor [c] can end
    at the cursor [c']. *)
Fixpoint denotes (r : RegExp.t) (c c' : cursor) : Prop :=
  match r with
  | Chr p => ∃ a, c.2 = String a c'.2 ∧ c'.1 = Some a ∧ p a = true
  | Eps => c' = c
  | Cat r1 r2 => ∃ c1, denotes r1 c c1 ∧ denotes r2 c1 c'
  | Alt r1 r2 => denotes r1 c c' ∨ denotes r2 c c'
  | Star r' => rtc (denotes r') c c'
  | LazyStar r' => rtc (denotes r') c c'
  | Bol => c' = c ∧ c.1 = None
  | Eol => c' = c ∧ c.2 = ""
  | WordB => c' = c ∧ atWordBoundary c = true
  end.

(** the pieces of a pattern match the texts [caps], one after the other,
    from the cursor [c] to the cursor [c'] *)
Fixpoint denotesSeq (ps : list RegExp.t) (c : cursor) (caps : list string)
    (c' : cursor) : Prop :=
  match ps, caps with
  | [], [] => c' = c
  | p :: ps', w :: caps' =>
      ∃ c1, denotes p c c1 ∧ c.2 = w +:+ c1.2 ∧ denotesSeq ps' c1 caps' c'
  | _, _ => False
  end.

End Denotation.

(** every character of [w] is in the class [p] *)
Fixpoint allOf (p : ascii → bool) (w : string) : bool :=
  match w with
  | "" => true
  | String a w' => p a && allOf p w'
  end.

(** a string of [n] decimal digits *)
Definition digitString (n : nat) (w : string) : Prop :=
  String.length w = n ∧ allOf Js.isDigit w = true.

(** the character before the cursor once [w] is read *)
Fixpoint lastChar (prev : option ascii) (w : string) : option ascii :=
  match w with
  | "" => prev
  | String a w' => lastChar (Some a) w'
  end.

(** the number of times a character occurs in a string *)
Fixpoint occurrences (a : ascii) (s : string) : nat :=
  match s with
  | "" => 0
  | String b s' => (if decide (b = a) then 1 else 0) + occurrences a s'
  end.

(** the text starts with no white space *)
Definition startsClean (s : string) : Prop :=
  match s with
  | "" => True
  | String a _ => Js.isSpace a = false
  end.

(** the validator's error on the identifier *)
Definition isInvalidHrpn (m : Message) : bool :=
  if m is InvalidHrpn _ then true else false.

(** the total rows of a page, top to bottom *)
Definition totalRowsOf (page : PageData.t) : list TotalRow.t :=
  (λ line, TotalRow.mk (TextLine.text line) (PageData.pageNum page)
                       (extractNumbers (TextLine.text line)))
    <$> filter (λ line, RegExp.test totalPattern (Js.trim (TextLine.text line)) = true)
               (PageData.lines page).

(** the designation is empty or starts with a designation of the
    catalogue, up to the case of the letters *)
Definition catalogueDesignation (designation : string) : Prop :=
  designation = ""
  ∨ ∃ d, d ∈ DESIGNATIONS
         ∧ Js.startsWith (Js.toLowerCase designation) (Js.toLowerCase d) = true.

(** the key under which [normalizeFields] stores the value of a header *)
Definition keyOf (header : string) : string := (normalizeHeader header).1.

(** The key under which [parseSinglePDF] stores the column of a catalogue
    label: the label is normalised, and [normalizeFields] normalises the
    canonical name again. *)
Definition storedKey (label : string) : string := keyOf (keyOf label).

(** the keys that the columns of a bill of the given type can get *)
Definition storedKeys (pdfType : PdfType) : list string :=
  (λ detector, storedKey (Detector.label detector)) <$> detectorsFor pdfType.

(** the records of the identifier [h] *)
Definition recordsOf (h : string) (recs : list ParsedRecord.t) : list ParsedRecord.t :=
  filter (λ rec, ParsedRecord.hrpn rec = h) recs.

(** the fields of a deduction record that go to the deduction map *)
Definition strippedFields (rec : ParsedRecord.t) : gmap string Q :=
  delete "netPay" (delete "totalDed" (ParsedRecord.fields rec)).

(** The record of the identifier [h], given its earning records [es] and
    its deduction records [ds] in the order of the input: the name and
    the designation are a longest one, a later record wins on a field. *)
Definition mergedRecord (h : string) (es ds : list ParsedRecord.t) : PayrollRecord.t :=
  PayrollRecord.mk h
    (foldl longerName "" (ParsedRecord.name <$> es ++ ds))
    (foldl longerDesignation "" (ParsedRecord.designation <$> es ++ ds))
    (foldl spread ∅ (ParsedRecord.fields <$> es))
    (foldl spread ∅ (strippedFields <$> ds))
    (foldl (λ g rec, from_option id g (truthyField (ParsedRecord.fields rec) "gross"))
           0%Q es)
    (foldl (λ t rec, from_option id t (ParsedRecord.fields rec !! "totalDed")) 0%Q ds)
    (foldl (λ n rec, from_option id n (ParsedRecord.fields rec !! "netPay")) 0%Q ds).

(** A record as the parse of a bill of the given type makes it: the
    identifier has eight digits, and the keys of the fields are keys that
    the columns of such a bill can get. *)
Definition recordOk (pdfType : PdfType) (rec : ParsedRecord.t) : Prop :=
  digitString 8 (ParsedRecord.hrpn rec)
  ∧ dom (ParsedRecord.fields rec) ⊆ list_to_set (storedKeys pdfType).

(** the files of a batch that are parsed without an error *)
Definition parses (file : SourceFile.t) : bool :=
  match (parseSinglePDF (SourceFile.name file) (SourceFile.buffer file)).2 with
  | Return _ => true
  | Throw _ => false
  end.

(** the first value of a list that is neither [null] nor empty, [null]
    when there is none *)
Definition firstTruthyOf (values : list (option string)) : option string :=
  head (filter (λ v, truthy v = true) values) ≫= id.

(** * Properties *)

(** ** Strings *)

Lemma string_app_nil_l (s : string) : "" +:+ s = s.
Proof. reflexivity. Qed.

Lemma string_app_cons (a : ascii) (s t : string) : String a s +:+ t = String a (s +:+ t).
Proof. reflexivity. Qed.

Lemma string_app_nil_r (s : string) : s +:+ "" = s.
Proof. induction s as [|a s IH]; [done|]. by rewrite string_app_cons, IH. Qed.

Lemma string_app_assoc (s t u : string) : (s +:+ t) +:+ u = s +:+ t +:+ u.
Proof. induction s as [|a s IH]; [done|]. by rewrite !string_app_cons, IH. Qed.

Lemma string_app_length (s t : string) :
  String.length (s +:+ t) = String.length s + String.length t.
Proof. induction s as [|a s IH]; [done|]. rewrite string_app_cons. simpl. by rewrite IH. Qed.

Lemma toLowerCase_app (s t : string) :
  Js.toLowerCase (s +:+ t) = Js.toLowerCase s +:+ Js.toLowerCase t.
Proof.
  induction s as [|a s IH]; [done|].
  rewrite string_app_cons. simpl. by rewrite IH, string_app_cons.
Qed.

Lemma toLowerCase_length (s : string) :
  String.length (Js.toLowerCase s) = String.length s.
Proof. induction s as [|a s IH]; simpl; congruence. Qed.

Lemma startsWith_spec (s p : string) :
  Js.startsWith s p = true ↔ ∃ post, s = p +:+ post.
Proof.
  revert s. induction p as [|a p IH]; intros s.
  - split; [exists s; done | by destruct s].
  - destruct s as [|b s]; simpl.
    + split; [done | intros [post Hpost]; by rewrite string_app_cons in Hpost].
    + rewrite andb_true_iff, bool_decide_eq_true, IH. split.
      * intros [-> [post ->]]. by exists post.
      * intros [post Hpost]. rewrite string_app_cons in Hpost. simplify_eq. eauto.
Qed.

Lemma includes_spec (s needle : string) :
  Js.includes s needle = true ↔ ∃ pre post, s = pre +:+ needle +:+ post.
Proof.
  induction s as [|a s IH].
  - cbn [Js.includes]. rewrite orb_false_r, startsWith_spec. split.
    + intros [post ->]. by exists "", post.
    + intros [[|b pre] [post Hs]]; [eauto | by rewrite string_app_cons in Hs].
  - cbn [Js.includes]. rewrite orb_true_iff, startsWith_spec, IH. split.
    + intros [[post ->] | (pre & post & ->)].
      * by exists "", post.
      * by exists (String a pre), post.
    + intros [[|b pre] [post Hs]].
      * left. by exists post.
      * right. rewrite string_app_cons in Hs. simplify_eq. eauto.
Qed.

Lemma toLowerCase_split (s l1 l2 : string) :
  Js.toLowerCase s = l1 +:+ l2 →
  ∃ s1 s2, s = s1 +:+ s2 ∧ Js.toLowerCase s1 = l1 ∧ Js.toLowerCase s2 = l2.
Proof.
  revert s. induction l1 as [|a l1 IH]; intros s Hs.
  - by exists "", s.
  - destruct s as [|b s]; [done|]. rewrite string_app_cons in Hs. simpl in Hs.
    simplify_eq. destruct (IH s) as (s1 & s2 & -> & <- & <-); [done|].
    by exists (String b s1), s2.
Qed.

(** [text.toLowerCase().includes(marker)] decides whether the text contains
    the marker up to case. *)
Lemma includes_toLowerCase (text marker : string) :
  Js.includes (Js.toLowerCase text) marker = true ↔ containsIgnoringCase text marker.
Proof.
  rewrite includes_spec. split.
  - intros (pre & post & Hs).
    apply toLowerCase_split in Hs as (s1 & s23 & -> & _ & Hs).
    apply toLowerCase_split in Hs as (s2 & s3 & -> & ? & _).
    by exists s1, s2, s3.
  - intros (pre & mid & post & -> & <-).
    exists (Js.toLowerCase pre), (Js.toLowerCase post).
    by rewrite !toLowerCase_app.
Qed.

(** ** Type detection and the isolation of a document that fails *)

Lemma detectType_earning (rawText : string) :
  Js.includes (Js.toLowerCase rawText) "earning side" = true →
  ∃ meta, detectType rawText = Return meta ∧ PdfMeta.type meta = earning.
Proof. intros H. unfold detectType. rewrite H. eauto. Qed.

Lemma detectType_throws (rawText : string) :
  Js.includes (Js.toLowerCase rawText) "earning side" = false →
  Js.includes (Js.toLowerCase rawText) "deduction side" = false →
  detectType rawText = Throw cannotDetectMessage.
Proof. intros H1 H2. unfold detectType. by rewrite H1, H2. Qed.

Lemma not_containsIgnoringCase (text marker : string) :
  ¬ containsIgnoringCase text marker →
  Js.includes (Js.toLowerCase text) marker = false.
Proof.
  intros H. apply not_true_is_false. by rewrite includes_toLowerCase.
Qed.

Lemma parseSinglePDF_undetectable (fileName : string) (doc : PdfDocument) :
  undetectable doc →
  parseSinglePDF fileName (Return doc) =
    ([("Extracting", "Reading text from " +:+ fileName +:+ "...");
      ("Detecting", "Detecting PDF type for " +:+ fileName +:+ "...")],
     Throw cannotDetectMessage).
Proof.
  intros [H1 H2]. unfold parseSinglePDF.
  by rewrite detectType_throws by by apply not_containsIgnoringCase.
Qed.

Lemma processFiles_app (b : Batch.t) (files1 files2 : list SourceFile.t) :
  processFiles b (files1 ++ files2) =
    let first := processFiles b files1 in
    let second := processFiles first.1 files2 in
    (second.1, first.2 ++ second.2).
Proof.
  revert b. induction files1 as [|file files1 IH]; intros b; simpl.
  - by destruct (processFiles b files2).
  - rewrite IH. simpl. by rewrite (assoc_L (++)).
Qed.

Lemma processFile_undetectable (b : Batch.t) (file : SourceFile.t) (doc : PdfDocument) :
  SourceFile.buffer file = Return doc → undetectable doc →
  processFile b file =
    (b, [("Processing", "Processing " +:+ SourceFile.name file +:+ "...");
         ("Extracting", "Reading text from " +:+ SourceFile.name file +:+ "...");
         ("Detecting", "Detecting PDF type for " +:+ SourceFile.name file +:+ "...");
         ("Error", "Failed to parse " +:+ SourceFile.name file +:+ ": "
                    +:+ cannotDetectMessage)]).
Proof.
  intros Hbuf Hdoc. unfold processFile.
  by rewrite Hbuf, parseSinglePDF_undetectable.
Qed.

(** C10: a text that contains the earning-side marker, in any case of its
    letters, is classified as an earning document, whatever else it
    contains: in particular also when the deduction-side marker is present
    as well, so that two markers never make the classification fail. *)
Theorem detectType_earning_marker_wins (rawText : string) :
  containsIgnoringCase rawText "earning side" →
  ∃ meta, detectType rawText = Return meta ∧ PdfMeta.type meta = earning.
Proof. intros H. by apply detectType_earning, includes_toLowerCase. Qed.

Lemma detectType_earning_marker_wins_witness :
  containsIgnoringCase "Deduction Side and EARNING Side" "deduction side" ∧
  ∃ meta, detectType "Deduction Side and EARNING Side" = Return meta
          ∧ PdfMeta.type meta = earning.
Proof.
  split.
  - by exists "", "Deduction Side", " and EARNING Side".
  - apply (detectType_earning_marker_wins "Deduction Side and EARNING Side").
    by exists "Deduction Side and ", "EARNING Side", "".
Defined.

(** C3: a document whose text contains neither marker makes the
    classification throw; the loop over the files catches the error,
    reports it through the progress callback and goes on: the result of
    the batch is the one of the batch without that document, and every
    progress call of the other documents is still made, in order. *)
Theorem undetectable_document_is_isolated (now : string)
    (before after : list SourceFile.t) (file : SourceFile.t) (doc : PdfDocument) :
  SourceFile.buffer file = Return doc →
  undetectable doc →
  let whole := processPayrollFromFiles now (before ++ file :: after) in
  let others := processPayrollFromFiles now (before ++ after) in
  detectType (ExtractedText.rawText (extractText doc)) = Throw cannotDetectMessage
  ∧ (parseSinglePDF (SourceFile.name file) (SourceFile.buffer file)).2
    = Throw cannotDetectMessage
  ∧ whole.1 = others.1
  ∧ ("Error", "Failed to parse " +:+ SourceFile.name file +:+ ": "
               +:+ cannotDetectMessage) ∈ whole.2
  ∧ others.2 `sublist_of` whole.2.
Proof.
  intros Hbuf Hdoc whole others.
  split; [destruct Hdoc; by apply detectType_throws; apply not_containsIgnoringCase|].
  split; [by rewrite Hbuf, parseSinglePDF_undetectable|].
  subst whole others. unfold processPayrollFromFiles.
  rewrite !processFiles_app. cbn [processFiles].
  rewrite (processFile_undetectable _ _ doc) by done. cbn [fst snd].
  destruct (processFiles emptyBatch before) as [b1 log1]. cbn [fst snd].
  destruct (processFiles b1 after) as [b2 log2]. cbn [fst snd].
  split; [done|]. split.
  - rewrite !elem_of_app. left. right. left. set_solver.
  - rewrite <-!(assoc_L (++)). apply sublist_app; [done|].
    apply sublist_inserts_l. by apply sublist_app.
Qed.

Lemma undetectable_document_is_isolated_witness :
  let whole :=
    processPayrollFromFiles "2026-02-01T00:00:00.000Z"
      [sampleEarningFile; sampleLetterFile; sampleDeductionFile] in
  let others :=
    processPayrollFromFiles "2026-02-01T00:00:00.000Z"
      [sampleEarningFile; sampleDeductionFile] in
  undetectable [sampleLetterPage]
  ∧ whole.1 = others.1
  ∧ ("Error", "Failed to parse letter.pdf: " +:+ cannotDetectMessage) ∈ whole.2
  ∧ others.2 `sublist_of` whole.2.
Proof.
  assert (undetectable [sampleLetterPage]) as Hdoc.
  { split; rewrite <-includes_toLowerCase; by vm_compute. }
  split; [exact Hdoc|].
  apply (undetectable_document_is_isolated "2026-02-01T00:00:00.000Z"
           [sampleEarningFile] [sampleDeductionFile] sampleLetterFile
           [sampleLetterPage] eq_refl Hdoc).
Defined.

(** ** Validation *)




Lemma hrpnErrors_not_arithmetic (record : PayrollRecord.t) :
  filter (λ m, isArithmeticError m = true) (hrpnErrors record) = [].
Proof. unfold hrpnErrors. by case_match. Qed.

Lemma arithmeticErrors_eq (record : PayrollRecord.t) :
  filter (λ m, isArithmeticError m = true)
         (RecordValidation.errors (validateRecord record))
  = netPayErrors record.
Proof.
  cbn [validateRecord RecordValidation.errors].
  rewrite filter_app, hrpnErrors_not_arithmetic, (right_id_L [] (++)).
  unfold netPayErrors. repeat case_match; done.
Qed.




Lemma errors_withoutEarning (record : PayrollRecord.t) :
  RecordValidation.errors (validateRecord (withoutEarning record))
  = RecordValidation.errors (validateRecord record).
Proof. reflexivity. Qed.






(** ** Sorting *)

Section SortFacts.
Context {A : Type} (cmp : A → A → Z).

Lemma insertSorted_Permutation (a : A) (l : list A) :
  insertSorted cmp a l ≡ₚ a :: l.
Proof.
  induction l as [|b l IH]; [done|]. simpl. case_match; [done|].
  rewrite IH. apply Permutation_swap.
Qed.

Lemma sortBy_Permutation (l : list A) : sortBy cmp l ≡ₚ l.
Proof.
  induction l as [|a l IH]; [done|].
  cbn [sortBy foldr]. fold (sortBy cmp l).
  by rewrite insertSorted_Permutation, IH.
Qed.

Lemma sortBy_length (l : list A) : length (sortBy cmp l) = length l.
Proof. by rewrite sortBy_Permutation. Qed.

Lemma sortBy_filter_singleton (P : A → Prop) `{!∀ x, Decision (P x)}
    (l : list A) (a : A) :
  filter P l = [a] → filter P (sortBy cmp l) = [a].
Proof.
  intros Hf. apply Permutation_singleton_r. by rewrite sortBy_Permutation, Hf.
Qed.

Context (cmp_total : ∀ a b, notAfter cmp a b ∨ notAfter cmp b a).
Context (cmp_trans : ∀ a b c, notAfter cmp a b → notAfter cmp b c → notAfter cmp a c).

Lemma insertSorted_sorted (a : A) (l : list A) :
  StronglySorted (notAfter cmp) l →
  StronglySorted (notAfter cmp) (insertSorted cmp a l).
Proof.
  induction 1 as [|b l Hl IH Hb]; simpl.
  - repeat constructor.
  - destruct (Z.leb_spec (cmp a b) 0) as [Hab | Hab].
    + constructor; [by constructor|]. constructor; [done|].
      eapply Forall_impl; [exact Hb|]. intros c Hbc. by eapply cmp_trans.
    + constructor; [done|]. rewrite insertSorted_Permutation.
      constructor; [|done]. destruct (cmp_total a b) as [H|H]; [|done].
      unfold notAfter in H. lia.
Qed.

Lemma sortBy_sorted (l : list A) : StronglySorted (notAfter cmp) (sortBy cmp l).
Proof.
  induction l as [|a l IH]; [constructor|].
  cbn [sortBy foldr]. by apply insertSorted_sorted.
Qed.
End SortFacts.

Lemma localeCompare_notAfter (a b : string) :
  (localeCompare a b ≤ 0)%Z ↔ (a ≤ b)%string.
Proof.
  unfold localeCompare, String.le, String.leb.
  destruct (String.compare a b); simpl; intuition lia.
Qed.

(** ** The merge by HRPN *)

Section JsMapFacts.
Context {V : Type}.
Implicit Types (m : list (string * V)) (k : string) (v : V).

Lemma JsMap_get_set_eq m k v : JsMap.get (JsMap.set m k v) k = Some v.
Proof.
  induction m as [|[k' v'] m IH]; simpl.
  - by rewrite decide_True.
  - case_decide; simpl; [by rewrite decide_True | by rewrite decide_False].
Qed.

Lemma JsMap_get_set_ne m k k' v :
  k ≠ k' → JsMap.get (JsMap.set m k v) k' = JsMap.get m k'.
Proof.
  intros Hne. induction m as [|[k'' v''] m IH]; simpl.
  - by rewrite decide_False.
  - case_decide; simplify_eq; simpl.
    + by rewrite !decide_False.
    + case_decide; [done | apply IH].
Qed.

Lemma JsMap_get_None m k : JsMap.get m k = None ↔ k ∉ m.*1.
Proof.
  induction m as [|[k' v'] m IH]; cbn [JsMap.get].
  - split; [intros _; apply not_elem_of_nil | done].
  - rewrite fmap_cons, not_elem_of_cons. cbn [fst].
    case_decide; simplify_eq; [|rewrite IH]; intuition congruence.
Qed.

Lemma JsMap_keys_set m k v :
  (JsMap.set m k v).*1 =
    match JsMap.get m k with Some _ => m.*1 | None => m.*1 ++ [k] end.
Proof.
  induction m as [|[k' v'] m IH]; cbn [JsMap.get JsMap.set]; [done|].
  case_decide; simplify_eq; rewrite !fmap_cons; [done|].
  rewrite IH. by destruct (JsMap.get m k).
Qed.

Lemma JsMap_NoDup_set m k v : NoDup m.*1 → NoDup (JsMap.set m k v).*1.
Proof.
  intros Hm. rewrite JsMap_keys_set.
  destruct (JsMap.get m k) eqn:Hget; [done|].
  apply NoDup_app. split; [done|]. split; [|apply NoDup_singleton].
  intros k' Hk' ->%list_elem_of_singleton. by apply JsMap_get_None in Hget.
Qed.

Lemma JsMap_elem_of_set m k v (kv : string * V) :
  kv ∈ JsMap.set m k v → kv = (k, v) ∨ kv ∈ m.
Proof.
  induction m as [|[k' v'] m IH]; simpl.
  - rewrite list_elem_of_singleton. auto.
  - case_decide; rewrite !elem_of_cons; intuition.
Qed.

(** the values under a key that their own key field repeats *)
Lemma JsMap_filter_values (key : V → string) m k :
  NoDup m.*1 → Forall (λ kv, key kv.2 = kv.1) m →
  filter (λ v, key v = k) (JsMap.values m) = option_list (JsMap.get m k).
Proof.
  unfold JsMap.values.
  induction m as [|[k' v'] m IH]; [done|].
  rewrite !fmap_cons, NoDup_cons, Forall_cons. cbn [fst snd JsMap.get].
  intros [Hk' Hm] [Hv' Hall]. rewrite filter_cons, Hv'.
  case_decide; simplify_eq.
  - rewrite IH by done. apply JsMap_get_None in Hk'. by rewrite Hk'.
  - by apply IH.
Qed.
End JsMapFacts.

Section MergeFacts.
Context (update : ParsedRecord.t → PayrollRecord.t → PayrollRecord.t).
Context (update_hrpn : ∀ rec entry,
           PayrollRecord.hrpn (update rec entry) = PayrollRecord.hrpn entry).
Implicit Types (m : list (string * PayrollRecord.t)) (rec : ParsedRecord.t).

Lemma get_mergeInto m rec k :
  JsMap.get (mergeInto update m rec) k =
    if decide (ParsedRecord.hrpn rec = k)
    then mergedEntry update (JsMap.get m k) rec
    else JsMap.get m k.
Proof.
  unfold mergeInto, JsMap.has, mergedEntry.
  destruct (JsMap.get m (ParsedRecord.hrpn rec)) as [entry|] eqn:Hget.
  - rewrite bool_decide_eq_true_2 by eauto. rewrite Hget.
    case_decide; simplify_eq.
    + by rewrite JsMap_get_set_eq, Hget.
    + by rewrite JsMap_get_set_ne.
  - rewrite bool_decide_eq_false_2 by (by intros [??]).
    rewrite JsMap_get_set_eq.
    case_decide; simplify_eq.
    + by rewrite JsMap_get_set_eq, Hget.
    + by rewrite !JsMap_get_set_ne.
Qed.

Lemma mergeInto_ok m rec : payrollMapOk m → payrollMapOk (mergeInto update m rec).
Proof.
  intros [Hnodup Hkeys].
  assert (∀ m' k v, payrollMapOk m' → PayrollRecord.hrpn v = k →
                    payrollMapOk (JsMap.set m' k v)) as Hset.
  { intros m' k v [Hnd Hall] Hv. split; [by apply JsMap_NoDup_set|].
    apply Forall_forall. intros kv [->|Hin]%JsMap_elem_of_set; [done|].
    rewrite Forall_forall in Hall. by apply Hall. }
  unfold mergeInto, JsMap.has.
  destruct (JsMap.get m (ParsedRecord.hrpn rec)) as [entry|] eqn:Hget.
  - rewrite bool_decide_eq_true_2 by eauto. rewrite Hget.
    apply Hset; [done|]. rewrite update_hrpn.
    clear -Hget Hkeys. induction m as [|[k' v'] m IH]; [done|].
    apply Forall_cons in Hkeys as [Hk Hkeys]. cbn [JsMap.get] in Hget.
    case_decide; simplify_eq; [done | by apply IH].
  - rewrite bool_decide_eq_false_2 by (by intros [??]).
    rewrite JsMap_get_set_eq.
    apply Hset; [by apply Hset|]. by rewrite update_hrpn.
Qed.

Lemma foldl_mergeInto_ok m (recs : list ParsedRecord.t) :
  payrollMapOk m → payrollMapOk (foldl (mergeInto update) m recs).
Proof.
  revert m. induction recs as [|rec recs IH]; intros m Hm; [done|].
  apply IH. by apply mergeInto_ok.
Qed.

Lemma get_foldl_mergeInto m (recs : list ParsedRecord.t) k :
  JsMap.get (foldl (mergeInto update) m recs) k =
    foldl (mergedEntry update) (JsMap.get m k)
          (filter (λ rec, ParsedRecord.hrpn rec = k) recs).
Proof.
  revert m. induction recs as [|rec recs IH]; intros m; [done|].
  cbn [foldl]. rewrite IH, get_mergeInto, filter_cons.
  by case_decide.
Qed.
End MergeFacts.

Lemma mergeEarning_hrpn rec entry :
  PayrollRecord.hrpn (mergeEarning rec entry) = PayrollRecord.hrpn entry.
Proof. done. Qed.

Lemma mergeDeduction_hrpn rec entry :
  PayrollRecord.hrpn (mergeDeduction rec entry) = PayrollRecord.hrpn entry.
Proof. done. Qed.

Lemma payrollMapOk_nil : payrollMapOk [].
Proof. split; [constructor | constructor]. Qed.

Lemma StronglySorted_weaken {A : Type} (R1 R2 : relation A) (l : list A) :
  (∀ a b, R1 a b → R2 a b) → StronglySorted R1 l → StronglySorted R2 l.
Proof.
  intros HR. induction 1 as [|a l Hl IH Ha]; constructor; [done|].
  eapply Forall_impl; [exact Ha | auto].
Qed.

(** the output of the merge: one record per identifier, ascending *)
Lemma mergePayroll_sorted (earningRecords deductionRecords : list ParsedRecord.t) :
  StronglySorted (λ a b, (PayrollRecord.hrpn a ≤ PayrollRecord.hrpn b)%string)
                 (mergePayroll earningRecords deductionRecords).
Proof.
  unfold mergePayroll.
  eapply StronglySorted_weaken; [|apply sortBy_sorted].
  - intros a b. unfold notAfter. apply localeCompare_notAfter.
  - intros a b. unfold notAfter. rewrite !localeCompare_notAfter. apply total, _.
  - intros a b c. unfold notAfter. rewrite !localeCompare_notAfter. apply transitivity.
Qed.

Lemma mergePayroll_NoDup (earningRecords deductionRecords : list ParsedRecord.t) :
  NoDup (PayrollRecord.hrpn <$> mergePayroll earningRecords deductionRecords).
Proof.
  unfold mergePayroll. rewrite sortBy_Permutation.
  set (m := foldl (mergeInto mergeDeduction) _ _).
  assert (payrollMapOk m) as [Hnodup Hkeys].
  { do 2 (apply foldl_mergeInto_ok; [done|]). apply payrollMapOk_nil. }
  unfold JsMap.values. 
  assert (PayrollRecord.hrpn <$> m.*2 = m.*1) as ->; [|done].
  clear Hnodup. induction Hkeys as [|[k v] m' Hk Hm IH]; [done|].
  rewrite !fmap_cons. simpl in *. by rewrite IH, Hk.
Qed.

Lemma mergePayroll_filter (earningRecords deductionRecords : list ParsedRecord.t)
    (h : string) :
  filter (λ r, PayrollRecord.hrpn r = h) (mergePayroll earningRecords deductionRecords)
  ≡ₚ option_list
       (foldl (mergedEntry mergeDeduction)
          (foldl (mergedEntry mergeEarning) None
                 (filter (λ rec, ParsedRecord.hrpn rec = h) earningRecords))
          (filter (λ rec, ParsedRecord.hrpn rec = h) deductionRecords)).
Proof.
  unfold mergePayroll. rewrite sortBy_Permutation.
  set (m := foldl (mergeInto mergeDeduction) _ _).
  assert (payrollMapOk m) as [Hnodup Hkeys].
  { do 2 (apply foldl_mergeInto_ok; [done|]). apply payrollMapOk_nil. }
  rewrite (JsMap_filter_values PayrollRecord.hrpn) by done.
  subst m. by rewrite !get_foldl_mergeInto.
Qed.

(** C1: when [e] is the earning record and [d] the deduction record of
    identifier [h], with a gross of 50000 in the fields of [e], and a
    total of deductions of 5000 and a net pay of 45000 in those of [d], the
    merge has exactly one record for [h]: its gross is 50000, its totalDed
    5000 and its netPay 45000, its earning map is the fields of [e], and
    its deduction map is the fields of [d] without the keys totalDed and
    netPay.  The merged records are in ascending order of identifier, each
    identifier once. *)
Theorem merge_of_record_in_both_sets
    (earningRecords deductionRecords : list ParsedRecord.t)
    (e d : ParsedRecord.t) (h : string) (g t n : Q) :
  filter (λ rec, ParsedRecord.hrpn rec = h) earningRecords = [e] →
  filter (λ rec, ParsedRecord.hrpn rec = h) deductionRecords = [d] →
  ParsedRecord.fields e !! "gross" = Some g → (g == 50000)%Q →
  ParsedRecord.fields d !! "totalDed" = Some t → (t == 5000)%Q →
  ParsedRecord.fields d !! "netPay" = Some n → (n == 45000)%Q →
  let merged := mergePayroll earningRecords deductionRecords in
  (∃ r, filter (λ r, PayrollRecord.hrpn r = h) merged = [r]
        ∧ (PayrollRecord.gross r == 50000)%Q
        ∧ (PayrollRecord.totalDed r == 5000)%Q
        ∧ (PayrollRecord.netPay r == 45000)%Q
        ∧ PayrollRecord.earning r = ParsedRecord.fields e
        ∧ PayrollRecord.deduction r
          = delete "netPay" (delete "totalDed" (ParsedRecord.fields d)))
  ∧ StronglySorted (λ a b, (PayrollRecord.hrpn a ≤ PayrollRecord.hrpn b)%string)
                   merged
  ∧ NoDup (PayrollRecord.hrpn <$> merged).
Proof.
  intros He Hd Hg Eg Ht Et Hn En merged.
  split; [|split; [apply mergePayroll_sorted | apply mergePayroll_NoDup]].
  exists (mergeDeduction d (mergeEarning e (newEntry e))).
  split.
  { apply Permutation_singleton_r. subst merged.
    rewrite mergePayroll_filter, He, Hd. done. }
  cbn [mergeDeduction mergeEarning newEntry PayrollRecord.gross
       PayrollRecord.totalDed PayrollRecord.netPay PayrollRecord.earning
       PayrollRecord.deduction].
  assert (Qeq_bool g 0 = false) as Hg0.
  { apply not_true_is_false. intros H%Qeq_bool_iff. rewrite H in Eg. done. }
  unfold truthyField, spread. rewrite Hg, Hg0, Ht.
  rewrite lookup_delete_ne, Hn by done. cbn [from_option id].
  by rewrite !(right_id_L ∅ (∪)).
Qed.

Lemma merge_of_record_in_both_sets_witness :
  let merged :=
    mergePayroll [sampleEarningRecord; otherEarningRecord] [sampleDeductionRecord] in
  ∃ r, filter (λ r, PayrollRecord.hrpn r = "00125678") merged = [r]
       ∧ (PayrollRecord.gross r == 50000)%Q
       ∧ (PayrollRecord.totalDed r == 5000)%Q
       ∧ (PayrollRecord.netPay r == 45000)%Q
       ∧ PayrollRecord.earning r = ParsedRecord.fields sampleEarningRecord
       ∧ PayrollRecord.deduction r
         = delete "netPay" (delete "totalDed" (ParsedRecord.fields sampleDeductionRecord)).
Proof.
  exact (proj1 (merge_of_record_in_both_sets
                  [sampleEarningRecord; otherEarningRecord] [sampleDeductionRecord]
                  sampleEarningRecord sampleDeductionRecord "00125678"
                  50000 5000 45000
                  eq_refl eq_refl eq_refl (Qeq_refl _) eq_refl (Qeq_refl _)
                  eq_refl (Qeq_refl _))).
Defined.


(** ** The combination of record sets of one kind *)

Lemma foldl_foldl_join {A B : Type} (f : A → B → A) (a : A) (ls : list (list B)) :
  foldl (foldl f) a ls = foldl f a (mjoin ls).
Proof.
  revert a. induction ls as [|l ls IH]; intros a; [done|].
  cbn [foldl mjoin list_join]. by rewrite IH, foldl_app.
Qed.

Lemma findByHrpn_None (hrpn : string) (combined : list ParsedRecord.t) :
  findByHrpn hrpn combined = None ↔ hrpn ∉ ParsedRecord.hrpn <$> combined.
Proof.
  induction combined as [|r rest IH]; cbn [findByHrpn].
  - split; [intros _; apply not_elem_of_nil | done].
  - rewrite fmap_cons, not_elem_of_cons.
    case_decide; simplify_eq; [|rewrite IH]; intuition congruence.
Qed.

Lemma findByHrpn_filter (hrpn : string) (combined : list ParsedRecord.t) :
  NoDup (ParsedRecord.hrpn <$> combined) →
  filter (λ r, ParsedRecord.hrpn r = hrpn) combined
  = option_list (findByHrpn hrpn combined).
Proof.
  induction combined as [|r rest IH]; [done|].
  rewrite fmap_cons, NoDup_cons, filter_cons. cbn [findByHrpn]. intros [Hr Hrest].
  case_decide; simplify_eq.
  - apply findByHrpn_None in Hr. rewrite IH, Hr by done. done.
  - by apply IH.
Qed.

Lemma updateFound_hrpn (hrpn : string) (f : ParsedRecord.t → ParsedRecord.t)
    (combined : list ParsedRecord.t) :
  (∀ r, ParsedRecord.hrpn (f r) = ParsedRecord.hrpn r) →
  ParsedRecord.hrpn <$> updateFound hrpn f combined = ParsedRecord.hrpn <$> combined.
Proof.
  intros Hf. induction combined as [|r rest IH]; [done|].
  cbn [updateFound]. case_decide; rewrite !fmap_cons; [by rewrite Hf | by rewrite IH].
Qed.

Lemma findByHrpn_updateFound (hrpn k : string) (f : ParsedRecord.t → ParsedRecord.t)
    (combined : list ParsedRecord.t) :
  (∀ r, ParsedRecord.hrpn (f r) = ParsedRecord.hrpn r) →
  findByHrpn k (updateFound hrpn f combined)
  = if decide (hrpn = k) then f <$> findByHrpn k combined else findByHrpn k combined.
Proof.
  intros Hf. induction combined as [|r rest IH]; [by case_decide|].
  cbn [updateFound findByHrpn].
  destruct (decide (ParsedRecord.hrpn r = hrpn)) as [Hr|Hr]; cbn [findByHrpn].
  - rewrite Hf. repeat case_decide; simplify_eq; done.
  - rewrite IH. repeat case_decide; simplify_eq; done.
Qed.

Lemma findByHrpn_app (k : string) (combined : list ParsedRecord.t) (rec : ParsedRecord.t) :
  findByHrpn k (combined ++ [rec])
  = match findByHrpn k combined with
    | Some r => Some r
    | None => if decide (ParsedRecord.hrpn rec = k) then Some rec else None
    end.
Proof.
  induction combined as [|r rest IH]; [done|].
  rewrite <-app_comm_cons. cbn [findByHrpn].
  destruct (decide (ParsedRecord.hrpn r = k)); [reflexivity | exact IH].
Qed.

Lemma combineRecord_ok (st : list ParsedRecord.t * gset string) (rec : ParsedRecord.t) :
  combinedOk st → combinedOk (combineRecord st rec).
Proof.
  destruct st as [combined seen]. intros [Hnodup Hseen]. cbn [fst snd] in *.
  unfold combineRecord. case_decide as Hin; split; cbn [fst snd].
  - by rewrite updateFound_hrpn.
  - intros k. by rewrite updateFound_hrpn.
  - rewrite fmap_app. apply NoDup_app. split; [done|]. split; [|apply NoDup_singleton].
    intros k Hk ->%list_elem_of_singleton. by apply Hin, Hseen.
  - intros k. rewrite fmap_app, elem_of_app, elem_of_union, elem_of_singleton, Hseen.
    cbn. rewrite list_elem_of_singleton. tauto.
Qed.

Lemma findByHrpn_combineRecord (st : list ParsedRecord.t * gset string)
    (rec : ParsedRecord.t) (k : string) :
  combinedOk st →
  findByHrpn k (combineRecord st rec).1
  = if decide (ParsedRecord.hrpn rec = k)
    then combinedEntry (findByHrpn k st.1) rec
    else findByHrpn k st.1.
Proof.
  destruct st as [combined seen]. intros [Hnodup Hseen]. cbn [fst snd] in *.
  unfold combineRecord, combinedEntry. case_decide as Hin; cbn [fst].
  - rewrite findByHrpn_updateFound by done. case_decide; [|done]. subst k.
    destruct (findByHrpn _ combined) eqn:Hfind; [done|].
    apply findByHrpn_None in Hfind. by apply Hseen in Hin.
  - rewrite findByHrpn_app. case_decide as Hk.
    + subst k. assert (findByHrpn (ParsedRecord.hrpn rec) combined = None) as ->; [|done].
      apply findByHrpn_None. by rewrite <-Hseen.
    + by destruct (findByHrpn k combined).
Qed.

Lemma foldl_combineRecord (st : list ParsedRecord.t * gset string)
    (recs : list ParsedRecord.t) (k : string) :
  combinedOk st →
  combinedOk (foldl combineRecord st recs)
  ∧ findByHrpn k (foldl combineRecord st recs).1
    = foldl combinedEntry (findByHrpn k st.1)
            (filter (λ rec, ParsedRecord.hrpn rec = k) recs).
Proof.
  revert st. induction recs as [|rec recs IH]; intros st Hst; [done|].
  cbn [foldl]. destruct (IH (combineRecord st rec)) as [Hok Hfind].
  { by apply combineRecord_ok. }
  split; [done|]. rewrite Hfind, findByHrpn_combineRecord, filter_cons by done.
  by case_decide.
Qed.

(** The combined records: each identifier once, and under each identifier
    the records of that identifier absorbed in order. *)
Lemma combineRecordSets_filter (recordSets : list (list ParsedRecord.t)) (k : string) :
  NoDup (ParsedRecord.hrpn <$> combineRecordSets recordSets)
  ∧ filter (λ r, ParsedRecord.hrpn r = k) (combineRecordSets recordSets)
    = option_list
        (foldl combinedEntry None
               (filter (λ rec, ParsedRecord.hrpn rec = k) (mjoin recordSets))).
Proof.
  unfold combineRecordSets. rewrite foldl_foldl_join.
  destruct (foldl_combineRecord ([], ∅) (mjoin recordSets) k) as [[Hnodup _] Hfind].
  { split; [constructor|]. intros h. cbn. set_solver. }
  split; [done|]. by rewrite findByHrpn_filter, Hfind.
Qed.

Lemma foldl_combinedEntry (first : ParsedRecord.t) (rest : list ParsedRecord.t) :
  foldl combinedEntry None (first :: rest)
  = Some (foldl (λ existing rec, absorb rec existing) first rest).
Proof.
  cbn [foldl combinedEntry from_option]. generalize first. clear first.
  induction rest as [|rec rest IH]; intros first; [done|].
  cbn [foldl]. by rewrite <-IH.
Qed.

(** What [combineRecordSets] makes of the records of one identifier: one
    record, with the union of the fields (a later record wins on a shared
    key) and a name that is as long as the longest; the designation is the
    one of the first record. *)
Lemma combineRecordSets_entry (recordSets : list (list ParsedRecord.t)) (k : string)
    (first : ParsedRecord.t) (rest : list ParsedRecord.t) :
  filter (λ rec, ParsedRecord.hrpn rec = k) (mjoin recordSets) = first :: rest →
  ∃ r,
    filter (λ r, ParsedRecord.hrpn r = k) (combineRecordSets recordSets) = [r]
    ∧ ParsedRecord.fields r
      = foldl spread (ParsedRecord.fields first) (ParsedRecord.fields <$> rest)
    ∧ ParsedRecord.name r ∈ ParsedRecord.name <$> first :: rest
    ∧ Forall (λ rec, String.length (ParsedRecord.name rec)
                     ≤ String.length (ParsedRecord.name r)) (first :: rest)
    ∧ ParsedRecord.designation r = ParsedRecord.designation first.
Proof.
  intros Hk. destruct (combineRecordSets_filter recordSets k) as [_ Hfilter].
  rewrite Hk, foldl_combinedEntry in Hfilter.
  eexists. split; [exact Hfilter|]. clear.
  revert first. induction rest as [|rec rest IH]; intros first.
  - cbn. repeat split; [by left | by constructor].
  - cbn [foldl]. destruct (IH (absorb rec first)) as (Hfields & Hname & Hlen & Hdes).
    split; [done|]. split; [|split; [|done]].
    + rewrite fmap_cons, elem_of_cons in Hname.
      rewrite fmap_cons, elem_of_cons, fmap_cons, elem_of_cons.
      cbn [absorb ParsedRecord.name] in Hname. unfold longerName in Hname.
      case_decide; tauto.
    + apply Forall_cons in Hlen as [Hfirst Hlen].
      cbn [absorb ParsedRecord.name] in Hfirst. unfold longerName in Hfirst.
      repeat constructor; [case_decide; lia.. | done].
Qed.

(** The merge step of a batch, as [processPayrollFromFiles] runs it: when
    the record sets of the batch hold one earning record [e] and one
    deduction record [d] of an identifier, the merged records hold one
    record of that identifier, made of [e] and [d]. *)
Lemma mergeStep_of_record_in_both_sets
    (earningSets deductionSets : list (list ParsedRecord.t))
    (e d : ParsedRecord.t) (h : string) :
  filter (λ rec, ParsedRecord.hrpn rec = h) (mjoin earningSets) = [e] →
  filter (λ rec, ParsedRecord.hrpn rec = h) (mjoin deductionSets) = [d] →
  filter (λ r, PayrollRecord.hrpn r = h)
         (mergePayroll (combineRecordSets earningSets)
                       (combineRecordSets deductionSets))
  = [mergeDeduction d (mergeEarning e (newEntry e))].
Proof.
  intros He Hd. apply Permutation_singleton_r.
  rewrite mergePayroll_filter.
  rewrite (proj2 (combineRecordSets_filter earningSets h)), He.
  rewrite (proj2 (combineRecordSets_filter deductionSets h)), Hd.
  done.
Qed.

(** C6, at an input on which it fails: two earning sets hold a record of
    the same identifier, the second one with the longer designation.  The
    combined record unions the fields and takes the longer name, but keeps
    the designation of the first record; [mergePayroll], on the same two
    records, takes the longer designation. *)
Example combineRecordSets_keeps_first_designation :
  let combined := combineRecordSets [[sampleEarningRecord]; [laterEarningRecord]] in
  combined =
    [ParsedRecord.mk "00125678" "Ajay Kumar Ambaliya" "Nurse"
       {["basic" := 40000%Q; "da" := 10000%Q; "gross" := 50000%Q; "hra" := 2000%Q]}
       [40000%Q; 10000%Q; 50000%Q]]
  ∧ PayrollRecord.designation
      <$> mergePayroll [sampleEarningRecord; laterEarningRecord] []
    = ["Staff Nurse"].
Proof. split; by vm_compute. Qed.

(** ** Line reconstruction *)

Lemma bind_ext_Permutation {A B : Type} (f g : A → list B) (l : list A) :
  (∀ a, a ∈ l → f a ≡ₚ g a) → l ≫= f ≡ₚ l ≫= g.
Proof.
  induction l as [|a l IH]; intros H; [done|].
  rewrite !bind_cons. rewrite (H a) by left. rewrite IH; [done|].
  intros b Hb. apply H. by right.
Qed.

Lemma reflatten_extractLines (items : list ContentItem) :
  reflatten (extractLines items) ≡ₚ lineMapTokens (buildLineMap items).
Proof.
  unfold reflatten, extractLines, lineMapTokens.
  set (m := buildLineMap items). clearbody m.
  rewrite list_fmap_bind.
  rewrite sortBy_Permutation.
  rewrite list_fmap_bind.
  apply bind_ext_Permutation. intros [y its] Hin%elem_of_map_to_list.
  unfold compose, lineOf. cbn [fst snd TextLine.y TextLine.items].
  rewrite Hin. cbn [from_option id]. by rewrite sortBy_Permutation.
Qed.

Lemma lineMapTokens_insert (m : gmap Z (list TextItem.t)) (y : Z) (item : TextItem.t) :
  lineMapTokens (<[y := from_option id [] (m !! y) ++ [item]]> m)
  ≡ₚ lineMapTokens m ++ [tokenAt y item].
Proof.
  unfold lineMapTokens. destruct (m !! y) as [old|] eqn:Hy; cbn [from_option id].
  - rewrite <-insert_delete_eq.
    rewrite map_to_list_insert by apply lookup_delete_eq.
    rewrite <-(map_to_list_delete m y old) by done.
    rewrite !bind_cons. cbn [fst snd]. rewrite fmap_app. cbn [fmap list_fmap].
    rewrite <-!(assoc_L (++)). f_equiv. apply Permutation_app_comm.
  - rewrite map_to_list_insert by done. rewrite bind_cons. cbn [fst snd].
    cbn. apply Permutation_cons_append.
Qed.

Lemma lineMapTokens_addToLineMap (m : gmap Z (list TextItem.t)) (item : ContentItem) :
  lineMapTokens (addToLineMap m item)
  ≡ₚ lineMapTokens m
     ++ filter (λ t, PositionedToken.text t ≠ "") (pageTokens [item]).
Proof.
  destruct item as [str tx ty width|]; cbn [addToLineMap pageTokens omap list_omap positioned].
  - rewrite filter_cons, filter_nil. cbn [PositionedToken.text].
    case_bool_decide as Hblank.
    + rewrite decide_False by (by intros ?). by rewrite (right_id_L [] (++)).
    + rewrite decide_True by done. apply lineMapTokens_insert.
  - by rewrite filter_nil, (right_id_L [] (++)).
Qed.

Lemma lineMapTokens_foldl (m : gmap Z (list TextItem.t)) (items : list ContentItem) :
  lineMapTokens (foldl addToLineMap m items)
  ≡ₚ lineMapTokens m ++ filter (λ t, PositionedToken.text t ≠ "") (pageTokens items).
Proof.
  revert m. induction items as [|item items IH]; intros m.
  - cbn [foldl pageTokens omap list_omap]. by rewrite filter_nil, (right_id_L [] (++)).
  - cbn [foldl]. rewrite IH, lineMapTokens_addToLineMap.
    rewrite <-(assoc_L (++)). f_equiv.
    change (item :: items) with ([item] ++ items).
    unfold pageTokens. by rewrite omap_app, filter_app.
Qed.

(** C4, amended: the tokens of the reconstructed lines of a page are, up to
    order, the tokens of the page whose trimmed text is not empty: none of
    these is lost, none is duplicated.  Blank text runs and marked-content
    items are left out. *)
Theorem reflatten_keeps_nonblank_tokens (items : list ContentItem) :
  reflatten (extractLines items)
  ≡ₚ filter (λ t, PositionedToken.text t ≠ "") (pageTokens items).
Proof.
  rewrite reflatten_extractLines. unfold buildLineMap.
  rewrite lineMapTokens_foldl. unfold lineMapTokens.
  by rewrite map_to_list_empty.
Qed.

(** C4 as stated fails where a text run is blank: the page has two tokens,
    the reconstructed lines hold one. *)
Lemma blank_token_is_lost :
  pageTokens blankPage
    = [PositionedToken.mk 10 700 "" 10; PositionedToken.mk 40 700 "Basic" 10]
  ∧ reflatten (extractLines blankPage) = [PositionedToken.mk 40 700 "Basic" 10].
Proof. split; by vm_compute. Qed.

(** ** Row segmentation *)

Section OrderedPairs.
Context {A : Type} (R : A → A → Prop).

Lemma ForallOrdPairs_app (l1 l2 : list A) :
  ForallOrdPairs R l1 → ForallOrdPairs R l2 →
  (∀ x y, x ∈ l1 → y ∈ l2 → R x y) →
  ForallOrdPairs R (l1 ++ l2).
Proof.
  intros H1 H2 H12. induction H1 as [|a l1 Ha H1 IH]; [done|].
  rewrite <-app_comm_cons. constructor.
  - rewrite Forall_app. split; [done|].
    apply Forall_forall. intros y Hy. apply H12; [left | done].
  - apply IH. intros x y Hx Hy. apply H12; [by right | done].
Qed.

Lemma ForallOrdPairs_lookup (l : list A) (i j : nat) (x y : A) :
  ForallOrdPairs R l → i < j → l !! i = Some x → l !! j = Some y → R x y.
Proof.
  intros Hl. revert i j. induction Hl as [|a l Ha Hl IH]; intros i j Hij Hi Hj.
  - done.
  - destruct j as [|j]; [lia|]. destruct i as [|i]; simplify_eq/=.
    + rewrite Forall_forall in Ha. apply Ha. by eapply list_elem_of_lookup_2.
    + apply (IH i j); [lia | done..].
Qed.

(** the elements a partial function keeps, in the order of their
    position *)
Lemma ForallOrdPairs_omap_imap {B : Type} (g : nat → B → option A) (l : list B) :
  (∀ d d' a a' b b',
     d < d' → l !! d = Some a → l !! d' = Some a' →
     g d a = Some b → g d' a' = Some b' → R b b') →
  ForallOrdPairs R (omap id (imap g l)).
Proof.
  revert g. induction l as [|a l IH]; intros g Hg; [constructor|].
  cbn [imap omap list_omap].
  assert (ForallOrdPairs R (omap id (imap (g ∘ S) l))) as Hrest.
  { apply IH. intros d d' x x' b b' Hd Hx Hx' Hb Hb'.
    apply (Hg (S d) (S d') x x' b b'); [lia | done..]. }
  destruct (g 0 a) as [b|] eqn:Hb; cbn [id]; [|done].
  constructor; [|done].
  apply Forall_forall. intros b' Hb'.
  apply list_elem_of_omap in Hb' as (o & Ho & Hid). cbn [id] in Hid. subst o.
  apply list_elem_of_lookup in Ho as [d Hd].
  apply list_lookup_imap_Some in Hd as (a' & Ha' & Hg').
  apply (Hg 0 (S d) a a' b b'); [lia | done..].
Qed.

Lemma ForallOrdPairs_mjoin_imap {B : Type} (h : nat → B → list A) (l : list B) :
  (∀ p x, l !! p = Some x → ForallOrdPairs R (h p x)) →
  (∀ p p' x x' b b',
     p < p' → l !! p = Some x → l !! p' = Some x' →
     b ∈ h p x → b' ∈ h p' x' → R b b') →
  ForallOrdPairs R (mjoin (imap h l)).
Proof.
  revert h. induction l as [|x l IH]; intros h Hin Hacross; [constructor|].
  cbn [imap mjoin list_join]. apply ForallOrdPairs_app.
  - by apply (Hin 0).
  - apply IH.
    + intros p y Hy. by apply (Hin (S p)).
    + intros p p' y y' b b' Hp Hy Hy'. apply (Hacross (S p) (S p')); [lia | done..].
  - intros b b' Hb Hb'.
    apply list_elem_of_join in Hb' as (bs & Hb' & Hbs).
    apply list_elem_of_lookup in Hbs as [p Hp].
    apply list_lookup_imap_Some in Hp as (y & Hy & ->).
    apply (Hacross 0 (S p) x y); [lia | done..].
Qed.
End OrderedPairs.

Lemma imap_pair_fst {A : Type} (k : nat) (l : list A) :
  (imap (λ i x, (k + i, x)) l).*1 = seq k (length l).
Proof.
  revert k. induction l as [|x l IH]; intros k; [done|].
  cbn [imap fmap list_fmap length seq]. rewrite Nat.add_0_r. f_equal.
  rewrite <-(IH (S k)). f_equal. apply imap_ext. intros i y _. simpl. f_equal. lia.
Qed.

Lemma indexed_fst (lines : list TextLine.t) :
  (indexed lines).*1 = seq 0 (length lines).
Proof. apply (imap_pair_fst 0). Qed.

Lemma indexed_lookup (lines : list TextLine.t) (i : nat) (line : TextLine.t) :
  (i, line) ∈ indexed lines ↔ lines !! i = Some line.
Proof.
  unfold indexed. rewrite list_elem_of_lookup. split.
  - intros [j Hj]. apply list_lookup_imap_Some in Hj as (x & Hx & ?). by simplify_eq.
  - intros Hi. exists i. apply list_lookup_imap_Some. eauto.
Qed.

Lemma slice_region (from to : nat) (lines : list TextLine.t) :
  regionFrom from (slice from to (indexed lines))
  ∧ length (slice from to (indexed lines)) ≤ to - from.
Proof.
  unfold regionFrom, slice. split.
  - rewrite fmap_take, fmap_drop, indexed_fst, drop_seq, take_seq.
    rewrite length_take, length_drop. unfold indexed. rewrite length_imap.
    f_equal; lia.
  - rewrite length_take. lia.
Qed.

Lemma slice_elem_of {A : Type} (from to : nat) (l : list A) (x : A) :
  x ∈ slice from to l → x ∈ l.
Proof.
  unfold slice. intros H.
  eapply elem_of_sublist; [exact H|].
  etrans; [apply sublist_take | apply sublist_drop].
Qed.

Lemma regionFrom_cons (a : nat) (il : nat * TextLine.t) (region : list (nat * TextLine.t)) :
  regionFrom a (il :: region) → il.1 = a ∧ regionFrom (S a) region.
Proof. unfold regionFrom. rewrite fmap_cons. cbn [length seq]. by intros [= ??]. Qed.

Lemma regionFrom_elem_of (a : nat) (region : list (nat * TextLine.t)) (il : nat * TextLine.t) :
  regionFrom a region → il ∈ region → a ≤ il.1 < a + length region.
Proof.
  intros Hr Hin. apply (list_elem_of_fmap_2 fst) in Hin. rewrite Hr in Hin.
  apply elem_of_seq in Hin. lia.
Qed.

Lemma employeeStart_range (d a dataIdx : nat) (region : list (nat * TextLine.t)) :
  regionFrom a region → a + length region ≤ dataIdx →
  a ≤ employeeStart d region dataIdx ≤ dataIdx.
Proof.
  revert a. induction region as [|[i line] region IH]; intros a Hr Hlen.
  - cbn in *. lia.
  - apply regionFrom_cons in Hr as [Hi Hr]. cbn [fst] in Hi. subst i.
    cbn [length] in Hlen. cbn [employeeStart].
    specialize (IH (S a) Hr). repeat case_match; lia.
Qed.

Lemma trailingLines_elem_of (region : list (nat * TextLine.t)) (il : nat * TextLine.t) :
  il ∈ trailingLines region → il ∈ region.
Proof.
  induction region as [|[i line] region IH]; [done|].
  cbn [trailingLines]. repeat case_match; rewrite ?elem_of_cons;
    first [by intros ?%elem_of_nil | intuition].
Qed.

(** The lines that the block of a data line takes after it end before the
    lines of the next block start. *)
Lemma trailingLines_before_employeeStart (d a dataIdx : nat)
    (region : list (nat * TextLine.t)) (il : nat * TextLine.t) :
  d ≠ 0 → regionFrom a region → a + length region ≤ dataIdx →
  il ∈ trailingLines region → il.1 < employeeStart d region dataIdx.
Proof.
  intros Hd. revert a. induction region as [|[i line] region IH]; intros a Hr Hlen.
  - by intros ?%elem_of_nil.
  - apply regionFrom_cons in Hr as [Hi Hr]. cbn [fst] in Hi. subst i.
    cbn [length] in Hlen. cbn [employeeStart trailingLines].
    destruct (isSkipLine _); [apply (IH (S a)); [done | lia]|].
    destruct (RegExp.test totalPattern _).
    { by intros ?%elem_of_nil. }
    destruct (isNamePrefixLine _); [by intros ?%elem_of_nil|].
    rewrite decide_False by done. rewrite elem_of_cons. intros [-> | Hin].
    + cbn [fst]. pose proof (employeeStart_range d (S a) dataIdx region Hr). lia.
    + apply (IH (S a)); [done | lia | done].
Qed.

Section BlockFacts.
Context (pagePos : nat) (page : PageData.t) (dataLineIndices : list nat)
        (headerEndIdx : nat).
(** the positions of the lines of a block *)
Lemma blockAt_rawLines (d dataIdx : nat) (b : EmployeeBlock.t) (l : Ref TextLine.t) :
  blockAt pagePos page dataLineIndices headerEndIdx d dataIdx = Some b →
  l ∈ EmployeeBlock.rawLines b →
  ∃ il, addr l = (pagePos, il.1) ∧
    (il ∈ slice (employeeStart d
                   (slice (regionStartOf dataLineIndices headerEndIdx d) dataIdx
                          (indexed (PageData.lines page))) dataIdx)
                dataIdx (indexed (PageData.lines page))
     ∨ il.1 = dataIdx
     ∨ il ∈ trailingLines
              (slice (dataIdx + 1) (nextBoundaryOf (PageData.lines page) dataLineIndices d)
                     (indexed (PageData.lines page)))).
Proof.
  unfold blockAt. intros Hb Hl.
  destruct ((PageData.lines page) !! dataIdx) as [dataLine|]; [|done]. cbn [mbind option_bind] in Hb.
  destruct (RegExp.matchPieces _ _) as [dataMatch|]; [|done].
  cbn [mbind option_bind] in Hb.
  destruct (dataMatch !! 1) as [srNo|]; [|done]. cbn [mbind option_bind] in Hb.
  destruct (dataMatch !! 3) as [hrpn|]; [|done]. cbn [mbind option_bind] in Hb.
  simplify_eq. cbn [EmployeeBlock.rawLines] in Hl.
  apply list_elem_of_fmap in Hl as (il & -> & Hil). exists il. split; [done|].
  rewrite !elem_of_app, list_elem_of_singleton in Hil.
  destruct Hil as [Hil | [-> | Hil]]; [left | right; left | right; right]; try done.
  by apply list_elem_of_filter in Hil as [_ ?].
Qed.

Lemma blockAt_earlier (d a a1 : nat) (b : EmployeeBlock.t) (l : Ref TextLine.t) :
  dataLineIndices !! (d + 1) = Some a1 →
  blockAt pagePos page dataLineIndices headerEndIdx d a = Some b →
  l ∈ EmployeeBlock.rawLines b →
  ∃ il, addr l = (pagePos, il.1) ∧
    (il.1 ≤ a ∨ il ∈ trailingLines (slice (a + 1) a1 (indexed (PageData.lines page)))).
Proof.
  intros Hnext Hb Hl.
  destruct (blockAt_rawLines d a b l Hb Hl) as (il & Haddr & Hil).
  exists il. split; [done|]. destruct Hil as [Hil | [Hil | Hil]].
  - left. destruct (slice_region
                      (employeeStart d
                         (slice (regionStartOf dataLineIndices headerEndIdx d) a
                                (indexed (PageData.lines page))) a) a (PageData.lines page)) as [Hr Hlen]. pose proof (regionFrom_elem_of _ _ _ Hr Hil). lia.
  - left. lia.
  - right. unfold nextBoundaryOf in Hil.
    pose proof (lookup_lt_Some _ _ _ Hnext).
    rewrite decide_True, Hnext in Hil by lia. done.
Qed.

Lemma blockAt_later (d p a : nat) (b : EmployeeBlock.t) (l : Ref TextLine.t) :
  d ≠ 0 → dataLineIndices !! (d - 1) = Some p → p < a →
  blockAt pagePos page dataLineIndices headerEndIdx d a = Some b →
  l ∈ EmployeeBlock.rawLines b →
  ∃ il : nat * TextLine.t, addr l = (pagePos, il.1) ∧
    employeeStart d (slice (p + 1) a (indexed (PageData.lines page))) a ≤ il.1.
Proof.
  intros Hd Hprev Hpa Hb Hl.
  destruct (blockAt_rawLines d a b l Hb Hl) as (il & Haddr & Hil).
  exists il. split; [done|].
  unfold regionStartOf in Hil. rewrite decide_False, Hprev in Hil by done.
  cbn [from_option] in Hil. replace (S p) with (p + 1) in Hil by lia.
  destruct (slice_region (p + 1) a (PageData.lines page)) as [Hr Hlen].
  pose proof (employeeStart_range d (p + 1) a _ Hr) as Hstart.
  destruct Hil as [Hil | [Hil | Hil]].
  - destruct (slice_region
                (employeeStart d (slice (p + 1) a (indexed (PageData.lines page))) a) a (PageData.lines page))
      as [Hr' Hlen']. pose proof (regionFrom_elem_of _ _ _ Hr' Hil). lia.
  - lia.
  - apply trailingLines_elem_of in Hil.
    destruct (slice_region (a + 1) (nextBoundaryOf (PageData.lines page) dataLineIndices d) (PageData.lines page))
      as [Hr' Hlen']. pose proof (regionFrom_elem_of _ _ _ Hr' Hil). lia.
Qed.

(** two blocks of a page whose data lines are in ascending order *)
Lemma blockAt_disjoint (d d' a a' : nat) (b b' : EmployeeBlock.t) :
  StronglySorted lt dataLineIndices →
  d < d' → dataLineIndices !! d = Some a → dataLineIndices !! d' = Some a' →
  blockAt pagePos page dataLineIndices headerEndIdx d a = Some b →
  blockAt pagePos page dataLineIndices headerEndIdx d' a' = Some b' →
  disjointBlocks b b'.
Proof.
  intros Hsorted Hdd' Ha Ha' Hb Hb' l l' Hl Hl'.
  assert (∀ i j x y, i < j → dataLineIndices !! i = Some x →
                     dataLineIndices !! j = Some y → x < y) as Hasc.
  { clear -Hsorted. induction Hsorted as [|x0 l0 Hl0 IH Hx0]; intros i j x y Hij Hi Hj.
    - done.
    - destruct j as [|j]; [lia|]. destruct i as [|i]; simplify_eq/=.
      + rewrite Forall_forall in Hx0. apply Hx0. by eapply list_elem_of_lookup_2.
      + apply (IH i j); [lia | done..]. }
  destruct (lookup_lt_is_Some_2 dataLineIndices (d + 1)) as [a1 Ha1].
  { apply lookup_lt_Some in Ha'. lia. }
  destruct (lookup_lt_is_Some_2 dataLineIndices (d' - 1)) as [p Hp].
  { apply lookup_lt_Some in Ha'. lia. }
  assert (a < a1) as Haa1 by (apply (Hasc d (d + 1)); [lia | done..]).
  assert (p < a') as Hpa' by (apply (Hasc (d' - 1) d'); [lia | done..]).
  destruct (blockAt_earlier d a a1 b l Ha1 Hb Hl) as (il & Haddr & Hil).
  destruct (blockAt_later d' p a' b' l' ltac:(lia) Hp Hpa' Hb' Hl')
    as (il' & Haddr' & Hil').
  rewrite Haddr, Haddr'. intros [= Heq].
  destruct (slice_region (p + 1) a' (PageData.lines page)) as [Hr Hlen].
  pose proof (employeeStart_range d' (p + 1) a' _ Hr ltac:(lia)) as Hstart.
  destruct (decide (d' = d + 1)) as [-> | Hfar].
  - replace (d + 1 - 1) with d in Hp by lia.
    assert (p = a) as -> by congruence. assert (a1 = a') as -> by congruence.
    destruct Hil as [Hil | Hil]; [lia|].
    pose proof (trailingLines_before_employeeStart (d + 1) (a + 1) a' _ il
                  ltac:(lia) Hr ltac:(lia) Hil). lia.
  - assert (a1 ≤ p) as Ha1p.
    { destruct (decide (d + 1 = d' - 1)) as [Heq'|Hne]; [rewrite Heq' in Ha1; by simplify_eq|].
      apply Nat.lt_le_incl, (Hasc (d + 1) (d' - 1)); [lia | done..]. }
    destruct Hil as [Hil | Hil]; [lia|].
    apply trailingLines_elem_of in Hil.
    destruct (slice_region (a + 1) a1 (PageData.lines page)) as [Hr' Hlen'].
    pose proof (regionFrom_elem_of _ _ _ Hr' Hil). lia.
Qed.
End BlockFacts.

Lemma StronglySorted_seq (a n : nat) : StronglySorted lt (seq a n).
Proof.
  revert a. induction n as [|n IH]; intros a; [constructor|].
  cbn [seq]. constructor; [apply IH|].
  apply Forall_forall. intros x Hx%elem_of_seq. lia.
Qed.

Lemma StronglySorted_sublist {A : Type} (R : relation A) (l1 l2 : list A) :
  l1 `sublist_of` l2 → StronglySorted R l2 → StronglySorted R l1.
Proof.
  induction 1 as [|x l1 l2 Hsub IH|x l1 l2 Hsub IH]; intros Hs.
  - done.
  - apply StronglySorted_inv in Hs as [Hs Hx]. constructor; [by apply IH|].
    apply Forall_forall. intros y Hy. rewrite Forall_forall in Hx.
    apply Hx. by eapply elem_of_sublist.
  - apply StronglySorted_inv in Hs as [Hs Hx]. by apply IH.
Qed.

Lemma dataLineIndicesOf_sorted (lines : list TextLine.t) :
  StronglySorted lt (dataLineIndicesOf lines).
Proof.
  unfold dataLineIndicesOf.
  eapply StronglySorted_sublist; [|apply (StronglySorted_seq 0 (length lines))].
  rewrite <-indexed_fst. apply fmap_sublist, sublist_filter.
Qed.

Lemma blockAt_pagePos (pagePos : nat) (page : PageData.t) (dataLineIndices : list nat)
    (headerEndIdx d dataIdx : nat) (b : EmployeeBlock.t) (l : Ref TextLine.t) :
  blockAt pagePos page dataLineIndices headerEndIdx d dataIdx = Some b →
  l ∈ EmployeeBlock.rawLines b → (addr l).1 = pagePos.
Proof.
  intros Hb Hl. destruct (blockAt_rawLines _ _ _ _ _ _ _ _ Hb Hl) as (il & -> & _).
  done.
Qed.

Lemma segmentPage_pagePos (pagePos : nat) (page : PageData.t) (b : EmployeeBlock.t)
    (l : Ref TextLine.t) :
  b ∈ segmentPage pagePos page → l ∈ EmployeeBlock.rawLines b →
  (addr l).1 = pagePos.
Proof.
  unfold segmentPage. case_decide; [by intros ?%elem_of_nil|].
  intros Hb Hl. apply list_elem_of_omap in Hb as (o & Ho & Hid). cbn [id] in Hid. subst o.
  apply list_elem_of_lookup in Ho as [d Hd].
  apply list_lookup_imap_Some in Hd as (a & Ha & Hb).
  by eapply blockAt_pagePos.
Qed.

Lemma segmentPage_disjoint (pagePos : nat) (page : PageData.t) :
  ForallOrdPairs disjointBlocks (segmentPage pagePos page).
Proof.
  unfold segmentPage. case_decide; [constructor|].
  apply ForallOrdPairs_omap_imap. intros d d' a a' b b' Hdd' Ha Ha' Hb Hb'.
  eapply blockAt_disjoint; [apply dataLineIndicesOf_sorted | exact Hdd' | done..].
Qed.

Lemma segmentRows_disjoint (pages : list PageData.t) :
  ForallOrdPairs disjointBlocks (Segmentation.employees (segmentRows pages)).
Proof.
  cbn [segmentRows Segmentation.employees].
  apply ForallOrdPairs_mjoin_imap.
  - intros p page _. apply segmentPage_disjoint.
  - intros p p' page page' b b' Hpp' _ _ Hb Hb' l l' Hl Hl' Heq.
    pose proof (segmentPage_pagePos _ _ _ _ Hb Hl).
    pose proof (segmentPage_pagePos _ _ _ _ Hb' Hl').
    rewrite Heq in *. lia.
Qed.

(** C7: two employee blocks that follow each other in the output of the
    row segmentation, such as the blocks of two consecutive anchor lines
    of a page, have no reconstructed line in common; nor has a block a line
    in common with any later block. *)
Theorem neighbouring_blocks_are_disjoint (pages : list PageData.t) (i : nat)
    (b1 b2 : EmployeeBlock.t) :
  let employees := Segmentation.employees (segmentRows pages) in
  employees !! i = Some b1 → employees !! (S i) = Some b2 →
  disjointBlocks b1 b2
  ∧ (∀ j b, i < j → employees !! j = Some b → disjointBlocks b1 b).
Proof.
  intros employees H1 H2. split.
  - eapply (ForallOrdPairs_lookup disjointBlocks employees i (S i));
      [apply segmentRows_disjoint | lia | done..].
  - intros j b Hij Hb.
    eapply (ForallOrdPairs_lookup disjointBlocks employees i j);
      [apply segmentRows_disjoint | lia | done..].
Qed.


Lemma neighbouring_blocks_are_disjoint_witness :
  let employees :=
    Segmentation.employees
      (segmentRows (ExtractedText.pages (extractText [sampleEarningPage]))) in
  ∃ b1 b2,
    employees !! 0 = Some b1 ∧ employees !! 1 = Some b2
    ∧ addr <$> EmployeeBlock.rawLines b1 = [(0, 5); (0, 6); (0, 7)]
    ∧ addr <$> EmployeeBlock.rawLines b2 = [(0, 8); (0, 9)]
    ∧ disjointBlocks b1 b2.
Proof.
  intros employees.
  assert ((λ b, addr <$> EmployeeBlock.rawLines b) <$> employees
          = [[(0, 5); (0, 6); (0, 7)]; [(0, 8); (0, 9)]]) as Haddrs
    by by vm_compute.
  pose proof (neighbouring_blocks_are_disjoint
                (ExtractedText.pages (extractText [sampleEarningPage])) 0) as Hdisjoint.
  cbv zeta in Hdisjoint. fold employees in Hdisjoint.
  destruct employees as [|b1 [|b2 rest]]; [done..|].
  injection Haddrs as Hb1 Hb2 _.
  exists b1, b2. split; [done|]. split; [done|]. split; [done|]. split; [done|].
  exact (proj1 (Hdisjoint b1 b2 eq_refl eq_refl)).
Defined.

(** ** Header detection *)

Lemma findItemByText_Some (items : list HeaderItem.t) (pattern : RegExp.t)
    (first : HeaderItem.t) :
  findItemByText items pattern = Some first ↔ firstMatch pattern items first.
Proof.
  unfold firstMatch. induction items as [|item items IH]; cbn [findItemByText].
  - split; [done|]. intros ([|??] & after & ? & _); done.
  - destruct (RegExp.test pattern (HeaderItem.text item)) eqn:Htest.
    + split.
      * intros [= ->]. by exists [], items.
      * intros ([|item' before] & after & Heq & Hbefore & Hfirst); simplify_eq/=; [done|].
        apply Forall_cons in Hbefore as [Hitem _]. congruence.
    + rewrite IH. split.
      * intros (before & after & -> & Hbefore & Hfirst).
        exists (item :: before), after. split; [done|]. split; [by constructor | done].
      * intros ([|item' before] & after & Heq & Hbefore & Hfirst); simplify_eq/=;
          [congruence|].
        apply Forall_cons in Hbefore as [_ Hbefore]. eauto.
Qed.

Lemma findItemByText_is_Some (items : list HeaderItem.t) (pattern : RegExp.t)
    (item : HeaderItem.t) :
  item ∈ items → RegExp.test pattern (HeaderItem.text item) = true →
  is_Some (findItemByText items pattern).
Proof.
  induction items as [|item' items IH]; [by intros ?%elem_of_nil|].
  cbn [findItemByText]. intros [-> | Hin]%elem_of_cons Htest.
  - rewrite Htest. eauto.
  - destruct (RegExp.test pattern (HeaderItem.text item')); eauto.
Qed.

Lemma findByKeyword_primary (items : list HeaderItem.t) (primary : RegExp.t)
    (code : option RegExp.t) (first : HeaderItem.t) :
  findItemByText items primary = Some first →
  findByKeyword items primary code = DetectResult.mk true (HeaderItem.x first).
Proof. intros H. unfold findByKeyword. by rewrite H. Qed.

Lemma detectHeaders_filter (label : string) (detectors : list Detector.t)
    (items : list HeaderItem.t) (text : string) :
  filter (λ lx, lx.1 = label) (detectHeaders detectors items text)
  = detectHeaders (filter (λ d, Detector.label d = label) detectors) items text.
Proof.
  unfold detectHeaders. induction detectors as [|d ds IH]; [done|].
  cbn [omap list_omap]. rewrite filter_cons.
  destruct (DetectResult.found _) eqn:Hfound.
  - rewrite filter_cons. cbn [fst]. case_decide.
    + cbn [omap list_omap]. by rewrite Hfound, IH.
    + done.
  - case_decide; [|done]. cbn [omap list_omap]. by rewrite Hfound.
Qed.

(** *** A literal pattern is a substring test *)

Lemma exec_lit (w : string) (prev : option ascii) (s : string) :
  if Js.startsWith s w then ∃ c, RegExp.exec (RegExp.lit w) (prev, s) = [c]
  else RegExp.exec (RegExp.lit w) (prev, s) = [].
Proof.
  revert prev s. induction w as [|a w IH]; intros prev s.
  - destruct s; cbn; eauto.
  - destruct s as [|b s]; cbn [Js.startsWith].
    + destruct w; reflexivity.
    + case_bool_decide as Hab; cbn [andb].
      * subst b. specialize (IH (Some a) s).
        destruct w as [|a' w].
        { cbn. rewrite bool_decide_eq_true_2 by done. eauto. }
        remember (String a' w) as w'.
        assert (RegExp.lit (String a w') = RegExp.Cat (RegExp.chr a) (RegExp.lit w'))
          as -> by (by subst w').
        cbn [RegExp.exec RegExp.chr snd]. rewrite bool_decide_eq_true_2 by done.
        cbn [mbind list_bind app]. rewrite (right_id_L [] (++)).
        destruct (Js.startsWith s w'); done.
      * destruct w as [|a' w].
        { cbn. by rewrite bool_decide_eq_false_2. }
        cbn [RegExp.lit RegExp.exec RegExp.chr snd].
        by rewrite bool_decide_eq_false_2.
Qed.

Lemma matchHere_lit (w : string) (prev : option ascii) (s : string) :
  is_Some (RegExp.matchHere [RegExp.lit w] (prev, s)) ↔ Js.startsWith s w = true.
Proof.
  unfold RegExp.matchHere. cbn [RegExp.execSeq].
  pose proof (exec_lit w prev s) as H.
  destruct (Js.startsWith s w).
  - destruct H as [c ->]. cbn. split; eauto.
  - rewrite H. cbn. split; [by intros [??] | done].
Qed.

Lemma search_lit (w : string) (prev : option ascii) (s : string) :
  is_Some (RegExp.search [RegExp.lit w] prev s) ↔ Js.includes s w = true.
Proof.
  revert prev. induction s as [|a s IH]; intros prev;
    cbn [RegExp.search Js.includes]; rewrite orb_true_iff, <-(matchHere_lit w prev).
  - destruct (RegExp.matchHere _ _) as [[??]|].
    + split; intros _; [left|]; by eexists.
    + split; [by intros [??] | by intros [[??]|?]].
  - destruct (RegExp.matchHere _ _) as [[??]|].
    + split; intros _; [left|]; by eexists.
    + rewrite <-(IH (Some a)).
      destruct (RegExp.search _ (Some a) s) as [[[??]?]|].
      * split; intros _; [right|]; by eexists.
      * split; [by intros [??] | by intros [[??]|[??]]].
Qed.

Lemma test_lit (w s : string) : RegExp.test (RegExp.lit w) s = Js.includes s w.
Proof.
  unfold RegExp.test. destruct (Js.includes s w) eqn:H.
  - apply bool_decide_eq_true. by apply search_lit.
  - apply bool_decide_eq_false. rewrite search_lit. congruence.
Qed.

Lemma join_includes (sep : string) (parts : list string) (part w : string) :
  part ∈ parts → Js.includes part w = true → Js.includes (Js.join sep parts) w = true.
Proof.
  intros Hin Hinc. apply includes_spec in Hinc as (pre & post & ->).
  apply includes_spec.
  induction parts as [|p parts IH]; [by apply elem_of_nil in Hin|].
  apply elem_of_cons in Hin as [<- | Hin].
  - destruct parts as [|p' parts]; cbn [Js.join].
    + by exists pre, post.
    + exists pre, (post +:+ sep +:+ Js.join sep (p' :: parts)).
      by rewrite !string_app_assoc.
  - destruct (IH Hin) as (pre' & post' & Heq).
    destruct parts as [|p' parts]; [by apply elem_of_nil in Hin|].
    cbn [Js.join]. cbn [Js.join] in Heq. rewrite Heq.
    exists (p +:+ sep +:+ pre'), post'. by rewrite !string_app_assoc.
Qed.

Section HeaderFacts.
Import RegExp.

Lemma guardedDetector_keyword (label code : string) (guard keyword : RegExp.t)
    (items : list HeaderItem.t) (first cd : HeaderItem.t) :
  findItemByText items keyword = Some first →
  cd ∈ items → test (lit code) (HeaderItem.text cd) = true →
  Detector.detect (guardedDetector label guard code keyword) items
                  (Js.join " " (HeaderItem.text <$> items))
  = DetectResult.mk true (HeaderItem.x first).
Proof.
  intros Hfirst Hcd Hcode. cbn [guardedDetector Detector.detect].
  rewrite (test_lit code (Js.join _ _)).
  rewrite (join_includes " " _ (HeaderItem.text cd) code);
    [|by apply list_elem_of_fmap_2 | by rewrite <-test_lit].
  by rewrite orb_true_r, Hfirst.
Qed.

Lemma filter_none {A : Type} (P : A → Prop) `{!∀ x, Decision (P x)} (l : list A) :
  Forall (λ x, ¬ P x) l → filter P l = [].
Proof.
  induction 1 as [|x l Hx Hl IH]; [done|]. by rewrite filter_cons, decide_False.
Qed.

Lemma filter_unique_label (detectors : list Detector.t) (d : Detector.t) :
  NoDup (Detector.label <$> detectors) → d ∈ detectors →
  filter (λ d', Detector.label d' = Detector.label d) detectors = [d].
Proof.
  induction detectors as [|d0 ds IH]; [by intros _ ?%elem_of_nil|].
  rewrite fmap_cons, NoDup_cons, filter_cons. intros [Hd0 Hds] Hin.
  apply elem_of_cons in Hin as [-> | Hin].
  - rewrite decide_True by done. f_equal. apply filter_none.
    apply Forall_forall. intros d' Hd' Heq. apply Hd0. rewrite <-Heq.
    by apply list_elem_of_fmap_2.
  - rewrite decide_False; [by apply IH|].
    intros Heq. apply Hd0. rewrite Heq. by apply list_elem_of_fmap_2.
Qed.

Lemma detectorsFor_NoDup (pdfType : PdfType) :
  NoDup (Detector.label <$> detectorsFor pdfType).
Proof. destruct pdfType; apply (bool_decide_unpack _); by vm_compute. Qed.

Lemma byKeywordThenCode_label (detector : Detector.t) (label : string)
    (primary code : RegExp.t) :
  byKeywordThenCode detector label primary code → Detector.label detector = label.
Proof. intros [-> | [(guard & codeText & _ & ->) | (-> & -> & _)]]; done. Qed.

Lemma byKeywordThenCode_detect (detector : Detector.t) (label : string)
    (primary code : RegExp.t) (items : list HeaderItem.t) (first cd : HeaderItem.t) :
  byKeywordThenCode detector label primary code →
  findItemByText items primary = Some first →
  cd ∈ items → test code (HeaderItem.text cd) = true →
  Detector.detect detector items (Js.join " " (HeaderItem.text <$> items))
  = DetectResult.mk true (HeaderItem.x first).
Proof.
  intros [-> | [(guard & codeText & -> & ->) | (-> & -> & -> & ->)]] Hfirst Hcd Hcode.
  - cbn [Detector.detect keywordDetector]. by apply findByKeyword_primary.
  - by apply (guardedDetector_keyword _ _ _ _ _ first cd).
  - cbn [Detector.detect nonPrivatePracticeDetector]. by rewrite Hfirst.
Qed.

(** C8: when the pool of header items holds an item that matches the
    keyword pattern of a catalogue field and an item that matches its
    field-code pattern, the position resolved for the field is the one of
    the first item that matches the keyword pattern: [findByKeyword] and the
    detector of the field return it, the field is detected once, at that
    position, and is among the headers of [parseHeadersSmart]. *)
Theorem keyword_position_has_priority (pdfType : PdfType) (detector : Detector.t)
    (label : string) (primary code : RegExp.t) (pageLines : list TextLine.t)
    (kw cd : HeaderItem.t) :
  let pool := collectHeaderItems false pageLines in
  let rawHeaderText := Js.join " " (HeaderItem.text <$> pool) in
  detector ∈ detectorsFor pdfType →
  byKeywordThenCode detector label primary code →
  kw ∈ pool → test primary (HeaderItem.text kw) = true →
  cd ∈ pool → test code (HeaderItem.text cd) = true →
  ∃ first,
    firstMatch primary pool first
    ∧ findByKeyword pool primary (Some code)
      = DetectResult.mk true (HeaderItem.x first)
    ∧ Detector.detect detector pool rawHeaderText
      = DetectResult.mk true (HeaderItem.x first)
    ∧ filter (λ lx, lx.1 = label)
             (detectHeaders (detectorsFor pdfType) pool rawHeaderText)
      = [(label, HeaderItem.x first)]
    ∧ label ∈ HeaderResult.headers (parseHeadersSmart pageLines pdfType).
Proof.
  intros pool rawHeaderText Hin Hshape Hkw Hprimary Hcd Hcode.
  destruct (findItemByText_is_Some pool primary kw Hkw Hprimary) as [first Hfirst].
  pose proof (byKeywordThenCode_label _ _ _ _ Hshape) as Hlabel.
  pose proof (byKeywordThenCode_detect _ _ _ _ pool first cd Hshape Hfirst Hcd Hcode)
    as Hdetect.
  fold rawHeaderText in Hdetect.
  assert (filter (λ lx, lx.1 = label)
             (detectHeaders (detectorsFor pdfType) pool rawHeaderText)
          = [(label, HeaderItem.x first)]) as Hdetected.
  { rewrite detectHeaders_filter, <-Hlabel.
    rewrite filter_unique_label by (done || apply detectorsFor_NoDup).
    unfold detectHeaders. cbn [omap list_omap]. by rewrite Hdetect. }
  exists first. split; [by apply findItemByText_Some|].
  split; [by apply findByKeyword_primary|]. split; [done|]. split; [done|].
  unfold parseHeadersSmart. fold pool.
  rewrite decide_False by (destruct pool; [by apply elem_of_nil in Hkw | done]).
  cbn [HeaderResult.headers]. fold rawHeaderText.
  apply list_elem_of_fmap. exists (label, HeaderItem.x first). split; [done|].
  rewrite sortBy_Permutation.
  eapply (list_elem_of_filter (λ lx, lx.1 = label)).
  rewrite Hdetected. by left.
Qed.

(** the detectors that resolve by keyword, then by code *)
Lemma byKeywordThenCode_catalogue (detector : Detector.t) :
  detector ∈ getEarningDetectors ++ getDeductionDetectors →
  Detector.label detector ∉
    ["Basic Pay"; "Special Additional Pay"; "Recovery of Pay"; "Gross Amt"; "SLO";
     "Total Ded"; "Net Pay"] →
  ∃ primary code,
    byKeywordThenCode detector (Detector.label detector) primary code.
Proof.
  intros Hin Hlabel.
  unfold getEarningDetectors, getDeductionDetectors in Hin. cbn [app] in Hin.
  repeat (apply elem_of_cons in Hin as [-> | Hin];
          [first [ exfalso; apply Hlabel; cbn [Detector.label keywordDetector];
                   repeat first [apply list_elem_of_here | apply list_elem_of_further];
                   fail
                 | eexists _, _; left; reflexivity
                 | eexists _, _; right; left; eexists _, _; split; reflexivity
                 | eexists _, _; right; right; repeat split; reflexivity ]|]).
  by apply elem_of_nil in Hin.
Qed.

Lemma keyword_position_has_priority_witness :
  let pool := collectHeaderItems false (extractLines sampleEarningPage) in
  let rawHeaderText := Js.join " " (HeaderItem.text <$> pool) in
  pool !! 1 = Some (HeaderItem.mk 350 "DA" 770 10)
  ∧ pool !! 4 = Some (HeaderItem.mk 352 "(0103)" 760 10)
  ∧ ∃ first,
      firstMatch (liti "DA") pool first
      ∧ findByKeyword pool (liti "DA") (Some (lit "0103"))
        = DetectResult.mk true (HeaderItem.x first)
      ∧ Detector.detect (keywordDetector "DA (0103)" (liti "DA") (Some (lit "0103")))
                        pool rawHeaderText
        = DetectResult.mk true (HeaderItem.x first)
      ∧ filter (λ lx, lx.1 = "DA (0103)")
               (detectHeaders (detectorsFor earning) pool rawHeaderText)
        = [("DA (0103)", HeaderItem.x first)]
      ∧ "DA (0103)" ∈ HeaderResult.headers
                         (parseHeadersSmart (extractLines sampleEarningPage) earning).
Proof.
  intros pool rawHeaderText.
  assert (pool !! 1 = Some (HeaderItem.mk 350 "DA" 770 10)) as Hkw by by vm_compute.
  assert (pool !! 4 = Some (HeaderItem.mk 352 "(0103)" 760 10)) as Hcd by by vm_compute.
  split; [exact Hkw|]. split; [exact Hcd|].
  apply (keyword_position_has_priority earning
           (keywordDetector "DA (0103)" (liti "DA") (Some (lit "0103")))
           "DA (0103)" (liti "DA") (lit "0103") (extractLines sampleEarningPage)
           (HeaderItem.mk 350 "DA" 770 10) (HeaderItem.mk 352 "(0103)" 760 10)).
  - apply (list_elem_of_lookup_2 _ 1). reflexivity.
  - left. reflexivity.
  - exact (list_elem_of_lookup_2 _ _ _ Hkw).
  - by vm_compute.
  - exact (list_elem_of_lookup_2 _ _ _ Hcd).
  - by vm_compute.
Defined.
End HeaderFacts.

(** ** Every block gives a record *)

Section RegExpFacts.
Import RegExp.

Lemma execSeq_snd (ps : list RegExp.t) (c : cursor) :
  (execSeq ps c).*2 = exec (cats ps) c.
Proof.
  revert c. induction ps as [|p ps IH]; intros c; [done|].
  cbn [execSeq]. destruct ps as [|p' ps].
  - cbn [cats execSeq]. induction (exec p c) as [|c' l IHl]; [done|].
    rewrite bind_cons, fmap_app, IHl. done.
  - change (cats (p :: p' :: ps)) with (Cat p (cats (p' :: ps))). cbn [exec].
    induction (exec p c) as [|c' l IHl]; [done|].
    rewrite !bind_cons, fmap_app, IHl, <-IH. f_equal.
    induction (execSeq (p' :: ps) c') as [|m l' IHl']; [done|].
    rewrite bind_cons, fmap_app, IHl'. done.
Qed.

Lemma execSeq_length (ps : list RegExp.t) (c : cursor) (m : list string * cursor) :
  m ∈ execSeq ps c → length m.1 = length ps.
Proof.
  revert c m. induction ps as [|p ps IH]; intros c m; cbn [execSeq].
  - by intros ->%list_elem_of_singleton.
  - intros (c' & Hm & _)%list_elem_of_bind.
    apply list_elem_of_bind in Hm as (m' & Hm & Hm').
    apply list_elem_of_singleton in Hm as ->. cbn [fst length].
    by rewrite (IH c' m').
Qed.

Lemma matchHere_cats (ps : list RegExp.t) (c : cursor) :
  is_Some (matchHere [cats ps] c) ↔ is_Some (matchHere ps c).
Proof.
  unfold matchHere.
  assert (∀ {A} (l : list A), is_Some (head l) ↔ l ≠ []) as Hhead.
  { intros A [|??]; cbn; split; try done; by intros [??]. }
  rewrite !Hhead.
  pose proof (execSeq_snd [cats ps] c) as H1. pose proof (execSeq_snd ps c) as H2.
  cbn [cats] in H1. rewrite <-H1 in H2.
  split; intros Hne Hnil; apply Hne.
  - rewrite Hnil in H2. symmetry in H2. by apply fmap_nil_inv in H2.
  - rewrite Hnil in H2. by apply fmap_nil_inv in H2.
Qed.

Lemma search_cats (ps : list RegExp.t) (prev : option ascii) (s : string) :
  is_Some (search [cats ps] prev s) ↔ is_Some (search ps prev s).
Proof.
  revert prev. induction s as [|a s IH]; intros prev; cbn [search].
  - pose proof (matchHere_cats ps (prev, "")) as H.
    destruct (matchHere [cats ps] _) as [[??]|], (matchHere ps _) as [[??]|];
      try done; destruct H as [H1 H2]; first [by destruct H1 | by destruct H2].
  - pose proof (matchHere_cats ps (prev, String a s)) as H.
    destruct (matchHere [cats ps] _) as [[??]|], (matchHere ps _) as [[??]|];
      try done; try (destruct H as [H1 H2]; first [by destruct H1 | by destruct H2]).
    specialize (IH (Some a)).
    destruct (search [cats ps] _ s) as [[[??]?]|], (search ps _ s) as [[[??]?]|];
      try done; destruct IH as [H1 H2]; first [by destruct H1 | by destruct H2].
Qed.

Lemma search_length (ps : list RegExp.t) (prev : option ascii) (s : string)
    (pre : string) (m : list string) (c : cursor) :
  search ps prev s = Some (pre, m, c) → length m = length ps.
Proof.
  revert prev pre m c. induction s as [|a s IH]; intros prev pre m c; cbn [search].
  - destruct (matchHere ps _) as [[m' c']|] eqn:Hm; [|done].
    intros [= _ <- _]. unfold matchHere in Hm.
    apply (execSeq_length ps (prev, "") (m', c')).
    destruct (execSeq _ _); simplify_eq/=. by left.
  - destruct (matchHere ps _) as [[m' c']|] eqn:Hm.
    + intros [= _ <- _]. unfold matchHere in Hm.
      apply (execSeq_length ps (prev, String a s) (m', c')).
      destruct (execSeq _ _); simplify_eq/=. by left.
    + destruct (search ps (Some a) s) as [[[pre' m'] c']|] eqn:Hs; [|done].
      intros [= _ <- _]. by eapply IH.
Qed.

End RegExpFacts.










Lemma parseEmployeeBlock_hrpn (block : EmployeeBlock.t) (pdfType : PdfType) :
  ParsedEmployee.hrpn (parseEmployeeBlock block pdfType) = EmployeeBlock.hrpn block.
Proof. unfold parseEmployeeBlock. cbv zeta. by repeat case_match. Qed.





(** * Further properties *)

(** ** More on strings *)

Lemma take_app_length (w s : string) : Js.take (String.length w) (w +:+ s) = w.
Proof.
  induction w as [|a w IH]; [by destruct s|].
  rewrite string_app_cons. cbn [String.length Js.take]. by rewrite IH.
Qed.

Lemma drop_app_length (w s : string) : Js.drop (String.length w) (w +:+ s) = s.
Proof. induction w as [|a w IH]; [by destruct s|]. done. Qed.

Lemma string_app_inj_r (w1 w2 s : string) : w1 +:+ s = w2 +:+ s → w1 = w2.
Proof.
  intros H.
  rewrite <-(take_app_length w1 s), <-(take_app_length w2 s).
  assert (String.length w1 = String.length w2) as Hlen.
  { apply (f_equal String.length) in H. rewrite !string_app_length in H. lia. }
  by rewrite Hlen, H.
Qed.

Lemma allOf_app (p : ascii → bool) (w1 w2 : string) :
  allOf p (w1 +:+ w2) = allOf p w1 && allOf p w2.
Proof.
  induction w1 as [|a w1 IH]; [done|].
  rewrite string_app_cons. cbn [allOf]. by rewrite IH, andb_assoc.
Qed.

Lemma take_drop_string (n : nat) (s : string) : Js.take n s +:+ Js.drop n s = s.
Proof.
  revert s. induction n as [|n IH]; intros [|a s]; cbn [Js.take Js.drop]; try done.
  by rewrite string_app_cons, IH.
Qed.

Lemma drop_drop_string (n m : nat) (s : string) :
  Js.drop m (Js.drop n s) = Js.drop (n + m) s.
Proof.
  revert s. induction n as [|n IH]; intros s; [done|].
  destruct s as [|a s]; cbn [Js.drop plus]; [by destruct m | apply IH].
Qed.

Lemma toLowerCase_take (n : nat) (s : string) :
  Js.toLowerCase (Js.take n s) = Js.take n (Js.toLowerCase s).
Proof.
  revert s. induction n as [|n IH]; intros [|a s]; cbn [Js.take Js.toLowerCase]; try done.
  by rewrite IH.
Qed.

Lemma toLowerCase_drop (n : nat) (s : string) :
  Js.toLowerCase (Js.drop n s) = Js.drop n (Js.toLowerCase s).
Proof.
  revert s. induction n as [|n IH]; intros [|a s]; cbn [Js.drop Js.toLowerCase]; try done.
Qed.

Lemma startsWith_take (s p : string) :
  Js.startsWith s p = true → Js.take (String.length p) s = p.
Proof.
  intros [post ->]%startsWith_spec. apply take_app_length.
Qed.

Lemma indexOf_Some (s needle : string) (i : nat) :
  Js.indexOf s needle = Some i → Js.startsWith (Js.drop i s) needle = true.
Proof.
  revert i. induction s as [|a s IH]; intros i; cbn [Js.indexOf].
  - destruct (Js.startsWith "" needle) eqn:Hs; [by intros [= <-]|done].
  - destruct (Js.startsWith (String a s) needle) eqn:Hs; [by intros [= <-]|].
    destruct (Js.indexOf s needle) as [j|]; [|done]. intros [= <-]. by apply IH.
Qed.

Lemma indexOf_None (s needle : string) :
  Js.indexOf s needle = None ↔ Js.includes s needle = false.
Proof.
  induction s as [|a s IH]; cbn [Js.indexOf Js.includes].
  - destruct (Js.startsWith "" needle); cbn; split; done.
  - destruct (Js.startsWith (String a s) needle); cbn [orb]; [split; done|].
    rewrite <-IH. destruct (Js.indexOf s needle); cbn; split; done.
Qed.

Lemma string_rev_app_eq (s1 s2 : string) : String.rev_app s1 s2 = String.rev s1 +:+ s2.
Proof.
  unfold String.rev. revert s2. induction s1 as [|a s1 IH]; intros s2; [done|].
  cbn [String.rev_app]. rewrite (IH (String a s2)), (IH (String a "")).
  by rewrite string_app_assoc.
Qed.

Lemma string_rev_cons (a : ascii) (s : string) :
  String.rev (String a s) = String.rev s +:+ String a "".
Proof. unfold String.rev at 1. cbn [String.rev_app]. apply string_rev_app_eq. Qed.

Lemma string_rev_app (s t : string) :
  String.rev (s +:+ t) = String.rev t +:+ String.rev s.
Proof.
  induction s as [|a s IH]; [by rewrite string_app_nil_r|].
  by rewrite string_app_cons, !string_rev_cons, IH, string_app_assoc.
Qed.

Lemma string_rev_involutive (s : string) : String.rev (String.rev s) = s.
Proof.
  induction s as [|a s IH]; [done|].
  by rewrite string_rev_cons, string_rev_app, IH.
Qed.

Lemma trimStart_suffix (s : string) : ∃ pre, s = pre +:+ Js.trimStart s.
Proof.
  induction s as [|a s [pre IH]]; [by exists ""|].
  cbn [Js.trimStart]. destruct (Js.isSpace a); [|by exists ""].
  exists (String a pre). by rewrite string_app_cons, <-IH.
Qed.

Lemma trimEnd_prefix (s : string) : ∃ post, s = Js.trimEnd s +:+ post.
Proof.
  unfold Js.trimEnd. destruct (trimStart_suffix (String.rev s)) as [pre Hpre].
  exists (String.rev pre).
  by rewrite <-string_rev_app, <-Hpre, string_rev_involutive.
Qed.

(** the trimmed text is a part of the text *)
Lemma trim_infix (s : string) : ∃ pre post, s = pre +:+ Js.trim s +:+ post.
Proof.
  unfold Js.trim. destruct (trimStart_suffix s) as [pre Hpre].
  destruct (trimEnd_prefix (Js.trimStart s)) as [post Hpost].
  exists pre, post. by rewrite <-Hpost.
Qed.

Lemma trimStart_clean (s : string) : startsClean (Js.trimStart s).
Proof.
  induction s as [|a s IH]; [done|]. cbn [Js.trimStart].
  by destruct (Js.isSpace a) eqn:Ha.
Qed.

Lemma trimStart_id (s : string) : startsClean s → Js.trimStart s = s.
Proof. destruct s as [|a s]; [done|]. cbn. by intros ->. Qed.

Lemma trimEnd_id (s : string) : startsClean (String.rev s) → Js.trimEnd s = s.
Proof.
  intros H. unfold Js.trimEnd. by rewrite trimStart_id, string_rev_involutive.
Qed.

Lemma trimEnd_clean (s : string) : startsClean (String.rev (Js.trimEnd s)).
Proof. unfold Js.trimEnd. rewrite string_rev_involutive. apply trimStart_clean. Qed.

Lemma trimEnd_startsClean (s : string) : startsClean s → startsClean (Js.trimEnd s).
Proof.
  intros Hs. destruct (trimEnd_prefix s) as [post Hpost].
  destruct (Js.trimEnd s) as [|a u]; [done|].
  rewrite Hpost, string_app_cons in Hs. done.
Qed.

Lemma trim_idempotent (s : string) : Js.trim (Js.trim s) = Js.trim s.
Proof.
  unfold Js.trim.
  rewrite (trimStart_id (Js.trimEnd _)) by apply trimEnd_startsClean, trimStart_clean.
  apply trimEnd_id, trimEnd_clean.
Qed.

Lemma splitChar_length (sep : ascii) (s : string) :
  length (splitChar sep s) = S (occurrences sep s).
Proof.
  induction s as [|a s IH]; [done|]. cbn [splitChar occurrences].
  case_decide; cbn [length]; [by rewrite IH|].
  destruct (splitChar sep s); cbn [length] in *; lia.
Qed.

Lemma splitChar_none (sep : ascii) (s : string) :
  occurrences sep s = 0 → splitChar sep s = [s].
Proof.
  induction s as [|a s IH]; [done|]. cbn [splitChar occurrences].
  case_decide; [done|]. intros Hs. by rewrite IH.
Qed.

Lemma splitChar_once (sep : ascii) (s1 s2 : string) :
  occurrences sep s1 = 0 → occurrences sep s2 = 0 →
  splitChar sep (s1 +:+ String sep s2) = [s1; s2].
Proof.
  intros H1 H2. induction s1 as [|a s1 IH].
  - rewrite string_app_nil_l. cbn [splitChar]. rewrite decide_True by done.
    by rewrite splitChar_none.
  - rewrite string_app_cons. cbn [splitChar occurrences] in *.
    case_decide; [done|]. by rewrite IH.
Qed.

Lemma occurrences_allOf (p : ascii → bool) (a : ascii) (s : string) :
  p a = false → allOf p s = true → occurrences a s = 0.
Proof.
  intros Ha. induction s as [|b s IH]; [done|]. cbn [allOf occurrences].
  intros [Hb Hs]%andb_true_iff. rewrite IH by done.
  case_decide; [congruence | done].
Qed.

Lemma occurrences_toLowerCase (s : string) :
  occurrences "-" (Js.toLowerCase s) = 0 → occurrences "-" s = 0.
Proof.
  induction s as [|b s IH]; [done|]. cbn [Js.toLowerCase occurrences].
  destruct (decide (b = "-"%char)) as [-> | Hb]; [done|].
  destruct (decide (Js.lowerChar b = "-"%char)); [done|]. apply IH.
Qed.

(** ** What the matcher finds is a match *)

Section DenotationFacts.
Import RegExp.

Lemma iter_denotes (step : cursor → list cursor) (R : relation cursor)
    (greedy : bool) (fuel : nat) (c c' : cursor) :
  (∀ c1 c2, c2 ∈ step c1 → R c1 c2) →
  c' ∈ iter step greedy fuel c → rtc R c c'.
Proof.
  intros Hstep. revert c. induction fuel as [|fuel IH]; intros c; cbn [iter].
  - by intros ->%list_elem_of_singleton.
  - assert (c' ∈ (c1 ← step c;
                  if decide (String.length c1.2 < String.length c.2)
                  then iter step greedy fuel c1 else []) → rtc R c c') as Hmore.
    { intros (c1 & Hc' & Hc1)%list_elem_of_bind.
      case_decide; [|by apply elem_of_nil in Hc'].
      eapply rtc_l; [by apply Hstep | by apply IH]. }
    destruct greedy.
    + rewrite elem_of_app, list_elem_of_singleton. intros [?| ->]; [auto | done].
    + rewrite elem_of_cons. intros [-> | ?]; [done | auto].
Qed.

Lemma exec_denotes (r : RegExp.t) (c c' : cursor) :
  c' ∈ exec r c → denotes r c c'.
Proof.
  revert c c'. induction r as [p| |r1 IH1 r2 IH2|r1 IH1 r2 IH2|r IH|r IH| | |];
    intros c c'; cbn [exec denotes].
  - destruct c as [prev [|a s]]; cbn [snd]; [by intros ?%elem_of_nil|].
    destruct (p a) eqn:Hp; [|by intros ?%elem_of_nil].
    intros ->%list_elem_of_singleton. by exists a.
  - by intros ->%list_elem_of_singleton.
  - intros (c1 & Hc' & Hc1)%list_elem_of_bind. exists c1. auto.
  - rewrite elem_of_app. intros [?|?]; auto.
  - by apply iter_denotes.
  - by apply iter_denotes.
  - destruct c.1 eqn:Hprev; [by intros ?%elem_of_nil|].
    by intros ->%list_elem_of_singleton.
  - destruct c.2 eqn:Hrest; [|by intros ?%elem_of_nil].
    by intros ->%list_elem_of_singleton.
  - destruct (atWordBoundary c) eqn:Hb; [|by intros ?%elem_of_nil].
    by intros ->%list_elem_of_singleton.
Qed.

(** a match consumes a prefix of the text that is left *)
Lemma denotes_suffix (r : RegExp.t) (c c' : cursor) :
  denotes r c c' → ∃ w, c.2 = w +:+ c'.2.
Proof.
  revert c c'. induction r as [p| |r1 IH1 r2 IH2|r1 IH1 r2 IH2|r IH|r IH| | |];
    intros c c'; cbn [denotes].
  - intros (a & -> & _). by exists (String a "").
  - intros ->. by exists "".
  - intros (c1 & H1 & H2).
    destruct (IH1 _ _ H1) as [w1 E1]. destruct (IH2 _ _ H2) as [w2 E2].
    exists (w1 +:+ w2). by rewrite string_app_assoc, <-E2.
  - intros [H|H]; eauto.
  - induction 1 as [|c0 c1 c2 H01 _ [w2 E2]]; [by exists ""|].
    destruct (IH _ _ H01) as [w1 E1]. exists (w1 +:+ w2).
    by rewrite string_app_assoc, <-E2.
  - induction 1 as [|c0 c1 c2 H01 _ [w2 E2]]; [by exists ""|].
    destruct (IH _ _ H01) as [w1 E1]. exists (w1 +:+ w2).
    by rewrite string_app_assoc, <-E2.
  - intros [-> _]. by exists "".
  - intros [-> _]. by exists "".
  - intros [-> _]. by exists "".
Qed.

Lemma consumed_app (prev prev' : option ascii) (w s : string) :
  consumed (prev, w +:+ s) (prev', s) = w.
Proof.
  unfold consumed. cbn [snd]. rewrite string_app_length.
  replace (String.length w + String.length s - String.length s)
    with (String.length w) by lia.
  apply take_app_length.
Qed.

Lemma execSeq_denotes (ps : list RegExp.t) (c : cursor) (m : list string * cursor) :
  m ∈ execSeq ps c → denotesSeq ps c m.1 m.2.
Proof.
  revert c m. induction ps as [|p ps IH]; intros c m; cbn [execSeq].
  - by intros ->%list_elem_of_singleton.
  - intros (c1 & Hm & Hc1)%list_elem_of_bind.
    apply list_elem_of_bind in Hm as (m' & Hm & Hm').
    apply list_elem_of_singleton in Hm as ->. cbn [fst snd denotesSeq].
    exists c1. apply exec_denotes in Hc1. split; [done|]. split; [|by apply IH].
    destruct (denotes_suffix _ _ _ Hc1) as [w Hw].
    destruct c as [prev s], c1 as [prev1 s1]. cbn [snd] in *. subst s.
    by rewrite consumed_app.
Qed.

Lemma matchHere_denotes (ps : list RegExp.t) (c : cursor) (caps : list string)
    (c' : cursor) :
  matchHere ps c = Some (caps, c') → denotesSeq ps c caps c'.
Proof.
  unfold matchHere. intros H.
  apply (execSeq_denotes ps c (caps, c')).
  destruct (execSeq ps c); simplify_eq/=. by left.
Qed.

(** the match that a search finds: the text is the text skipped, the
    pieces matched and the text left *)
Lemma search_denotes (ps : list RegExp.t) (prev : option ascii) (s pre : string)
    (caps : list string) (c' : cursor) :
  search ps prev s = Some (pre, caps, c') →
  ∃ prev' rest,
    s = pre +:+ rest ∧ denotesSeq ps (prev', rest) caps c'
    ∧ (pre = "" → prev' = prev).
Proof.
  revert prev pre. induction s as [|a s IH]; intros prev pre; cbn [search].
  - destruct (matchHere ps _) as [[caps0 c0]|] eqn:Hm; [|done].
    intros [= <- <- <-]. exists prev, "". by apply matchHere_denotes in Hm.
  - destruct (matchHere ps _) as [[caps0 c0]|] eqn:Hm.
    + intros [= <- <- <-]. exists prev, (String a s).
      by apply matchHere_denotes in Hm.
    + destruct (search ps (Some a) s) as [[[pre1 caps1] c1]|] eqn:Hs; [|done].
      intros [= <- <- <-].
      destruct (IH _ _ Hs) as (prev' & rest & -> & Hd & _).
      exists prev', rest. done.
Qed.

(** a pattern anchored at the start matches at the start only *)
Lemma search_Bol (ps : list RegExp.t) (s pre : string) (caps : list string)
    (c' : cursor) :
  search (Bol :: ps) None s = Some (pre, caps, c') →
  pre = "" ∧ denotesSeq (Bol :: ps) (None, s) caps c'.
Proof.
  assert (∀ s a, search (Bol :: ps) (Some a) s = None) as Hnone.
  { clear. induction s as [|b s IH]; intros a; cbn; [done|]. by rewrite IH. }
  destruct s as [|a s]; cbn [search].
  - destruct (matchHere _ _) as [[caps0 c0]|] eqn:Hm; [|done].
    intros [= <- <- <-]. by apply matchHere_denotes in Hm.
  - destruct (matchHere _ _) as [[caps0 c0]|] eqn:Hm.
    + intros [= <- <- <-]. by apply matchHere_denotes in Hm.
    + by rewrite Hnone.
Qed.

Lemma denotes_Chr (p : ascii → bool) (c c' : cursor) :
  denotes (Chr p) c c' →
  ∃ a, c.2 = String a "" +:+ c'.2 ∧ p a = true.
Proof. intros (a & -> & _ & Hp). by exists a. Qed.

Lemma denotes_chr (a : ascii) (c c' : cursor) :
  denotes (chr a) c c' → c.2 = String a c'.2.
Proof. intros (b & -> & _ & ->%bool_decide_eq_true). done. Qed.

Lemma denotes_Star_Chr (p : ascii → bool) (c c' : cursor) :
  rtc (denotes (Chr p)) c c' →
  ∃ w, c.2 = w +:+ c'.2 ∧ allOf p w = true.
Proof.
  induction 1 as [|c0 c1 c2 H01 _ (w & E & Hw)]; [by exists ""|].
  destruct H01 as (a & -> & _ & Hp). exists (String a w).
  rewrite string_app_cons, <-E. cbn [allOf]. by rewrite Hp.
Qed.

Lemma denotes_plus_Chr (p : ascii → bool) (c c' : cursor) :
  denotes (plus (Chr p)) c c' →
  ∃ w, c.2 = w +:+ c'.2 ∧ allOf p w = true ∧ w ≠ "".
Proof.
  intros (c1 & (a & -> & _ & Hp) & (w & E & Hw)%denotes_Star_Chr).
  exists (String a w). rewrite string_app_cons, <-E. cbn [allOf]. by rewrite Hp.
Qed.

Lemma denotes_rep_Chr (n : nat) (p : ascii → bool) (c c' : cursor) :
  denotes (rep n (Chr p)) c c' →
  ∃ w, c.2 = w +:+ c'.2 ∧ allOf p w = true ∧ String.length w = n.
Proof.
  revert c. induction n as [|n IH]; intros c.
  - cbn. intros ->. by exists "".
  - destruct n as [|n].
    + cbn [rep denotes]. intros (a & -> & _ & Hp). exists (String a "").
      cbn [allOf String.length]. by rewrite Hp.
    + change (rep (S (S n)) (Chr p)) with (Cat (Chr p) (rep (S n) (Chr p))).
      intros (c1 & (a & -> & _ & Hp) & (w & E & Hw & Hlen)%IH).
      exists (String a w). rewrite string_app_cons, <-E.
      cbn [allOf String.length]. by rewrite Hp, Hw, Hlen.
Qed.

(** the pieces of a data line: a serial number, white space, an 8-digit
    identifier and a white-space character, from the start of the line *)
Lemma dataLine_pieces (text : string) (dataMatch : list string) :
  matchPieces dataLinePieces text = Some dataMatch →
  ∃ srNo ws hrpn sp rest,
    dataMatch = [""; srNo; ws; hrpn; String sp ""]
    ∧ text = srNo +:+ ws +:+ hrpn +:+ String sp rest
    ∧ allOf Js.isDigit srNo = true ∧ srNo ≠ ""
    ∧ allOf Js.isSpace ws = true ∧ ws ≠ ""
    ∧ digitString 8 hrpn
    ∧ Js.isSpace sp = true.
Proof.
  unfold matchPieces, dataLinePieces.
  destruct (search _ None text) as [[[pre caps] c']|] eqn:Hs; [|done].
  intros [= <-]. cbn [fst snd].
  pose proof (search_length _ _ _ _ _ _ Hs) as Hcaps.
  apply search_Bol in Hs as [-> Hd].
  destruct caps as [|m0 [|m1 [|m2 [|m3 [|m4 [|??]]]]]]; try done.
  destruct Hd as (c0 & [-> _] & H0 & c1 & Hsr & H1 & c2 & Hws & H2 & c3 & Hh & H3
                  & c4 & Hsp & H4 & ->).
  cbn [snd] in *.
  apply denotes_plus_Chr in Hsr as (srNo & Esr & Hsr & Hsr0). cbn [snd] in Esr.
  apply denotes_plus_Chr in Hws as (ws & Ews & Hws & Hws0).
  apply denotes_rep_Chr in Hh as (hrpn & Eh & Hh & Hlen).
  apply denotes_Chr in Hsp as (sp & Esp & Hsp).
  rewrite Esr in H1. apply string_app_inj_r in H1 as <-.
  rewrite Ews in H2. apply string_app_inj_r in H2 as <-.
  rewrite Eh in H3. apply string_app_inj_r in H3 as <-.
  rewrite Esp in H4. apply string_app_inj_r in H4 as <-.
  assert (m0 = "") as ->.
  { apply (string_app_inj_r _ "" text). by rewrite <-H0. }
  exists srNo, ws, hrpn, sp, c4.2. split; [done|].
  split; [by rewrite Esr, Ews, Eh, Esp|]. done.
Qed.

(** the matcher on a run of characters of a class *)
Lemma exec_rep_Chr (p : ascii → bool) (w s : string) (prev : option ascii) :
  allOf p w = true →
  exec (rep (String.length w) (Chr p)) (prev, w +:+ s) = [(lastChar prev w, s)].
Proof.
  revert prev. induction w as [|a w IH]; intros prev; [done|].
  cbn [allOf]. intros [Ha Hw]%andb_true_iff. rewrite string_app_cons.
  destruct w as [|a' w].
  - cbn [String.length rep exec snd lastChar]. by rewrite Ha.
  - change (rep (String.length (String a (String a' w))) (Chr p))
      with (Cat (Chr p) (rep (String.length (String a' w)) (Chr p))).
    cbn [exec snd]. rewrite Ha. cbn [mbind list_bind app].
    rewrite (IH (Some a) Hw). by rewrite (right_id_L [] (++)).
Qed.

(** [/^\d{8}$/] *)
Lemma test_eight_digits (h : string) :
  test (cats [Bol; rep 8 digit; Eol]) h = true ↔ digitString 8 h.
Proof.
  unfold test. rewrite bool_decide_eq_true. split.
  - intros Hs.
    apply (proj1 (search_cats [Bol; rep 8 digit; Eol] None h)) in Hs
      as [[[pre caps] c'] Hs].
    pose proof (search_length _ _ _ _ _ _ Hs) as Hcaps.
    apply search_Bol in Hs as [-> Hd].
    destruct caps as [|m0 [|m1 [|m2 [|??]]]]; try done.
    destruct Hd as (c0 & [-> _] & _ & c1 & Hh & _ & c2 & [-> Hend] & _ & _).
    apply denotes_rep_Chr in Hh as (w & Ew & Hw & Hlen). cbn [snd] in Ew.
    rewrite Hend, string_app_nil_r in Ew. by subst w.
  - intros [Hlen Hdigits]. apply (proj2 (search_cats [Bol; rep 8 digit; Eol] None h)).
    assert (is_Some (matchHere [Bol; rep 8 digit; Eol] (None, h))) as [m Hm].
    { assert (exec (rep 8 digit) (None, h) = [(lastChar None h, "")]) as Hexec.
      { pose proof (exec_rep_Chr Js.isDigit h "" None Hdigits) as E.
        by rewrite string_app_nil_r, Hlen in E. }
      unfold matchHere. cbn [execSeq exec fst]. cbn [mbind list_bind app].
      rewrite Hexec. cbn. eauto. }
    destruct h; cbn [search]; rewrite Hm; destruct m; eauto.
Qed.

End DenotationFacts.

(** ** Further properties of the line reconstruction *)

Lemma StronglySorted_strict {A : Type} (R : relation A) (l : list A) :
  StronglySorted R l → NoDup l → StronglySorted (λ a b, R a b ∧ a ≠ b) l.
Proof.
  induction 1 as [|a l Hl IH Ha]; [constructor|].
  rewrite NoDup_cons. intros [Hnot Hnodup]. constructor; [by apply IH|].
  apply Forall_forall. intros b Hb. rewrite Forall_forall in Ha.
  split; [by apply Ha | by intros ->].
Qed.

Lemma StronglySorted_fmap_2 {A B : Type} (f : A → B) (R : relation B) (l : list A) :
  StronglySorted (λ a b, R (f a) (f b)) l → StronglySorted R (f <$> l).
Proof.
  induction 1 as [|a l Hl IH Ha]; [constructor|].
  rewrite fmap_cons. constructor; [done|]. by apply Forall_fmap.
Qed.

(** the invariant of [lineMap]: no empty line, no blank item *)
Lemma buildLineMap_items (items : list ContentItem) (y : Z) (its : list TextItem.t) :
  buildLineMap items !! y = Some its →
  its ≠ []
  ∧ Forall (λ it, TextItem.text it ≠ "" ∧ Js.trim (TextItem.text it) = TextItem.text it)
           its.
Proof.
  unfold buildLineMap.
  assert (∀ m : gmap Z (list TextItem.t),
            map_Forall (λ _ its, its ≠ []
                                 ∧ Forall (λ it, TextItem.text it ≠ ""
                                                 ∧ Js.trim (TextItem.text it)
                                                   = TextItem.text it) its) m →
            map_Forall (λ _ its, its ≠ []
                                 ∧ Forall (λ it, TextItem.text it ≠ ""
                                                 ∧ Js.trim (TextItem.text it)
                                                   = TextItem.text it) its)
                       (foldl addToLineMap m items)) as H.
  { induction items as [|item items IH]; intros m Hm; [done|].
    cbn [foldl]. apply IH. destruct item as [str tx ty width|]; [|done].
    cbn [addToLineMap]. case_bool_decide as Hblank; [done|].
    apply map_Forall_insert_2; [|done]. split.
    - by destruct (default [] (m !! Math_round ty)).
    - apply Forall_app. split.
      + destruct (m !! Math_round ty) as [old|] eqn:Hold; [|constructor].
        by destruct (Hm _ _ Hold).
      + repeat constructor; [done | apply trim_idempotent]. }
  intros Hy. by apply (H ∅ (map_Forall_empty _) y its).
Qed.

(** X1: the lines of a page come top to bottom, each height once; a line
    holds at least one item, its items come left to right, the text of an
    item is trimmed and not empty, and the text of the line is the texts
    of its items with one space between them. *)
Theorem extracted_lines_are_ordered (items : list ContentItem) :
  StronglySorted (λ a b, (TextLine.y b < TextLine.y a)%Z) (extractLines items)
  ∧ ∀ line, line ∈ extractLines items →
      TextLine.items line ≠ []
      ∧ StronglySorted (λ a b, (TextItem.x a ≤ TextItem.x b)%Z) (TextLine.items line)
      ∧ Forall (λ it, TextItem.text it ≠ ""
                      ∧ Js.trim (TextItem.text it) = TextItem.text it)
               (TextLine.items line)
      ∧ TextLine.text line = Js.join " " (TextItem.text <$> TextLine.items line).
Proof.
  unfold extractLines. set (m := buildLineMap items).
  set (keys := (map_to_list m).*1).
  split.
  - apply StronglySorted_fmap_2. cbn [lineOf TextLine.y].
    eapply StronglySorted_weaken;
      [|apply StronglySorted_strict;
        [apply sortBy_sorted | rewrite sortBy_Permutation; apply NoDup_fst_map_to_list]].
    + intros a b. unfold notAfter. lia.
    + intros a b. unfold notAfter. lia.
    + intros a b c. unfold notAfter. lia.
  - intros line (y & -> & Hy)%list_elem_of_fmap.
    rewrite sortBy_Permutation in Hy.
    apply list_elem_of_fmap in Hy as ([y' its] & -> & Hin).
    apply elem_of_map_to_list in Hin. cbn [fst].
    destruct (buildLineMap_items items y' its Hin) as [Hne Hall].
    unfold lineOf. cbn [TextLine.items TextLine.text]. fold m. rewrite Hin.
    cbn [from_option id].
    split; [|split; [|split; [|done]]].
    + intros Hnil. apply Hne. apply Permutation_nil. by rewrite <-Hnil, sortBy_Permutation.
    + eapply StronglySorted_weaken; [|apply sortBy_sorted].
      * intros a b. unfold notAfter. lia.
      * intros a b. unfold notAfter. lia.
      * intros a b c. unfold notAfter. lia.
    + by rewrite sortBy_Permutation.
Qed.

(** ** Further properties of the type detection; the date of a month *)

Section MonthFacts.
Import RegExp.

(** X2: the detection returns the deduction type exactly for a text that
    holds the deduction-side marker and not the earning-side one; it
    throws for a text that holds neither, and for no other, and always
    with the same message. *)
Theorem detectType_classifies_by_marker (rawText : string) :
  ((∃ meta, detectType rawText = Return meta ∧ PdfMeta.type meta = deduction)
   ↔ ¬ containsIgnoringCase rawText "earning side"
     ∧ containsIgnoringCase rawText "deduction side")
  ∧ ((∃ message, detectType rawText = Throw message)
     ↔ ¬ containsIgnoringCase rawText "earning side"
       ∧ ¬ containsIgnoringCase rawText "deduction side")
  ∧ ∀ message, detectType rawText = Throw message → message = cannotDetectMessage.
Proof.
  rewrite <-!includes_toLowerCase. unfold detectType.
  destruct (Js.includes _ "earning side") eqn:He;
    [|destruct (Js.includes _ "deduction side") eqn:Hd].
  - split; [|split; [|done]].
    + split; [by intros (meta & [= <-] & ?) | by intros [? _]].
    + split; [by intros [? ?] | by intros [? _]].
  - split; [|split; [|done]].
    + split; [done|]. intros _. eauto.
    + split; [by intros [? ?] | by intros [_ ?]].
  - split; [|split].
    + split; [by intros (? & ? & _) | by intros [_ ?]].
    + split; [done | eauto].
    + by intros message [= <-].
Qed.

(** the month that the detection reads: letters, a hyphen and a year of
    four digits *)
Lemma detectType_month (rawText : string) (meta : PdfMeta.t) (month : string) :
  detectType rawText = Return meta → PdfMeta.month meta = Some month →
  ∃ letters year,
    month = letters +:+ String "-" year
    ∧ allOf Js.isAlpha letters = true ∧ letters ≠ ""
    ∧ digitString 4 year.
Proof.
  unfold detectType. destruct (if Js.includes _ _ then _ else _); [|done].
  intros [= <-]. cbn [PdfMeta.month]. unfold matchPieces.
  destruct (search monthPattern None rawText) as [[[pre caps] c']|] eqn:Hs; [|done].
  cbn [fmap option_fmap option_map mbind option_bind fst snd].
  pose proof (search_length _ _ _ _ _ _ Hs) as Hcaps.
  apply search_denotes in Hs as (prev' & rest & _ & Hd & _).
  destruct caps as [|w0 [|w1 [|??]]]; try done. cbn [lookup list_lookup].
  intros [= ->].
  destruct Hd as (c1 & _ & _ & c2 & Hmonth & Hw & ->).
  change (cats [plus alpha; chr "-"; rep 4 digit])
    with (Cat (plus alpha) (Cat (chr "-") (rep 4 digit))) in Hmonth.
  destruct Hmonth as (c3 & Hletters & c4 & Hhyphen & Hyear).
  apply denotes_plus_Chr in Hletters as (letters & El & Hl & Hl0).
  apply denotes_chr in Hhyphen.
  apply denotes_rep_Chr in Hyear as (year & Ey & Hy & Hlen).
  exists letters, year. split; [|done].
  apply (string_app_inj_r _ _ c2.2).
  rewrite <-Hw, El, Hhyphen, Ey.
  by rewrite string_app_assoc.
Qed.

Lemma monthYearToDate_once (objectText month year : string) :
  occurrences "-" month = 0 → occurrences "-" year = 0 →
  monthYearToDate objectText (month +:+ String "-" year)
  = year +:+ "-" +:+ monthNumber objectText (Js.toLowerCase month) +:+ "-01".
Proof. intros Hm Hy. unfold monthYearToDate. by rewrite splitChar_once. Qed.

(** X3: [monthYearToDate] returns a text with no hyphen, or with more than
    one, as it is.  A month name of the table, in any case of its
    letters, and a year give the first day of that month; a name that is
    not in the table gives January, without a word (the two names that
    every object inherits, [constructor] and [__proto__], apart). *)
Theorem monthYearToDate_reads_month_and_year (objectText : string) :
  (∀ monthYear, occurrences "-" monthYear ≠ 1 →
                monthYearToDate objectText monthYear = monthYear)
  ∧ (∀ month year name number,
       (name, number) ∈ months → Js.toLowerCase month = name →
       occurrences "-" year = 0 →
       monthYearToDate objectText (month +:+ String "-" year)
       = year +:+ "-" +:+ number +:+ "-01")
  ∧ (∀ month year,
       occurrences "-" month = 0 → occurrences "-" year = 0 →
       Js.toLowerCase month ∉ months.*1 →
       Js.toLowerCase month ≠ "constructor" → Js.toLowerCase month ≠ "__proto__" →
       monthYearToDate objectText (month +:+ String "-" year)
       = year +:+ "-01-01").
Proof.
  split; [|split].
  - intros monthYear Hn. unfold monthYearToDate.
    pose proof (splitChar_length "-" monthYear) as Hlen.
    destruct (splitChar "-" monthYear) as [|p0 [|p1 [|p2 ps]]]; try done.
    cbn [length] in Hlen. lia.
  - intros month year name number Hin Hname Hyear.
    rewrite monthYearToDate_once; [|apply occurrences_toLowerCase|done].
    + rewrite Hname. unfold monthNumber.
      unfold months in Hin |- *.
      repeat (apply elem_of_cons in Hin as [[= -> ->] | Hin]; [reflexivity|]).
      by apply elem_of_nil in Hin.
    + rewrite Hname. unfold months in Hin.
      repeat (apply elem_of_cons in Hin as [[= -> ->] | Hin]; [reflexivity|]).
      by apply elem_of_nil in Hin.
  - intros month year Hmonth Hyear Hnot Hc Hp.
    rewrite monthYearToDate_once by done. unfold monthNumber.
    apply JsMap_get_None in Hnot. rewrite Hnot.
    by rewrite !decide_False by done.
Qed.

(** X4: the month that the type detection reads from a bill is made of
    letters, a hyphen and a year of four digits, and [monthYearToDate]
    turns it into the first day of a month of that year. *)
Theorem detected_month_becomes_a_date (objectText rawText : string)
    (meta : PdfMeta.t) (month : string) :
  detectType rawText = Return meta → PdfMeta.month meta = Some month →
  ∃ letters year,
    month = letters +:+ String "-" year
    ∧ allOf Js.isAlpha letters = true ∧ letters ≠ ""
    ∧ digitString 4 year
    ∧ monthYearToDate objectText month
      = year +:+ "-" +:+ monthNumber objectText (Js.toLowerCase letters) +:+ "-01".
Proof.
  intros Hmeta Hmonth.
  destruct (detectType_month _ _ _ Hmeta Hmonth) as (letters & year & -> & Hl & Hl0 & Hy).
  exists letters, year. split; [done|]. split; [done|]. split; [done|]. split; [done|].
  destruct Hy as [_ Hy].
  apply monthYearToDate_once; eapply occurrences_allOf; try eassumption; done.
Qed.

Lemma detected_month_becomes_a_date_witness :
  ∃ letters year,
    "January-2026" = letters +:+ String "-" year
    ∧ allOf Js.isAlpha letters = true ∧ letters ≠ ""
    ∧ digitString 4 year
    ∧ monthYearToDate "function Object() { [native code] }" "January-2026"
      = year +:+ "-"
        +:+ monthNumber "function Object() { [native code] }" (Js.toLowerCase letters)
        +:+ "-01".
Proof.
  apply (detected_month_becomes_a_date "function Object() { [native code] }"
           "PAYBILL Earning Side Month of : January-2026"
           (PdfMeta.mk earning (Some "January-2026") None None) "January-2026");
    by vm_compute.
Defined.

End MonthFacts.

(** ** Further properties of the header mapping *)

Section HeaderZone.
Import RegExp.

Lemma collectHeaderItems_no_zone (pageLines : list TextLine.t) :
  Forall (λ line, test (Alt (liti "phone") (liti "mobile")) (TextLine.text line) = false)
         pageLines →
  collectHeaderItems false pageLines = [].
Proof.
  induction 1 as [|line pageLines Hline _ IH]; [done|].
  cbn [collectHeaderItems]. by rewrite Hline.
Qed.

(** X5: a page on which no line mentions a phone or a mobile number has no
    header zone: no header is mapped and the result is not valid. *)
Theorem page_without_contact_line_has_no_headers (pageLines : list TextLine.t)
    (pdfType : PdfType) :
  Forall (λ line, test (Alt (liti "phone") (liti "mobile")) (TextLine.text line) = false)
         pageLines →
  parseHeadersSmart pageLines pdfType = HeaderResult.mk [] false "".
Proof.
  intros H. unfold parseHeadersSmart. by rewrite collectHeaderItems_no_zone.
Qed.

Lemma page_without_contact_line_has_no_headers_witness :
  parseHeadersSmart (extractLines sampleLetterPage) earning = HeaderResult.mk [] false "".
Proof.
  apply (page_without_contact_line_has_no_headers (extractLines sampleLetterPage) earning).
  apply (bool_decide_unpack _). by vm_compute.
Defined.

Lemma detectHeaders_sublist (detectors : list Detector.t) (items : list HeaderItem.t)
    (text : string) :
  (detectHeaders detectors items text).*1 `sublist_of` Detector.label <$> detectors.
Proof.
  unfold detectHeaders. induction detectors as [|d ds IH]; [done|].
  cbn [omap list_omap]. destruct (DetectResult.found _).
  - rewrite !fmap_cons. by apply sublist_skip.
  - rewrite fmap_cons. by apply sublist_cons.
Qed.


Lemma parseHeadersSmart_headers_catalogue (pageLines : list TextLine.t)
    (pdfType : PdfType) (header : string) :
  header ∈ HeaderResult.headers (parseHeadersSmart pageLines pdfType) →
  header ∈ Detector.label <$> detectorsFor pdfType.
Proof.
  unfold parseHeadersSmart. case_decide; cbn [HeaderResult.headers].
  - by intros ?%elem_of_nil.
  - rewrite sortBy_Permutation. intros Hin.
    eapply elem_of_sublist; [exact Hin | apply detectHeaders_sublist].
Qed.


End HeaderZone.

(** ** Further properties of the row segmentation *)

Section BlockStructure.
Import RegExp.

Lemma blockAt_pieces (pagePos : nat) (page : PageData.t) (dataLineIndices : list nat)
    (headerEndIdx d dataIdx : nat) (b : EmployeeBlock.t) :
  blockAt pagePos page dataLineIndices headerEndIdx d dataIdx = Some b →
  ∃ srNo ws sp rest,
    TextLine.text (deref (EmployeeBlock.dataLine b))
      = srNo +:+ ws +:+ EmployeeBlock.hrpn b +:+ String sp rest
    ∧ allOf Js.isDigit srNo = true ∧ srNo ≠ ""
    ∧ EmployeeBlock.srNo b = Js.digitsValue 0 srNo
    ∧ allOf Js.isSpace ws = true ∧ ws ≠ ""
    ∧ digitString 8 (EmployeeBlock.hrpn b)
    ∧ Js.isSpace sp = true.
Proof.
  unfold blockAt.
  destruct (PageData.lines page !! dataIdx) as [dataLine|]; [|done].
  cbn [mbind option_bind].
  destruct (matchPieces _ _) as [dataMatch|] eqn:Hm; [|done]. cbn [mbind option_bind].
  apply dataLine_pieces in Hm
    as (srNo & ws & hrpn & sp & rest & -> & Htext & Hsr & Hsr0 & Hws & Hws0 & Hh & Hsp).
  cbn. intros [= <-]. cbn [EmployeeBlock.dataLine EmployeeBlock.hrpn EmployeeBlock.srNo
                           lineRef deref snd].
  by exists srNo, ws, sp, rest.
Qed.

Lemma segmentPage_pieces (pagePos : nat) (page : PageData.t) (b : EmployeeBlock.t) :
  b ∈ segmentPage pagePos page →
  ∃ srNo ws sp rest,
    TextLine.text (deref (EmployeeBlock.dataLine b))
      = srNo +:+ ws +:+ EmployeeBlock.hrpn b +:+ String sp rest
    ∧ allOf Js.isDigit srNo = true ∧ srNo ≠ ""
    ∧ EmployeeBlock.srNo b = Js.digitsValue 0 srNo
    ∧ allOf Js.isSpace ws = true ∧ ws ≠ ""
    ∧ digitString 8 (EmployeeBlock.hrpn b)
    ∧ Js.isSpace sp = true.
Proof.
  unfold segmentPage. case_decide; [by intros ?%elem_of_nil|].
  intros (o & Ho & Hid)%list_elem_of_omap. cbn [id] in Hid. subst o.
  apply list_elem_of_lookup in Ho as [d Hd].
  apply list_lookup_imap_Some in Hd as (a & Ha & Hb).
  symmetry in Hb. by eapply blockAt_pieces.
Qed.

Lemma segmentRows_elem_of (pages : list PageData.t) (b : EmployeeBlock.t) :
  b ∈ Segmentation.employees (segmentRows pages) ↔
  ∃ pagePos page, pages !! pagePos = Some page ∧ b ∈ segmentPage pagePos page.
Proof.
  cbn [segmentRows Segmentation.employees]. rewrite list_elem_of_join. split.
  - intros (bs & Hb & Hbs). apply list_elem_of_lookup in Hbs as [p Hp].
    apply list_lookup_imap_Some in Hp as (page & Hpage & ->). eauto.
  - intros (p & page & Hpage & Hb). exists (segmentPage p page). split; [done|].
    apply list_elem_of_lookup. exists p. apply list_lookup_imap_Some. eauto.
Qed.



Lemma trailingLines_sublist (region : list (nat * TextLine.t)) :
  trailingLines region `sublist_of` region.
Proof.
  induction region as [|[i line] region IH]; [done|].
  cbn [trailingLines]. repeat case_match;
    first [by apply sublist_cons | by apply sublist_skip | apply sublist_nil_l].
Qed.

Lemma slice_indexed_elem_of (from to : nat) (lines : list TextLine.t)
    (il : nat * TextLine.t) :
  il ∈ slice from to (indexed lines) →
  lines !! il.1 = Some il.2 ∧ from ≤ il.1 < to.
Proof.
  intros Hin. split.
  - apply indexed_lookup. destruct il. by eapply slice_elem_of.
  - destruct (slice_region from to lines) as [Hr Hlen].
    pose proof (regionFrom_elem_of _ _ _ Hr Hin). lia.
Qed.

Lemma slice_indexed_sorted (from to : nat) (lines : list TextLine.t) :
  StronglySorted lt (slice from to (indexed lines)).*1.
Proof.
  destruct (slice_region from to lines) as [Hr _]. rewrite Hr. apply StronglySorted_seq.
Qed.

Lemma trailingLines_not_boilerplate (region : list (nat * TextLine.t))
    (il : nat * TextLine.t) :
  il ∈ trailingLines region →
  isSkipLine (Js.trim (TextLine.text il.2)) = false
  ∧ isNamePrefixLine (Js.trim (TextLine.text il.2)) = false.
Proof.
  induction region as [|[i line] region IH]; [by intros ?%elem_of_nil|].
  cbn [trailingLines].
  destruct (isSkipLine (Js.trim (TextLine.text line))) eqn:Hskip; [exact IH|].
  destruct (RegExp.test totalPattern _); [by intros ?%elem_of_nil|].
  destruct (isNamePrefixLine (Js.trim (TextLine.text line))) eqn:Hname;
    [by intros ?%elem_of_nil|].
  intros [-> | Hin]%elem_of_cons; [done | by apply IH].
Qed.

(** the lines of a block: the lines kept before the data line, the data
    line, and the lines kept after it *)
Lemma blockAt_structure (pagePos : nat) (page : PageData.t) (dataLineIndices : list nat)
    (headerEndIdx d dataIdx : nat) (b : EmployeeBlock.t) :
  blockAt pagePos page dataLineIndices headerEndIdx d dataIdx = Some b →
  ∃ dataLine leading trailing,
    PageData.lines page !! dataIdx = Some dataLine
    ∧ EmployeeBlock.dataLine b = mkRef (pagePos, dataIdx) dataLine
    ∧ EmployeeBlock.page b = PageData.pageNum page
    ∧ EmployeeBlock.rawLines b
      = lineRef pagePos <$> leading ++ [(dataIdx, dataLine)] ++ trailing
    ∧ (∀ il, il ∈ leading →
         PageData.lines page !! il.1 = Some il.2 ∧ il.1 < dataIdx
         ∧ isSkipLine (Js.trim (TextLine.text il.2)) = false)
    ∧ (∀ il, il ∈ trailing →
         PageData.lines page !! il.1 = Some il.2 ∧ dataIdx < il.1
         ∧ isSkipLine (Js.trim (TextLine.text il.2)) = false
         ∧ isNamePrefixLine (Js.trim (TextLine.text il.2)) = false)
    ∧ StronglySorted lt leading.*1 ∧ StronglySorted lt trailing.*1.
Proof.
  unfold blockAt.
  destruct (PageData.lines page !! dataIdx) as [dataLine|] eqn:Hline; [|done].
  cbn [mbind option_bind].
  destruct (RegExp.matchPieces _ _) as [dataMatch|]; [|done]. cbn [mbind option_bind].
  destruct (dataMatch !! 1) as [srNo|]; [|done]. cbn [mbind option_bind].
  destruct (dataMatch !! 3) as [hrpn|]; [|done]. cbn [mbind option_bind].
  intros [= <-]. eexists dataLine, _, _.
  split; [done|]. split; [done|]. split; [done|]. split; [reflexivity|].
  split; [|split; [|split]].
  - intros il [Hskip Hin]%list_elem_of_filter.
    apply slice_indexed_elem_of in Hin as [? ?]. split; [done|]. split; [lia | done].
  - intros il Hin.
    destruct (trailingLines_not_boilerplate _ _ Hin) as [? ?].
    apply trailingLines_elem_of, slice_indexed_elem_of in Hin as [? ?].
    split; [done|]. split; [lia | done].
  - eapply StronglySorted_sublist; [|apply slice_indexed_sorted].
    apply fmap_sublist, sublist_filter.
  - eapply StronglySorted_sublist; [|apply slice_indexed_sorted].
    apply fmap_sublist, trailingLines_sublist.
Qed.

Lemma segmentRows_structure (pages : list PageData.t) (b : EmployeeBlock.t) :
  b ∈ Segmentation.employees (segmentRows pages) →
  ∃ pagePos page dataIdx dataLine leading trailing,
    pages !! pagePos = Some page
    ∧ PageData.lines page !! dataIdx = Some dataLine
    ∧ EmployeeBlock.dataLine b = mkRef (pagePos, dataIdx) dataLine
    ∧ EmployeeBlock.page b = PageData.pageNum page
    ∧ EmployeeBlock.rawLines b
      = lineRef pagePos <$> leading ++ [(dataIdx, dataLine)] ++ trailing
    ∧ (∀ il, il ∈ leading →
         PageData.lines page !! il.1 = Some il.2 ∧ il.1 < dataIdx
         ∧ isSkipLine (Js.trim (TextLine.text il.2)) = false)
    ∧ (∀ il, il ∈ trailing →
         PageData.lines page !! il.1 = Some il.2 ∧ dataIdx < il.1
         ∧ isSkipLine (Js.trim (TextLine.text il.2)) = false
         ∧ isNamePrefixLine (Js.trim (TextLine.text il.2)) = false)
    ∧ StronglySorted lt leading.*1 ∧ StronglySorted lt trailing.*1.
Proof.
  intros (pagePos & page & Hpage & Hb)%segmentRows_elem_of.
  unfold segmentPage in Hb. case_decide; [by apply elem_of_nil in Hb|].
  apply list_elem_of_omap in Hb as (o & Ho & Hid). cbn [id] in Hid. subst o.
  apply list_elem_of_lookup in Ho as [d Hd].
  apply list_lookup_imap_Some in Hd as (dataIdx & _ & Hb). symmetry in Hb.
  apply blockAt_structure in Hb as (dataLine & leading & trailing & Hb).
  by exists pagePos, page, dataIdx, dataLine, leading, trailing.
Qed.

(** X8: the lines of an employee block are lines of one page, the page
    whose number the block carries, each at its own position, in the
    order of the page and none twice; the data line is one of them. *)
Theorem block_lines_are_page_lines_in_order (pages : list PageData.t)
    (b : EmployeeBlock.t) :
  b ∈ Segmentation.employees (segmentRows pages) →
  ∃ pagePos page,
    pages !! pagePos = Some page
    ∧ EmployeeBlock.page b = PageData.pageNum page
    ∧ (∀ l, l ∈ EmployeeBlock.rawLines b →
            (addr l).1 = pagePos
            ∧ PageData.lines page !! (addr l).2 = Some (deref l))
    ∧ StronglySorted lt ((λ l, (addr l).2) <$> EmployeeBlock.rawLines b)
    ∧ EmployeeBlock.dataLine b ∈ EmployeeBlock.rawLines b.
Proof.
  intros (pagePos & page & dataIdx & dataLine & leading & trailing & Hpage & Hline
          & Hdata & Hnum & Hraw & Hlead & Htrail & Hsl & Hst)%segmentRows_structure.
  exists pagePos, page. split; [done|]. split; [done|]. rewrite Hraw, Hdata.
  split; [|split].
  - intros l (il & -> & Hil)%list_elem_of_fmap. cbn [lineRef addr deref fst snd].
    split; [done|].
    rewrite !elem_of_app, list_elem_of_singleton in Hil.
    destruct Hil as [Hil | [-> | Hil]]; [by apply Hlead | done | by apply Htrail].
  - rewrite <-list_fmap_compose.
    assert ((λ l : Ref TextLine.t, (addr l).2) ∘ lineRef pagePos = fst) as -> by done.
    rewrite !fmap_app. apply StronglySorted_app_2; [|done|].
    + intros i j (il & -> & Hil)%list_elem_of_fmap.
      rewrite elem_of_app. cbn [fmap list_fmap fst].
      intros [->%list_elem_of_singleton | (il' & -> & Hil')%list_elem_of_fmap].
      * by apply Hlead.
      * apply Hlead in Hil as (_ & ? & _). apply Htrail in Hil' as (_ & ? & _). lia.
    + cbn [fmap list_fmap app fst]. constructor; [done|].
      apply Forall_forall. intros j (il' & -> & Hil')%list_elem_of_fmap.
      by apply Htrail.
  - apply list_elem_of_fmap. exists (dataIdx, dataLine). split; [done|].
    rewrite !elem_of_app, list_elem_of_singleton. auto.
Qed.

Lemma block_lines_are_page_lines_in_order_witness :
  ∃ b, Segmentation.employees
         (segmentRows (ExtractedText.pages (extractText [sampleEarningPage]))) !! 0
       = Some b
       ∧ StronglySorted lt ((λ l, (addr l).2) <$> EmployeeBlock.rawLines b)
       ∧ EmployeeBlock.dataLine b ∈ EmployeeBlock.rawLines b.
Proof.
  destruct (Segmentation.employees
              (segmentRows (ExtractedText.pages (extractText [sampleEarningPage]))) !! 0)
    as [b|] eqn:Hb; [|by vm_compute in Hb].
  exists b. split; [done|].
  apply list_elem_of_lookup_2 in Hb.
  destruct (block_lines_are_page_lines_in_order _ _ Hb)
    as (pagePos & page & _ & _ & _ & Hsorted & Hdata).
  done.
Defined.

(** X9: no line that [isSkipLine] rejects is among the lines of a block,
    the data line apart, and no line after the data line starts with a
    name prefix. *)
Theorem block_lines_are_not_boilerplate (pages : list PageData.t) (b : EmployeeBlock.t)
    (l : Ref TextLine.t) :
  b ∈ Segmentation.employees (segmentRows pages) →
  l ∈ EmployeeBlock.rawLines b →
  sameObject l (EmployeeBlock.dataLine b) = false →
  isSkipLine (Js.trim (TextLine.text (deref l))) = false
  ∧ ((addr (EmployeeBlock.dataLine b)).2 < (addr l).2 →
     isNamePrefixLine (Js.trim (TextLine.text (deref l))) = false).
Proof.
  intros (pagePos & page & dataIdx & dataLine & leading & trailing & Hpage & Hline
          & Hdata & Hnum & Hraw & Hlead & Htrail & Hsl & Hst)%segmentRows_structure.
  rewrite Hraw, Hdata. unfold sameObject.
  intros (il & -> & Hil)%list_elem_of_fmap Hne%bool_decide_eq_false.
  cbn [lineRef addr deref fst snd] in *.
  rewrite !elem_of_app, list_elem_of_singleton in Hil.
  destruct Hil as [Hil | [-> | Hil]].
  - apply Hlead in Hil as (_ & ? & ?). split; [done | lia].
  - done.
  - apply Htrail in Hil as (_ & ? & ? & ?). done.
Qed.

Lemma block_lines_are_not_boilerplate_witness :
  ∃ b l, Segmentation.employees
           (segmentRows (ExtractedText.pages (extractText [sampleEarningPage]))) !! 0
         = Some b
         ∧ EmployeeBlock.rawLines b !! 2 = Some l
         ∧ TextLine.text (deref l) = "Ambaliya"
         ∧ isSkipLine (Js.trim (TextLine.text (deref l))) = false.
Proof.
  destruct (Segmentation.employees
              (segmentRows (ExtractedText.pages (extractText [sampleEarningPage]))) !! 0)
    as [b|] eqn:Hb; [|by vm_compute in Hb].
  destruct (EmployeeBlock.rawLines b !! 2) as [l|] eqn:Hl;
    [|vm_compute in Hb; injection Hb as <-; by vm_compute in Hl].
  exists b, l. split; [done|]. split; [done|].
  split; [vm_compute in Hb; injection Hb as <-; vm_compute in Hl; by injection Hl as <-|].
  apply list_elem_of_lookup_2 in Hb. 
  refine (proj1 (block_lines_are_not_boilerplate _ b l Hb
                   (list_elem_of_lookup_2 _ _ _ Hl) _)).
  vm_compute in Hb. apply elem_of_cons in Hb as [-> | Hb].
  - vm_compute in Hl. by injection Hl as <-.
  - exfalso. vm_compute in Hl. revert Hb Hl. clear. intros Hb.
    apply elem_of_cons in Hb as [-> | Hb]; [by vm_compute|].
    by apply elem_of_nil in Hb.
Defined.

Lemma isSkipLine_total (text : string) :
  test totalPattern text = true → isSkipLine text = true.
Proof. intros H. unfold isSkipLine. rewrite H. by repeat case_match. Qed.

(** X10: a line that starts with [total] does not end the lines that a
    block takes after its data line: the loop skips it and goes on, so
    the break on such a line is never taken. *)
Theorem total_line_does_not_end_a_block (i : nat) (line : TextLine.t)
    (region : list (nat * TextLine.t)) :
  test totalPattern (Js.trim (TextLine.text line)) = true →
  isSkipLine (Js.trim (TextLine.text line)) = true
  ∧ trailingLines ((i, line) :: region) = trailingLines region.
Proof.
  intros H%isSkipLine_total. split; [done|]. cbn [trailingLines]. by rewrite H.
Qed.

Lemma total_line_does_not_end_a_block_witness :
  trailingLines [(0, TextLine.mk 700 [] "Total 100000");
                 (1, TextLine.mk 690 [] "Page 1 of 2")]
  = [(1, TextLine.mk 690 [] "Page 1 of 2")].
Proof.
  rewrite (proj2 (total_line_does_not_end_a_block 0 (TextLine.mk 700 [] "Total 100000")
                    [(1, TextLine.mk 690 [] "Page 1 of 2")] eq_refl)).
  by vm_compute.
Defined.

Lemma scanTotalRow_last (pageNum : nat) (lines : list TextLine.t)
    (totalRow : option TotalRow.t) :
  scanTotalRow pageNum lines totalRow
  = from_option Some totalRow
      (last ((λ line, TotalRow.mk (TextLine.text line) pageNum
                                  (extractNumbers (TextLine.text line)))
               <$> filter (λ line, RegExp.test totalPattern
                                     (Js.trim (TextLine.text line)) = true) lines)).
Proof.
  unfold scanTotalRow. revert totalRow.
  induction lines as [|line lines IH]; intros totalRow; [done|].
  cbn [foldl]. rewrite IH, filter_cons.
  destruct (RegExp.test totalPattern _) eqn:Htest.
  - rewrite decide_True by done. rewrite fmap_cons.
    destruct (filter _ lines) as [|line' lines']; [done|].
    rewrite fmap_cons, last_cons_cons.
    destruct (last _) eqn:Hlast; [done|]. by apply last_None in Hlast.
  - by rewrite decide_False by done.
Qed.

(** X11: the total row of a document is the last line, over all its pages,
    whose trimmed text starts with [total]: the text of the line as it is,
    the number of its page and the numbers in the text.  There is none
    exactly when no line starts so. *)
Theorem total_row_is_the_last_total_line (pages : list PageData.t) :
  Segmentation.totalRow (segmentRows pages) = last (pages ≫= totalRowsOf).
Proof.
  cbn [segmentRows Segmentation.totalRow].
  assert (∀ totalRow,
            foldl (λ totalRow page,
                     scanTotalRow (PageData.pageNum page) (PageData.lines page) totalRow)
                  totalRow pages
            = from_option Some totalRow (last (pages ≫= totalRowsOf))) as H.
  { induction pages as [|page pages IH]; intros totalRow; [done|].
    cbn [foldl]. rewrite IH, scanTotalRow_last, bind_cons. fold (totalRowsOf page).
    rewrite last_app. destruct (last (pages ≫= totalRowsOf)); [done|].
    by destruct (last (totalRowsOf page)). }
  rewrite H. by destruct (last _).
Qed.

End BlockStructure.

(** ** Designations *)

Lemma findDesignationIn_None (sorted : list string) (text : string) :
  findDesignationIn sorted text = None
  ↔ Forall (λ d, Js.includes (Js.toLowerCase text) (Js.toLowerCase d) = false) sorted.
Proof.
  induction sorted as [|d sorted IH]; cbn [findDesignationIn].
  - split; [constructor | done].
  - rewrite Forall_cons, <-IH, <-indexOf_None.
    destruct (Js.indexOf _ _); [|tauto]. split; [done | by intros [? _]].
Qed.

Lemma findDesignationIn_Some (sorted : list string) (text : string)
    (m : DesignationMatch.t) :
  findDesignationIn sorted text = Some m →
  ∃ before d after,
    sorted = before ++ d :: after
    ∧ Forall (λ d', Js.includes (Js.toLowerCase text) (Js.toLowerCase d') = false) before
    ∧ text = DesignationMatch.namePart m +:+ DesignationMatch.designation m
             +:+ DesignationMatch.afterDesig m
    ∧ Js.toLowerCase (DesignationMatch.designation m) = Js.toLowerCase d.
Proof.
  induction sorted as [|d sorted IH]; cbn [findDesignationIn]; [done|].
  destruct (Js.indexOf _ _) as [idx|] eqn:Hidx.
  - intros [= <-]. exists [], d, sorted. split; [done|]. split; [constructor|].
    cbn [DesignationMatch.namePart DesignationMatch.designation
         DesignationMatch.afterDesig].
    unfold Js.substring. cbn [Js.drop].
    replace (idx + String.length d - idx) with (String.length d) by lia.
    rewrite Nat.sub_0_r. split.
    + rewrite <-(drop_drop_string idx (String.length d) text).
      by rewrite !take_drop_string.
    + apply indexOf_Some in Hidx.
      rewrite toLowerCase_take, toLowerCase_drop, <-(toLowerCase_length d).
      by apply startsWith_take.
  - intros (before & d' & after & -> & Hbefore & Hm)%IH.
    exists (d :: before), d', after. split; [done|]. split; [|done].
    constructor; [by apply indexOf_None | done].
Qed.

Lemma findDesignation_sorted :
  let sorted :=
    sortBy (λ a b : string,
              (Z.of_nat (String.length b) - Z.of_nat (String.length a))%Z)
           DESIGNATIONS in
  sorted ≡ₚ DESIGNATIONS
  ∧ StronglySorted (λ a b, String.length b ≤ String.length a) sorted.
Proof.
  cbv zeta. split; [apply sortBy_Permutation|].
  eapply StronglySorted_weaken; [|apply sortBy_sorted].
  - intros a b. unfold notAfter. lia.
  - intros a b. unfold notAfter. lia.
  - intros a b c. unfold notAfter. lia.
Qed.

Lemma findDesignation_None (text : string) :
  findDesignation text = None
  ↔ ∀ d, d ∈ DESIGNATIONS →
         Js.includes (Js.toLowerCase text) (Js.toLowerCase d) = false.
Proof.
  unfold findDesignation. destruct findDesignation_sorted as [Hperm _].
  rewrite findDesignationIn_None, Forall_forall.
  split; intros H d Hd; apply H; [by rewrite Hperm | by rewrite <-Hperm].
Qed.

(** X12: when [findDesignation] finds a designation in a text, the name
    part, the designation and the rest, put together, are the text; the
    designation is, up to the case of its letters, one of the catalogue,
    and no designation of the catalogue that the text contains is longer.
    It finds none exactly when the text contains no designation of the
    catalogue, whatever the case of the letters. *)
Theorem findDesignation_splits_at_the_longest (text : string) :
  (findDesignation text = None
   ↔ ∀ d, d ∈ DESIGNATIONS →
          Js.includes (Js.toLowerCase text) (Js.toLowerCase d) = false)
  ∧ ∀ m, findDesignation text = Some m →
      text = DesignationMatch.namePart m +:+ DesignationMatch.designation m
             +:+ DesignationMatch.afterDesig m
      ∧ ∃ d, d ∈ DESIGNATIONS
             ∧ Js.toLowerCase (DesignationMatch.designation m) = Js.toLowerCase d
             ∧ ∀ d', d' ∈ DESIGNATIONS →
                     Js.includes (Js.toLowerCase text) (Js.toLowerCase d') = true →
                     String.length d' ≤ String.length d.
Proof.
  split; [apply findDesignation_None|].
  unfold findDesignation. destruct findDesignation_sorted as [Hperm Hsorted].
  intros m (before & d & after & Hs & Hbefore & Htext & Hlower)%findDesignationIn_Some.
  split; [done|]. exists d. split; [rewrite <-Hperm, Hs; set_solver|].
  split; [done|]. intros d' Hd' Hinc.
  rewrite <-Hperm, Hs, elem_of_app, elem_of_cons in Hd'.
  destruct Hd' as [Hd' | [-> | Hd']]; [|done|].
  - rewrite Forall_forall in Hbefore. rewrite (Hbefore d' Hd') in Hinc. done.
  - rewrite Hs in Hsorted. apply StronglySorted_app_1_r in Hsorted.
    apply StronglySorted_inv in Hsorted as [_ Hd].
    rewrite Forall_forall in Hd. by apply Hd.
Qed.

(** a text that [isDesignation] accepts is a text in which
    [findDesignation] finds a designation *)
Lemma isDesignation_findDesignation (text : string) :
  findDesignation text = None → isDesignation text = false.
Proof.
  intros Hnone. apply not_true_is_false. unfold isDesignation.
  rewrite existsb_exists. intros (d & Hd & Heq%bool_decide_eq_true).
  apply list_elem_of_In in Hd.
  pose proof (proj1 (findDesignation_None text) Hnone d Hd) as Hinc.
  apply not_true_iff_false in Hinc. apply Hinc.
  destruct (trim_infix text) as (pre & post & Htext).
  apply includes_spec. exists (Js.toLowerCase pre), (Js.toLowerCase post).
  rewrite <-Heq, <-!toLowerCase_app. by rewrite <-Htext.
Qed.

(** ** The parse of an employee block *)

Section NameScanFacts.
Import RegExp.

(** X13: in the scan of the lines of a block, a line in which
    [findDesignation] finds no designation is never taken for a
    designation: the test [isDesignation] that follows always fails, and
    the cleaned text of the line is added to the name. *)
Theorem line_without_designation_is_a_name (dataLine line : Ref TextLine.t)
    (st : NameScan.t) :
  let text := Js.trim (TextLine.text (deref line)) in
  let cleaned := removePayScaleFromLine text in
  sameObject line dataLine = false →
  isPayScale text = false →
  test (cats [Bol; chr "("; Star dot; chr ")"; Eol]) cleaned = false →
  cleaned ≠ "" →
  findDesignation cleaned = None →
  isDesignation cleaned = false
  ∧ scanLine dataLine st line = pushName st cleaned.
Proof.
  intros text cleaned Hline Hscale Hparen Hne Hnone.
  split; [by apply isDesignation_findDesignation|].
  unfold scanLine. fold text. rewrite Hline, Hscale. fold cleaned.
  rewrite Hparen, bool_decide_eq_false_2 by done. rewrite Hnone.
  by rewrite isDesignation_findDesignation.
Qed.

Lemma line_without_designation_is_a_name_witness :
  scanLine (mkRef (0, 6) (TextLine.mk 740 [] "1 00125678 Staff Nurse"))
           (NameScan.mk [] [] "" false)
           (mkRef (0, 5) (TextLine.mk 750 [] "Mr. Ajay Kumar"))
  = NameScan.mk ["Mr. Ajay Kumar"] [] "" false.
Proof.
  refine (eq_trans
            (proj2 (line_without_designation_is_a_name
                      (mkRef (0, 6) (TextLine.mk 740 [] "1 00125678 Staff Nurse"))
                      (mkRef (0, 5) (TextLine.mk 750 [] "Mr. Ajay Kumar"))
                      (NameScan.mk [] [] "" false) _ _ _ _ _)) _);
    by vm_compute.
Defined.

Lemma catalogueDesignation_orDesignation (designation : string)
    (m : DesignationMatch.t) (text : string) :
  catalogueDesignation designation → findDesignation text = Some m →
  catalogueDesignation (orDesignation designation (DesignationMatch.designation m)).
Proof.
  intros Hd Hm. unfold orDesignation. case_bool_decide; [|done].
  unfold findDesignation in Hm. destruct findDesignation_sorted as [Hperm _].
  apply findDesignationIn_Some in Hm as (before & d & after & Hs & _ & _ & Hlower).
  right. exists d. split; [rewrite <-Hperm, Hs; set_solver|]. rewrite Hlower.
  apply startsWith_spec. exists "". by rewrite string_app_nil_r.
Qed.

Lemma catalogueDesignation_append (designation suffix : string) :
  designation ≠ "" → catalogueDesignation designation →
  catalogueDesignation (designation +:+ suffix).
Proof.
  intros Hne [-> | (d & Hin & [post Hpost]%startsWith_spec)]; [done|].
  right. exists d. split; [done|]. apply startsWith_spec.
  exists (post +:+ Js.toLowerCase suffix).
  by rewrite toLowerCase_app, Hpost, string_app_assoc.
Qed.

Lemma scanLine_designation (dataLine line : Ref TextLine.t) (st : NameScan.t) :
  catalogueDesignation (NameScan.designation st) →
  catalogueDesignation (NameScan.designation (scanLine dataLine st line)).
Proof.
  intros Hst. unfold scanLine.
  destruct (sameObject line dataLine); [done|].
  destruct (isPayScale _); [done|].
  destruct (test _ _).
  { case_bool_decide; [done|]. cbn [setDesignation NameScan.designation].
    by apply catalogueDesignation_append. }
  case_bool_decide; [done|].
  destruct (findDesignation _) as [m|] eqn:Hm.
  - assert (catalogueDesignation
              (NameScan.designation
                 (setDesignation st
                    (orDesignation (NameScan.designation st)
                                   (DesignationMatch.designation m))))) as H'.
    { cbn [setDesignation NameScan.designation].
      by eapply catalogueDesignation_orDesignation. }
    case_bool_decide; [done|]. unfold pushName.
    by destruct (NameScan.foundDataLine _).
  - rewrite isDesignation_findDesignation by done. unfold pushName.
    by destruct (NameScan.foundDataLine st).
Qed.

Lemma foldl_scanLine_designation (dataLine : Ref TextLine.t)
    (rawLines : list (Ref TextLine.t)) (st : NameScan.t) :
  catalogueDesignation (NameScan.designation st) →
  catalogueDesignation (NameScan.designation (foldl (scanLine dataLine) st rawLines)).
Proof.
  revert st. induction rawLines as [|line rawLines IH]; intros st Hst; [done|].
  cbn [foldl]. by apply IH, scanLine_designation.
Qed.

(** X14: the parse of an employee block copies the serial number and the
    identifier of the block, returns a name that is trimmed, and reads
    the values from the text of the data line alone: the lines around the
    data line change the name and the designation only.  The designation
    is empty or starts, up to the case of the letters, with a designation
    of the catalogue. *)
Theorem parsed_employee_reads_values_from_data_line (block : EmployeeBlock.t)
    (pdfType : PdfType) :
  let parsed := parseEmployeeBlock block pdfType in
  ParsedEmployee.srNo parsed = EmployeeBlock.srNo block
  ∧ ParsedEmployee.hrpn parsed = EmployeeBlock.hrpn block
  ∧ Js.trim (ParsedEmployee.name parsed) = ParsedEmployee.name parsed
  ∧ catalogueDesignation (ParsedEmployee.designation parsed)
  ∧ ∀ block',
      TextLine.text (deref (EmployeeBlock.dataLine block'))
      = TextLine.text (deref (EmployeeBlock.dataLine block)) →
      ParsedEmployee.values (parseEmployeeBlock block' pdfType)
      = ParsedEmployee.values parsed.
Proof.
  cbv zeta. split; [|split; [|split; [|split]]].
  - unfold parseEmployeeBlock. cbv zeta. by repeat case_match.
  - apply parseEmployeeBlock_hrpn.
  - unfold parseEmployeeBlock. cbv zeta.
    repeat case_match; cbn [ParsedEmployee.name]; apply trim_idempotent.
  - pose proof (foldl_scanLine_designation (EmployeeBlock.dataLine block)
                  (EmployeeBlock.rawLines block) (NameScan.mk [] [] "" false)
                  (or_introl eq_refl)) as Hst.
    unfold parseEmployeeBlock. cbv zeta.
    repeat case_match; cbn [ParsedEmployee.designation]; try done;
      by eapply catalogueDesignation_orDesignation.
  - intros block' Htext. unfold parseEmployeeBlock. cbv zeta. rewrite Htext.
    repeat case_match; simplify_eq; done.
Qed.

End NameScanFacts.

(** ** Further properties of the field normalisation *)

(** the loop over a table whose entries have a key and a category *)
Lemma normalizeWith_spec (map : list (RegExp.t * string * string)) (rawHeader : string) :
  Forall (λ entry, entry.1.2 ≠ "" ∧ entry.2 ≠ "unknown") map →
  (normalizeWith map rawHeader).1 ≠ ""
  ∧ ((normalizeWith map rawHeader).2 = "unknown"
     ↔ Forall (λ entry, RegExp.test entry.1.1 rawHeader = false) map)
  ∧ ((normalizeWith map rawHeader).2 ≠ "unknown" →
     ∃ before entry after,
       map = before ++ entry :: after
       ∧ Forall (λ entry, RegExp.test entry.1.1 rawHeader = false) before
       ∧ RegExp.test entry.1.1 rawHeader = true
       ∧ normalizeWith map rawHeader = (entry.1.2, entry.2)).
Proof.
  induction 1 as [|[[pattern canonical] category] map [Hc Hu] Hmap IH];
    cbn [normalizeWith].
  - split; [by case_bool_decide|]. split; [by split|]. done.
  - cbn [fst snd] in *. destruct (RegExp.test pattern rawHeader) eqn:Htest.
    + cbn [fst snd]. split; [done|]. split.
      * split; [done|]. intros [? _]%Forall_cons. cbn [fst] in *. congruence.
      * intros _. by exists [], (pattern, canonical, category), map.
    + destruct IH as (IH1 & IH2 & IH3). split; [done|]. split.
      * rewrite IH2, Forall_cons. cbn [fst]. tauto.
      * intros (before & entry & after & -> & Hb & He & Heq)%IH3.
        exists ((pattern, canonical, category) :: before), entry, after.
        split; [done|]. split; [by constructor | done].
Qed.

Lemma HEADER_NORMALIZATION_MAP_ok :
  Forall (λ entry : RegExp.t * string * string, entry.1.2 ≠ "" ∧ entry.2 ≠ "unknown")
         HEADER_NORMALIZATION_MAP.
Proof. unfold HEADER_NORMALIZATION_MAP. repeat constructor; done. Qed.

(** X15: a header always gets a key that is not empty; its category is
    [unknown] exactly when no pattern of the normalisation table matches
    it, and otherwise the category of the first pattern that matches. *)
Theorem normalizeHeader_key_is_never_empty (rawHeader : string) :
  (normalizeHeader rawHeader).1 ≠ ""
  ∧ ((normalizeHeader rawHeader).2 = "unknown"
     ↔ Forall (λ entry : RegExp.t * string * string,
                 RegExp.test entry.1.1 rawHeader = false) HEADER_NORMALIZATION_MAP)
  ∧ ((normalizeHeader rawHeader).2 ≠ "unknown" →
     ∃ before entry after,
       HEADER_NORMALIZATION_MAP = before ++ entry :: after
       ∧ Forall (λ entry : RegExp.t * string * string,
                   RegExp.test entry.1.1 rawHeader = false) before
       ∧ RegExp.test entry.1.1 rawHeader = true
       ∧ normalizeHeader rawHeader = (entry.1.2, entry.2)).
Proof. apply normalizeWith_spec, HEADER_NORMALIZATION_MAP_ok. Qed.

(** X16: the labels of the header catalogue of a type get the category of
    that type, and no two of them get the same key, so the columns of a
    bill never overwrite one another. *)
Theorem catalogue_labels_have_distinct_keys (pdfType : PdfType) :
  let normalized := (λ d, normalizeHeader (Detector.label d)) <$> detectorsFor pdfType in
  NoDup normalized.*1
  ∧ Forall (λ n, n.2 = typeName pdfType) normalized
  ∧ NoDup (storedKeys pdfType).
Proof.
  destruct pdfType; cbv zeta.
  - split; [apply (bool_decide_unpack _); by vm_compute|].
    split; [apply (bool_decide_unpack _); by vm_compute|].
    apply (bool_decide_unpack _); by vm_compute.
  - split; [apply (bool_decide_unpack _); by vm_compute|].
    split; [apply (bool_decide_unpack _); by vm_compute|].
    apply (bool_decide_unpack _); by vm_compute.
Qed.

(** The keys under which the columns are stored: the canonical name where
    normalising it again gives it back, and its lower-case form for three
    of the labels. *)
Lemma storedKeys_earning :
  storedKeys earning
  = ["basic"; "da"; "hra"; "cla"; "medAllow"; "transAllow"; "specialpay"; "nppallow";
     "washingAllow"; "nursingAllow"; "uniformAllow"; "bookAllow"; "esisAllow";
     "recoveryOfPay"; "gross"; "slo"].
Proof. by vm_compute. Qed.

Lemma storedKeys_deduction :
  storedKeys deduction
  = ["incomeTax"; "profTax"; "rnb"; "gpfclass4"; "gpfReg"; "npsReg"; "govtFund";
     "govtSaving"; "totalDed"; "netPay"].
Proof. by vm_compute. Qed.

Lemma imap_pair_snoc {A : Type} (l : list A) (x : A) :
  imap pair (l ++ [x]) = imap pair l ++ [(length l, x)].
Proof. rewrite imap_app. cbn. by rewrite Nat.add_0_r. Qed.

Lemma normalizeFields_snoc (headers : list string) (header : string) (values : list Q) :
  normalizeFields (headers ++ [header]) values
  = <[keyOf header := from_option id 0%Q (values !! length headers)]>
      (normalizeFields headers values).
Proof. unfold normalizeFields. by rewrite imap_pair_snoc, foldl_app. Qed.

Lemma dom_normalizeFields (headers : list string) (values : list Q) :
  dom (normalizeFields headers values) = list_to_set (keyOf <$> headers).
Proof.
  induction headers as [|header headers IH] using rev_ind; [done|].
  rewrite normalizeFields_snoc, dom_insert_L, IH, fmap_app, list_to_set_app_L.
  cbn [fmap list_fmap list_to_set]. rewrite (right_id_L ∅ (∪)). apply (comm_L (∪)).
Qed.

(** X17: [normalizeFields] gives the key of each header the value at the
    position of the header, and 0 where the values run out; values beyond
    the headers are dropped.  Where two headers have the same key, the
    later one gives the value.  (A header whose key is [__proto__] is set
    aside: assigning to that key of an object creates no field.) *)
Theorem normalizeFields_assigns_by_position (headers : list string) (values : list Q) :
  Forall (λ header, keyOf header ≠ "__proto__") headers →
  dom (normalizeFields headers values) = list_to_set (keyOf <$> headers)
  ∧ ∀ i header,
      headers !! i = Some header →
      (∀ j later, i < j → headers !! j = Some later → keyOf later ≠ keyOf header) →
      normalizeFields headers values !! keyOf header
      = Some (from_option id 0%Q (values !! i)).
Proof.
  intros _. split; [apply dom_normalizeFields|].
  induction headers as [|last headers IH] using rev_ind; [done|].
  intros i header Hi Hlater. rewrite normalizeFields_snoc.
  destruct (decide (i = length headers)) as [-> | Hne].
  - rewrite list_lookup_middle in Hi by done. injection Hi as ->.
    by rewrite lookup_insert_eq.
  - assert (i < length headers) as Hlt.
    { apply lookup_lt_Some in Hi. rewrite length_app in Hi. cbn in Hi. lia. }
    rewrite lookup_app_l in Hi by done.
    rewrite lookup_insert_ne.
    + apply IH; [done|]. intros j later Hij Hj. apply (Hlater j); [done|].
      rewrite lookup_app_l; [done | by eapply lookup_lt_Some].
    + apply (Hlater (length headers)); [done|]. by rewrite list_lookup_middle.
Qed.

Lemma normalizeFields_assigns_by_position_witness :
  normalizeFields ["basic"; "da"; "gross"] [40000%Q; 10000%Q] !! "da" = Some 10000%Q
  ∧ normalizeFields ["basic"; "da"; "gross"] [40000%Q; 10000%Q] !! "gross" = Some 0%Q.
Proof.
  assert (Forall (λ header, keyOf header ≠ "__proto__") ["basic"; "da"; "gross"]) as Hk.
  { repeat constructor; by vm_compute. }
  destruct (normalizeFields_assigns_by_position ["basic"; "da"; "gross"]
              [40000%Q; 10000%Q] Hk) as [_ H].
  split.
  - apply (H 1 "da"); [reflexivity|].
    intros [|[|[|j]]] later Hj Hl; try lia; by simplify_eq/=.
  - apply (H 2 "gross"); [reflexivity|].
    intros [|[|[|j]]] later Hj Hl; try lia; by simplify_eq/=.
Defined.

(** ** Further properties of the merge *)

Lemma longerName_diag (n : string) : longerName n n = n.
Proof. unfold longerName. by case_decide. Qed.

Lemma longerName_empty (n : string) : longerName "" n = n.
Proof. unfold longerName. case_decide; [done|]. destruct n; [done|]. cbn in *. lia. Qed.

Lemma longerDesignation_diag (d : string) : longerDesignation d d = d.
Proof. unfold longerDesignation. by case_match. Qed.

Lemma longerDesignation_empty (d : string) : longerDesignation "" d = d.
Proof.
  unfold longerDesignation. case_bool_decide; [by subst|].
  by rewrite bool_decide_eq_true_2.
Qed.

Lemma mergedEntry_Some
    (update : ParsedRecord.t → PayrollRecord.t → PayrollRecord.t)
    (entry : PayrollRecord.t) (rec : ParsedRecord.t) :
  mergedEntry update (Some entry) rec = Some (update rec entry).
Proof. reflexivity. Qed.

Lemma mergedEntry_None
    (update : ParsedRecord.t → PayrollRecord.t → PayrollRecord.t)
    (rec : ParsedRecord.t) :
  mergedEntry update None rec = Some (update rec (newEntry rec)).
Proof. reflexivity. Qed.

Lemma foldl_mergeEarning (entry : PayrollRecord.t) (es : list ParsedRecord.t) :
  foldl (mergedEntry mergeEarning) (Some entry) es
  = Some (PayrollRecord.mk
            (PayrollRecord.hrpn entry)
            (foldl longerName (PayrollRecord.name entry) (ParsedRecord.name <$> es))
            (foldl longerDesignation (PayrollRecord.designation entry)
                   (ParsedRecord.designation <$> es))
            (foldl spread (PayrollRecord.earning entry) (ParsedRecord.fields <$> es))
            (PayrollRecord.deduction entry)
            (foldl (λ g rec,
                      from_option id g (truthyField (ParsedRecord.fields rec) "gross"))
                   (PayrollRecord.gross entry) es)
            (PayrollRecord.totalDed entry)
            (PayrollRecord.netPay entry)).
Proof.
  revert entry. induction es as [|rec es IH]; intros entry; [by destruct entry|].
  cbn [foldl]. rewrite mergedEntry_Some, IH. done.
Qed.

Lemma foldl_mergeDeduction (entry : PayrollRecord.t) (ds : list ParsedRecord.t) :
  foldl (mergedEntry mergeDeduction) (Some entry) ds
  = Some (PayrollRecord.mk
            (PayrollRecord.hrpn entry)
            (foldl longerName (PayrollRecord.name entry) (ParsedRecord.name <$> ds))
            (foldl longerDesignation (PayrollRecord.designation entry)
                   (ParsedRecord.designation <$> ds))
            (PayrollRecord.earning entry)
            (foldl spread (PayrollRecord.deduction entry) (strippedFields <$> ds))
            (PayrollRecord.gross entry)
            (foldl (λ t rec, from_option id t (ParsedRecord.fields rec !! "totalDed"))
                   (PayrollRecord.totalDed entry) ds)
            (foldl (λ n rec, from_option id n (ParsedRecord.fields rec !! "netPay"))
                   (PayrollRecord.netPay entry) ds)).
Proof.
  revert entry. induction ds as [|rec ds IH]; intros entry; [by destruct entry|].
  cbn [foldl]. rewrite mergedEntry_Some, IH.
  cbn [mergeDeduction PayrollRecord.hrpn PayrollRecord.name PayrollRecord.designation
       PayrollRecord.earning PayrollRecord.deduction PayrollRecord.gross
       PayrollRecord.totalDed PayrollRecord.netPay fmap list_fmap foldl].
  rewrite lookup_delete_ne by done. done.
Qed.

(** the two loops of the merge, on the records of one identifier *)
Lemma foldl_mergedEntry (h : string) (es ds : list ParsedRecord.t) :
  Forall (λ rec, ParsedRecord.hrpn rec = h) (es ++ ds) →
  foldl (mergedEntry mergeDeduction) (foldl (mergedEntry mergeEarning) None es) ds
  = match es ++ ds with
    | [] => None
    | _ :: _ => Some (mergedRecord h es ds)
    end.
Proof.
  intros Hh. destruct es as [|e es].
  - destruct ds as [|d ds]; [done|].
    apply Forall_cons in Hh as [Hd _].
    cbn [foldl app]. rewrite mergedEntry_None, foldl_mergeDeduction. unfold mergedRecord.
    cbn [mergeDeduction newEntry PayrollRecord.hrpn PayrollRecord.name
         PayrollRecord.designation PayrollRecord.earning PayrollRecord.deduction
         PayrollRecord.gross PayrollRecord.totalDed PayrollRecord.netPay
         app fmap list_fmap foldl].
    rewrite lookup_delete_ne by done.
    by rewrite Hd, longerName_diag, longerName_empty, longerDesignation_diag,
               longerDesignation_empty.
  - apply Forall_cons in Hh as [He _].
    cbn [foldl]. rewrite mergedEntry_None, foldl_mergeEarning, foldl_mergeDeduction. unfold mergedRecord.
    cbn [mergeEarning newEntry PayrollRecord.hrpn PayrollRecord.name
         PayrollRecord.designation PayrollRecord.earning PayrollRecord.deduction
         PayrollRecord.gross PayrollRecord.totalDed PayrollRecord.netPay].
    rewrite <-app_comm_cons, !fmap_cons. cbn [foldl].
    rewrite !fmap_app, !foldl_app.
    by rewrite He, longerName_diag, longerName_empty, longerDesignation_diag,
               longerDesignation_empty.
Qed.

Lemma recordsOf_app (h : string) (l1 l2 : list ParsedRecord.t) :
  recordsOf h (l1 ++ l2) = recordsOf h l1 ++ recordsOf h l2.
Proof. apply filter_app. Qed.

Lemma recordsOf_nil (h : string) (recs : list ParsedRecord.t) :
  recordsOf h recs = [] ↔ h ∉ ParsedRecord.hrpn <$> recs.
Proof.
  unfold recordsOf. induction recs as [|rec recs IH].
  - split; [intros _; apply not_elem_of_nil | done].
  - rewrite filter_cons, fmap_cons, not_elem_of_cons.
    case_decide; [|rewrite IH; naive_solver]. split; [done | naive_solver].
Qed.

(** The merged records are the merged records of the identifiers of the
    input. *)
Lemma mergePayroll_elem_of (earningRecords deductionRecords : list ParsedRecord.t)
    (r : PayrollRecord.t) :
  r ∈ mergePayroll earningRecords deductionRecords ↔
  ∃ h, h ∈ ParsedRecord.hrpn <$> earningRecords ++ deductionRecords
       ∧ r = mergedRecord h (recordsOf h earningRecords) (recordsOf h deductionRecords).
Proof.
  assert (∀ h,
    filter (λ r, PayrollRecord.hrpn r = h) (mergePayroll earningRecords deductionRecords)
    ≡ₚ match recordsOf h (earningRecords ++ deductionRecords) with
       | [] => []
       | _ :: _ =>
           [mergedRecord h (recordsOf h earningRecords) (recordsOf h deductionRecords)]
       end) as Hfilter.
  { intros h. rewrite mergePayroll_filter.
    fold (recordsOf h earningRecords). fold (recordsOf h deductionRecords).
    rewrite (foldl_mergedEntry h).
    - rewrite recordsOf_app. by destruct (_ ++ _).
    - apply Forall_app. split; apply Forall_forall;
        by intros rec [? _]%list_elem_of_filter. }
  split.
  - intros Hr.
    assert (r ∈ filter (λ r', PayrollRecord.hrpn r' = PayrollRecord.hrpn r)
                       (mergePayroll earningRecords deductionRecords)) as Hin
      by by apply list_elem_of_filter.
    rewrite Hfilter in Hin. exists (PayrollRecord.hrpn r).
    destruct (recordsOf _ (_ ++ _)) eqn:Hrecs; [by apply elem_of_nil in Hin|].
    apply list_elem_of_singleton in Hin. split; [|done].
    destruct (decide (PayrollRecord.hrpn r
                      ∈ ParsedRecord.hrpn <$> earningRecords ++ deductionRecords))
      as [|Hnot]; [done|].
    apply recordsOf_nil in Hnot. congruence.
  - intros (h & Hh & ->).
    eapply (list_elem_of_filter (λ r', PayrollRecord.hrpn r' = h)).
    rewrite Hfilter.
    destruct (recordsOf _ (_ ++ _)) eqn:Hrecs; [|by left].
    apply recordsOf_nil in Hrecs. done.
Qed.

Lemma lookup_foldl_spread (m : gmap string Q) (maps : list (gmap string Q)) (k : string) :
  foldl spread m maps !! k
  = foldl (λ acc f, from_option Some acc (f !! k)) (m !! k) maps.
Proof.
  revert m. induction maps as [|f maps IH]; intros m; [done|].
  cbn [foldl]. rewrite IH. f_equal. unfold spread. rewrite lookup_union.
  destruct (f !! k), (m !! k); done.
Qed.

Lemma lookup_foldl_spread_None (m : gmap string Q) (maps : list (gmap string Q))
    (k : string) :
  foldl spread m maps !! k = None ↔ m !! k = None ∧ Forall (λ f, f !! k = None) maps.
Proof.
  revert m. induction maps as [|f maps IH]; intros m; cbn [foldl].
  - split; [by intros ?; split | by intros [? _]].
  - rewrite IH, Forall_cons. unfold spread. rewrite lookup_union_None. tauto.
Qed.

Lemma foldl_longerName_length (n : string) (names : list string) :
  String.length n ≤ String.length (foldl longerName n names)
  ∧ Forall (λ n', String.length n' ≤ String.length (foldl longerName n names)) names.
Proof.
  revert n. induction names as [|n' names IH]; intros n; cbn [foldl].
  - split; [done | constructor].
  - destruct (IH (longerName n n')) as [H1 H2].
    assert (String.length n ≤ String.length (longerName n n')
            ∧ String.length n' ≤ String.length (longerName n n')) as [??].
    { unfold longerName. case_decide; lia. }
    split; [lia|]. constructor; [lia | done].
Qed.

Lemma foldl_longerName_elem_of (n : string) (names : list string) :
  foldl longerName n names ∈ n :: names.
Proof.
  revert n. induction names as [|n' names IH]; intros n; cbn [foldl]; [by left|].
  specialize (IH (longerName n n')).
  apply elem_of_cons in IH as [IH | IH]; [|by do 2 right].
  rewrite IH. unfold longerName. case_decide; [right; left | left]; done.
Qed.

Lemma foldl_longerDesignation_length (d : string) (ds : list string) :
  String.length d ≤ String.length (foldl longerDesignation d ds)
  ∧ Forall (λ d', String.length d' ≤ String.length (foldl longerDesignation d ds)) ds.
Proof.
  revert d. induction ds as [|d' ds IH]; intros d; cbn [foldl].
  - split; [done | constructor].
  - destruct (IH (longerDesignation d d')) as [H1 H2].
    assert (String.length d ≤ String.length (longerDesignation d d')
            ∧ String.length d' ≤ String.length (longerDesignation d d')) as [??].
    { unfold longerDesignation. repeat case_bool_decide; subst; cbn; lia. }
    split; [lia|]. constructor; [lia | done].
Qed.

Lemma mergePayroll_hrpn (earningRecords deductionRecords : list ParsedRecord.t)
    (r : PayrollRecord.t) :
  r ∈ mergePayroll earningRecords deductionRecords →
  PayrollRecord.hrpn r ∈ ParsedRecord.hrpn <$> earningRecords ++ deductionRecords
  ∧ r = mergedRecord (PayrollRecord.hrpn r)
          (recordsOf (PayrollRecord.hrpn r) earningRecords)
          (recordsOf (PayrollRecord.hrpn r) deductionRecords).
Proof. intros (h & Hh & ->)%mergePayroll_elem_of. done. Qed.

(** X18: the identifiers of the merged records are those of the input,
    each once. *)
Theorem mergePayroll_keeps_every_identifier
    (earningRecords deductionRecords : list ParsedRecord.t) :
  PayrollRecord.hrpn <$> mergePayroll earningRecords deductionRecords
  ≡ₚ remove_dups (ParsedRecord.hrpn <$> earningRecords ++ deductionRecords).
Proof.
  apply NoDup_Permutation; [apply mergePayroll_NoDup | apply NoDup_remove_dups|].
  intros h. rewrite elem_of_remove_dups, list_elem_of_fmap. split.
  - intros (r & -> & Hr). by apply mergePayroll_hrpn in Hr as [? _].
  - intros Hh. eexists. split; [|apply mergePayroll_elem_of; eauto]. done.
Qed.

(** X19: a record that only one side of the bill holds keeps the totals of
    the other side at zero and an empty map for it, and the validator
    does not check its arithmetic: it reports no arithmetic error for it,
    and no warning either when the earning side is the one that is
    missing. *)
Theorem record_on_one_side_is_not_checked
    (earningRecords deductionRecords : list ParsedRecord.t) (r : PayrollRecord.t) :
  r ∈ mergePayroll earningRecords deductionRecords →
  let arithmeticErrors :=
    filter (λ m, isArithmeticError m = true)
           (RecordValidation.errors (validateRecord r)) in
  (PayrollRecord.hrpn r ∉ ParsedRecord.hrpn <$> deductionRecords →
     PayrollRecord.deduction r = ∅ ∧ PayrollRecord.totalDed r = 0%Q
     ∧ PayrollRecord.netPay r = 0%Q ∧ arithmeticErrors = [])
  ∧ (PayrollRecord.hrpn r ∉ ParsedRecord.hrpn <$> earningRecords →
     PayrollRecord.earning r = ∅ ∧ PayrollRecord.gross r = 0%Q
     ∧ arithmeticErrors = []
     ∧ RecordValidation.warnings (validateRecord r) = []).
Proof.
  intros [_ Hr]%mergePayroll_hrpn arithmeticErrors.
  subst arithmeticErrors. rewrite arithmeticErrors_eq. split.
  - intros Hd%recordsOf_nil. rewrite Hd in Hr. rewrite Hr. cbn. split; [done|].
    split; [done|]. split; [done|].
    unfold netPayErrors. cbn [PayrollRecord.totalDed].
    by rewrite andb_false_r.
  - intros He%recordsOf_nil. rewrite He in Hr. rewrite Hr. cbn. done.
Qed.

Lemma record_on_one_side_is_not_checked_witness :
  ∃ r, r ∈ mergePayroll [sampleEarningRecord; otherEarningRecord] [sampleDeductionRecord]
       ∧ PayrollRecord.hrpn r = "00125600"
       ∧ PayrollRecord.totalDed r = 0%Q ∧ PayrollRecord.netPay r = 0%Q
       ∧ filter (λ m, isArithmeticError m = true)
                (RecordValidation.errors (validateRecord r)) = [].
Proof.
  assert (mergePayroll [sampleEarningRecord; otherEarningRecord] [sampleDeductionRecord]
            !! 0 = Some (mergedRecord "00125600" [otherEarningRecord] [])) as H0
    by by vm_compute.
  apply list_elem_of_lookup_2 in H0.
  eexists. split; [exact H0|]. split; [reflexivity|].
  destruct (proj1 (record_on_one_side_is_not_checked _ _ _ H0)) as (_ & Ht & Hn & He).
  - vm_compute. intros Hin. repeat (apply elem_of_cons in Hin as [Hin|Hin]; [done|]).
    by apply elem_of_nil in Hin.
  - done.
Defined.

(** X20: the name and the designation of a merged record are as long as
    those of every record of its identifier, on either side; the name is
    the name of one of them. *)
Theorem merged_record_has_longest_name
    (earningRecords deductionRecords : list ParsedRecord.t) (r : PayrollRecord.t) :
  r ∈ mergePayroll earningRecords deductionRecords →
  (∀ rec, rec ∈ earningRecords ++ deductionRecords →
          ParsedRecord.hrpn rec = PayrollRecord.hrpn r →
          String.length (ParsedRecord.name rec) ≤ String.length (PayrollRecord.name r)
          ∧ String.length (ParsedRecord.designation rec)
            ≤ String.length (PayrollRecord.designation r))
  ∧ ∃ rec, rec ∈ earningRecords ++ deductionRecords
           ∧ ParsedRecord.hrpn rec = PayrollRecord.hrpn r
           ∧ PayrollRecord.name r = ParsedRecord.name rec.
Proof.
  intros [Hh Hr]%mergePayroll_hrpn.
  set (h := PayrollRecord.hrpn r) in *.
  set (recs := recordsOf h earningRecords ++ recordsOf h deductionRecords).
  assert (PayrollRecord.name r = foldl longerName "" (ParsedRecord.name <$> recs))
    as Hname by by rewrite Hr.
  assert (PayrollRecord.designation r
          = foldl longerDesignation "" (ParsedRecord.designation <$> recs))
    as Hdes by by rewrite Hr.
  assert (∀ rec, rec ∈ recs ↔ rec ∈ earningRecords ++ deductionRecords
                               ∧ ParsedRecord.hrpn rec = h) as Hrecs.
  { intros rec. subst recs. unfold recordsOf.
    rewrite <-filter_app, list_elem_of_filter. tauto. }
  split.
  - intros rec Hin Hrec. rewrite Hname, Hdes.
    destruct (foldl_longerName_length "" (ParsedRecord.name <$> recs)) as [_ Hn].
    destruct (foldl_longerDesignation_length "" (ParsedRecord.designation <$> recs))
      as [_ Hd].
    rewrite Forall_fmap, Forall_forall in Hn. rewrite Forall_fmap, Forall_forall in Hd.
    split; [apply (Hn rec) | apply (Hd rec)]; by apply Hrecs.
  - destruct recs as [|rec0 recs'] eqn:Erecs.
    { apply list_elem_of_fmap in Hh as (rec & Hrec & Hin).
      assert (rec ∈ @nil ParsedRecord.t) as []%elem_of_nil. by apply Hrecs. }
    pose proof (foldl_longerName_elem_of "" (ParsedRecord.name <$> rec0 :: recs')) as Hin.
    rewrite <-Hname in Hin. apply elem_of_cons in Hin as [Hempty | Hin].
    + exists rec0. destruct (proj1 (Hrecs rec0)) as [? ?]; [by left|].
      split; [done|]. split; [done|].
      destruct (foldl_longerName_length "" (ParsedRecord.name <$> rec0 :: recs'))
        as [_ Hn].
      rewrite <-Hname, Hempty in Hn. apply Forall_cons in Hn as [Hn _]. cbn in Hn.
      rewrite Hempty. destruct (ParsedRecord.name rec0); [done | cbn in Hn; lia].
    + apply list_elem_of_fmap in Hin as (rec & Hrec & Hin).
      exists rec. destruct (proj1 (Hrecs rec) Hin). done.
Qed.

Lemma merged_record_has_longest_name_witness :
  ∃ r, r ∈ mergePayroll [sampleEarningRecord] [sampleDeductionRecord]
       ∧ String.length (ParsedRecord.name sampleEarningRecord)
         ≤ String.length (PayrollRecord.name r)
       ∧ String.length (ParsedRecord.designation sampleDeductionRecord)
         ≤ String.length (PayrollRecord.designation r).
Proof.
  assert (mergePayroll [sampleEarningRecord] [sampleDeductionRecord] !! 0
          = Some (mergedRecord "00125678" [sampleEarningRecord] [sampleDeductionRecord]))
    as H0 by by vm_compute.
  apply list_elem_of_lookup_2 in H0.
  eexists. split; [exact H0|].
  destruct (merged_record_has_longest_name _ _ _ H0) as [Hall _].
  split.
  - apply (Hall sampleEarningRecord); [by left | reflexivity].
  - apply (Hall sampleDeductionRecord); [right; by left | reflexivity].
Defined.

Lemma lookup_foldl_spread_last (m : gmap string Q) (pre post : list (gmap string Q))
    (f : gmap string Q) (k : string) (v : Q) :
  f !! k = Some v → Forall (λ g, g !! k = None) post →
  foldl spread m (pre ++ f :: post) !! k = Some v.
Proof.
  intros Hf Hpost. rewrite foldl_app. cbn [foldl].
  rewrite lookup_foldl_spread.
  assert (spread (foldl spread m pre) f !! k = Some v) as ->.
  { unfold spread. by rewrite lookup_union, Hf, union_Some_l. }
  induction Hpost as [|g post Hg _ IH]; [done|]. cbn [foldl]. by rewrite Hg.
Qed.

Lemma dom_foldl_spread (m : gmap string Q) (maps : list (gmap string Q)) :
  dom (foldl spread m maps) = dom m ∪ ⋃ (dom <$> maps).
Proof.
  revert m. induction maps as [|f maps IH]; intros m; cbn [foldl].
  - cbn. set_solver.
  - rewrite IH. unfold spread. rewrite dom_union_L. cbn. set_solver.
Qed.

(** X21: the earning map of a merged record holds the keys of the earning
    records of its identifier and no other; on a key that several of them
    hold, the record that comes last in the input gives the value.  The
    same holds of the deduction map and the deduction records, their
    totals left out: the keys [totalDed] and [netPay] are never among the
    deduction fields of a merged record. *)
Theorem later_record_wins_on_a_field
    (earningRecords deductionRecords : list ParsedRecord.t) (r : PayrollRecord.t) :
  r ∈ mergePayroll earningRecords deductionRecords →
  let es := recordsOf (PayrollRecord.hrpn r) earningRecords in
  let ds := recordsOf (PayrollRecord.hrpn r) deductionRecords in
  dom (PayrollRecord.earning r) = ⋃ (dom <$> (ParsedRecord.fields <$> es))
  ∧ dom (PayrollRecord.deduction r) = ⋃ (dom <$> (strippedFields <$> ds))
  ∧ PayrollRecord.deduction r !! "totalDed" = None
  ∧ PayrollRecord.deduction r !! "netPay" = None
  ∧ (∀ pre rec post k v,
       es = pre ++ rec :: post → ParsedRecord.fields rec !! k = Some v →
       Forall (λ rec', ParsedRecord.fields rec' !! k = None) post →
       PayrollRecord.earning r !! k = Some v)
  ∧ (∀ pre rec post k v,
       ds = pre ++ rec :: post → strippedFields rec !! k = Some v →
       Forall (λ rec', strippedFields rec' !! k = None) post →
       PayrollRecord.deduction r !! k = Some v).
Proof.
  intros [_ Hr]%mergePayroll_hrpn es ds. fold es ds in Hr. rewrite Hr.
  cbn [mergedRecord PayrollRecord.earning PayrollRecord.deduction].
  split; [rewrite dom_foldl_spread; set_solver|].
  split; [rewrite dom_foldl_spread; set_solver|].
  split.
  { apply lookup_foldl_spread_None. split; [done|].
    apply Forall_fmap, Forall_forall. intros rec _. unfold strippedFields. cbn.
    rewrite lookup_delete_ne by done. apply lookup_delete_eq. }
  split.
  { apply lookup_foldl_spread_None. split; [done|].
    apply Forall_fmap, Forall_forall. intros rec _. unfold strippedFields. cbn.
    apply lookup_delete_eq. }
  split.
  - intros pre rec post k v -> Hk Hpost. rewrite fmap_app, fmap_cons.
    apply lookup_foldl_spread_last; [done | by apply Forall_fmap].
  - intros pre rec post k v -> Hk Hpost. rewrite fmap_app, fmap_cons.
    apply lookup_foldl_spread_last; [done | by apply Forall_fmap].
Qed.

Lemma later_record_wins_on_a_field_witness :
  ∃ r, r ∈ mergePayroll [sampleEarningRecord; laterEarningRecord] [sampleDeductionRecord]
       ∧ dom (PayrollRecord.earning r)
         = ⋃ (dom <$> (ParsedRecord.fields
                         <$> [sampleEarningRecord; laterEarningRecord]))
       ∧ PayrollRecord.deduction r !! "netPay" = None
       ∧ PayrollRecord.earning r !! "hra" = Some 2000%Q.
Proof.
  assert (mergePayroll [sampleEarningRecord; laterEarningRecord] [sampleDeductionRecord]
            !! 0
          = Some (mergedRecord "00125678" [sampleEarningRecord; laterEarningRecord]
                               [sampleDeductionRecord]))
    as H0 by by vm_compute.
  apply list_elem_of_lookup_2 in H0.
  eexists. split; [exact H0|].
  destruct (later_record_wins_on_a_field _ _ _ H0) as (Hdom & _ & _ & Hnet & Hlast & _).
  split; [exact Hdom|]. split; [exact Hnet|].
  apply (Hlast [sampleEarningRecord] laterEarningRecord [] "hra" 2000%Q);
    [reflexivity | reflexivity | constructor].
Defined.

(** ** Further properties of the combination of record sets *)

Lemma combinedOk_empty : combinedOk ([], ∅).
Proof. split; [constructor|]. intros h. cbn. set_solver. Qed.

Lemma foldl_combineRecord_ok (recs : list ParsedRecord.t) :
  combinedOk (foldl combineRecord ([], ∅) recs).
Proof. apply (foldl_combineRecord _ recs ""), combinedOk_empty. Qed.

Lemma foldl_combineRecord_hrpn (recs : list ParsedRecord.t) :
  ParsedRecord.hrpn <$> (foldl combineRecord ([], ∅) recs).1
  = reverse (remove_dups (reverse (ParsedRecord.hrpn <$> recs))).
Proof.
  induction recs as [|rec recs IH] using rev_ind; [done|].
  rewrite foldl_app. cbn [foldl].
  pose proof (foldl_combineRecord_ok recs) as [Hnodup Hseen].
  destruct (foldl combineRecord ([], ∅) recs) as [combined seen]. cbn [fst snd] in *.
  rewrite fmap_app, reverse_app.
  change (reverse (ParsedRecord.hrpn <$> [rec])) with [ParsedRecord.hrpn rec].
  cbn [app remove_dups].
  assert (ParsedRecord.hrpn rec ∈ seen
          ↔ ParsedRecord.hrpn rec ∈ reverse (ParsedRecord.hrpn <$> recs)) as Hin.
  { rewrite Hseen, IH, elem_of_reverse, elem_of_remove_dups. done. }
  unfold combineRecord.
  destruct (decide (ParsedRecord.hrpn rec ∈ seen)) as [Hs|Hs];
    destruct (decide_rel _ _ _) as [Hd|Hd]; cbn [fst]; try tauto.
  - by rewrite updateFound_hrpn.
  - by rewrite fmap_app, reverse_cons, IH.
Qed.

Lemma foldl_combineRecord_NoDup (recs : list ParsedRecord.t) :
  NoDup (ParsedRecord.hrpn <$> recs) →
  (foldl combineRecord ([], ∅) recs).1 = recs.
Proof.
  induction recs as [|rec recs IH] using rev_ind; [done|].
  rewrite fmap_app, NoDup_app. intros (Hrecs & Hrec & _).
  rewrite foldl_app. cbn [foldl].
  pose proof (foldl_combineRecord_ok recs) as [_ Hseen].
  specialize (IH Hrecs).
  destruct (foldl combineRecord ([], ∅) recs) as [combined seen]. cbn [fst snd] in *.
  subst combined. unfold combineRecord. rewrite decide_False; [done|].
  rewrite Hseen. intros Hin. apply (Hrec _ Hin). cbn. by left.
Qed.

(** X22: the combined records hold each identifier of the record sets once,
    in the order in which the identifiers first appear ([remove_dups]
    keeps the last occurrence of an element, which in the reversed list is
    the first one).  When no identifier occurs twice, the combined records
    are the records of the sets, one set after the other, unchanged. *)
Theorem combineRecordSets_orders_by_first_appearance
    (recordSets : list (list ParsedRecord.t)) :
  ParsedRecord.hrpn <$> combineRecordSets recordSets
  = reverse (remove_dups (reverse (ParsedRecord.hrpn <$> mjoin recordSets)))
  ∧ (NoDup (ParsedRecord.hrpn <$> mjoin recordSets) →
     combineRecordSets recordSets = mjoin recordSets).
Proof.
  unfold combineRecordSets. rewrite foldl_foldl_join.
  split; [apply foldl_combineRecord_hrpn | apply foldl_combineRecord_NoDup].
Qed.

(** the identifier of a combined record is one of the input, and its
    fields come from the records of that identifier *)
Lemma combineRecordSets_elem_of (recordSets : list (list ParsedRecord.t))
    (r : ParsedRecord.t) :
  r ∈ combineRecordSets recordSets →
  ∃ first rest,
    recordsOf (ParsedRecord.hrpn r) (mjoin recordSets) = first :: rest
    ∧ r = foldl (λ existing rec, absorb rec existing) first rest.
Proof.
  intros Hr. destruct (combineRecordSets_filter recordSets (ParsedRecord.hrpn r))
    as [_ Hfilter].
  assert (r ∈ filter (λ r', ParsedRecord.hrpn r' = ParsedRecord.hrpn r)
                     (combineRecordSets recordSets)) as Hin
    by by apply list_elem_of_filter.
  rewrite Hfilter in Hin. fold (recordsOf (ParsedRecord.hrpn r) (mjoin recordSets)) in Hin.
  destruct (recordsOf _ _) as [|first rest]; [by apply elem_of_nil in Hin|].
  rewrite foldl_combinedEntry in Hin. apply list_elem_of_singleton in Hin.
  by exists first, rest.
Qed.

Lemma foldl_absorb (first : ParsedRecord.t) (rest : list ParsedRecord.t) :
  let r := foldl (λ existing rec, absorb rec existing) first rest in
  ParsedRecord.hrpn r = ParsedRecord.hrpn first
  ∧ ParsedRecord.fields r
    = foldl spread (ParsedRecord.fields first) (ParsedRecord.fields <$> rest)
  ∧ ParsedRecord.designation r = ParsedRecord.designation first
  ∧ ParsedRecord.rawValues r = ParsedRecord.rawValues first.
Proof.
  revert first. induction rest as [|rec rest IH]; intros first; [done|].
  cbn [foldl]. destruct (IH (absorb rec first)) as (? & ? & ? & ?). done.
Qed.

(** ** Further properties of the validation *)

Lemma hrpnErrors_nil (record : PayrollRecord.t) :
  hrpnErrors record = [] ↔ digitString 8 (PayrollRecord.hrpn record).
Proof.
  unfold hrpnErrors. rewrite <-test_eight_digits.
  destruct (RegExp.test _ _) eqn:Htest; cbn [negb].
  - rewrite orb_false_r. case_bool_decide as Hempty; [|done].
    rewrite Hempty in Htest. by vm_compute in Htest.
  - rewrite orb_true_r. done.
Qed.

(** X23: the validator reports an invalid identifier exactly when the
    identifier is not a string of eight decimal digits; the error carries
    the identifier, and no other error of the record is of that kind. *)
Theorem invalid_identifier_iff_not_eight_digits (record : PayrollRecord.t) :
  (InvalidHrpn (PayrollRecord.hrpn record)
     ∈ RecordValidation.errors (validateRecord record)
   ↔ ¬ digitString 8 (PayrollRecord.hrpn record))
  ∧ ∀ m, m ∈ RecordValidation.errors (validateRecord record) →
         isInvalidHrpn m = true → m = InvalidHrpn (PayrollRecord.hrpn record).
Proof.
  cbn [validateRecord RecordValidation.errors]. split.
  - rewrite <-hrpnErrors_nil, elem_of_app. split.
    + intros [Hin | Hin] Hnil.
      * unfold netPayErrors in Hin. repeat case_match;
          first [by apply elem_of_nil in Hin | by apply list_elem_of_singleton in Hin].
      * rewrite Hnil in Hin. by apply elem_of_nil in Hin.
    + intros Hne. right. unfold hrpnErrors in *. case_match; [by left | done].
  - intros m [Hin | Hin]%elem_of_app Hm.
    + unfold netPayErrors in Hin. repeat case_match;
        first [by apply elem_of_nil in Hin
              | apply list_elem_of_singleton in Hin; by subst m].
    + unfold hrpnErrors in Hin. case_match;
        [by apply list_elem_of_singleton in Hin | by apply elem_of_nil in Hin].
Qed.

Lemma validateRecord_counts (record : PayrollRecord.t) :
  let v := validateRecord record in
  length (RecordValidation.errors v) ≤ 2
  ∧ length (RecordValidation.warnings v) ≤ 1
  ∧ (RecordValidation.isValid v = true ↔ RecordValidation.errors v = []).
Proof.
  cbn [validateRecord RecordValidation.errors RecordValidation.warnings
       RecordValidation.isValid]. split; [|split].
  - rewrite length_app. unfold netPayErrors, hrpnErrors. repeat case_match; cbn; lia.
  - unfold earningWarnings. repeat case_match; cbn; lia.
  - rewrite bool_decide_eq_true. by rewrite length_zero_iff_nil.
Qed.

(** X24: the summary of a validation counts every record, the valid ones
    among them, and holds one or two errors for each record that is not
    valid and at most one warning for each record; the result is valid
    exactly when every record is. *)
Theorem validateResults_counts (records : list PayrollRecord.t)
    (earningTotalRow deductionTotalRow : option TotalRow.t) :
  let v := validateResults records earningTotalRow deductionTotalRow in
  let invalid := ValidationResult.totalRecords v - ValidationResult.validRecords v in
  ValidationResult.totalRecords v = length records
  ∧ ValidationResult.validRecords v ≤ ValidationResult.totalRecords v
  ∧ invalid ≤ length (ValidationResult.errors v) ≤ 2 * invalid
  ∧ length (ValidationResult.warnings v) ≤ length records
  ∧ (ValidationResult.isValid v = true
     ↔ ValidationResult.validRecords v = ValidationResult.totalRecords v)
  ∧ (ValidationResult.isValid v = true
     ↔ ∀ record, record ∈ records →
                 RecordValidation.isValid (validateRecord record) = true).
Proof.
  cbv zeta. unfold validateResults.
  cbn [ValidationResult.totalRecords ValidationResult.validRecords
       ValidationResult.errors ValidationResult.warnings ValidationResult.isValid].
  set (results := validateRecord <$> records).
  assert (length (filter (λ r, RecordValidation.isValid r = true) results)
            ≤ length records
          ∧ length records
              - length (filter (λ r, RecordValidation.isValid r = true) results)
            ≤ length (results ≫= RecordValidation.errors)
          ∧ length (results ≫= RecordValidation.errors)
            ≤ 2 * (length records
                   - length (filter (λ r, RecordValidation.isValid r = true) results))
          ∧ length (results ≫= RecordValidation.warnings) ≤ length records
          ∧ (results ≫= RecordValidation.errors = []
             ↔ ∀ record, record ∈ records →
                         RecordValidation.isValid (validateRecord record) = true))
    as (Hvalid & Hlow & Hhigh & Hwarn & Hall).
  { subst results. induction records as [|record records IH].
    - cbn. repeat split; first [lia | done | by intros _ ? ?%elem_of_nil].
    - destruct IH as (IH1 & IH2 & IH3 & IH4 & IH5).
      destruct (validateRecord_counts record) as (He & Hw & Hv). cbv zeta in *.
      rewrite fmap_cons, filter_cons, !bind_cons, !length_app. cbn [length].
      split; [case_decide; cbn [length]; lia|].
      assert (RecordValidation.isValid (validateRecord record) = true
              ↔ length (RecordValidation.errors (validateRecord record)) = 0) as Hv'.
      { by rewrite Hv, length_zero_iff_nil. }
      split; [case_decide; cbn [length]; [lia|]|].
      { destruct (RecordValidation.errors (validateRecord record)) eqn:E;
          [by destruct (proj2 Hv) | cbn [length]; lia]. }
      split; [case_decide as Hd; cbn [length]; [apply Hv' in Hd; lia|]|].
      { destruct (RecordValidation.errors (validateRecord record)) eqn:E;
          [by destruct (proj2 Hv) | cbn [length] in *; lia]. }
      split; [lia|].
      rewrite app_nil, IH5, <-Hv. split.
      + intros [H1 H2] r [-> | Hr]%elem_of_cons; auto.
      + intros H. split; [apply H; by left|]. intros r Hr. apply H. by right. }
  split; [done|]. split; [done|]. split; [done|]. split; [done|].
  rewrite bool_decide_eq_true, length_zero_iff_nil. split; [|done].
  split.
  - intros Hnil. rewrite Hnil in Hlow. cbn [length] in Hlow. lia.
  - intros Heq. apply length_zero_iff_nil. lia.
Qed.

(** ** The parse of one document *)

Lemma parseSinglePDF_inv (fileName : string) (doc : PdfDocument)
    (log : list ProgressEvent) (result : SinglePdfResult.t) :
  parseSinglePDF fileName (Return doc) = (log, Return result) →
  ∃ meta firstPage rest,
    detectType (ExtractedText.rawText (extractText doc)) = Return meta
    ∧ ExtractedText.pages (extractText doc) = firstPage :: rest
    ∧ SinglePdfResult.type result = PdfMeta.type meta
    ∧ SinglePdfResult.meta result = meta
    ∧ SinglePdfResult.headers result
      = HeaderResult.headers
          (parseHeadersSmart (PageData.lines firstPage) (PdfMeta.type meta))
    ∧ SinglePdfResult.normalizedHeaders result
      = (λ h, let n := normalizeHeader h in NormalizedHeader.mk h n.1 n.2)
          <$> SinglePdfResult.headers result
    ∧ SinglePdfResult.records result
      = recordOf (SinglePdfResult.normalizedHeaders result) (SinglePdfResult.type result)
          <$> Segmentation.employees
                (segmentRows (ExtractedText.pages (extractText doc)))
    ∧ SinglePdfResult.totalRow result
      = Segmentation.totalRow (segmentRows (ExtractedText.pages (extractText doc))).
Proof.
  unfold parseSinglePDF.
  destruct (detectType _) as [meta|] eqn:Hmeta; [|done].
  destruct (ExtractedText.pages (extractText doc)) as [|firstPage rest] eqn:Hpages;
    [done|].
  intros [= <- <-]. by exists meta, firstPage, rest.
Qed.

Lemma recordOf_hrpn (normalizedHeaders : list NormalizedHeader.t) (type : PdfType)
    (block : EmployeeBlock.t) :
  ParsedRecord.hrpn (recordOf normalizedHeaders type block) = EmployeeBlock.hrpn block.
Proof. apply parseEmployeeBlock_hrpn. Qed.

Lemma parseSinglePDF_recordOk (fileName : string) (buffer : Completion PdfDocument)
    (result : SinglePdfResult.t) :
  (parseSinglePDF fileName buffer).2 = Return result →
  Forall (recordOk (SinglePdfResult.type result)) (SinglePdfResult.records result).
Proof.
  destruct buffer as [doc|message]; [|done].
  destruct (parseSinglePDF fileName (Return doc)) as [log res] eqn:Hparse.
  cbn [snd]. intros ->.
  apply parseSinglePDF_inv in Hparse
    as (meta & firstPage & rest & _ & _ & Htype & _ & Hheaders & Hnorm & Hrecords & _).
  rewrite Hrecords. apply Forall_fmap, Forall_forall. intros block Hblock. split.
  - cbn [compose]. rewrite recordOf_hrpn.
    apply segmentRows_elem_of in Hblock as (pagePos & page & _ & Hblock).
    by destruct (segmentPage_pieces _ _ _ Hblock)
      as (srNo & ws & sp & rest' & _ & _ & _ & _ & _ & _ & Hh & _).
  - cbn [compose recordOf ParsedRecord.fields].
    rewrite dom_normalizeFields, Hnorm, <-!list_fmap_compose.
    intros key (header & -> & Hheader)%elem_of_list_to_set%list_elem_of_fmap.
    rewrite Hheaders in Hheader. rewrite Htype.
    apply parseHeadersSmart_headers_catalogue in Hheader.
    apply list_elem_of_fmap in Hheader as (detector & -> & Hdetector).
    apply elem_of_list_to_set, list_elem_of_fmap. by exists detector.
Qed.

Lemma extractText_no_pages (doc : PdfDocument) :
  ExtractedText.pages (extractText doc) = [] → ExtractedText.rawText (extractText doc) = "".
Proof. destruct doc; [done|]. by cbn. Qed.

(** X25: the parse of a document that the PDF library has decoded throws
    only the error of the type detection, after the two progress calls of
    the extraction and the detection, and only for a text that holds
    neither marker: where the type is detected the document has a first
    page, so the headers are always read from a page that exists. *)
Theorem decoded_document_fails_only_on_detection (fileName : string)
    (doc : PdfDocument) (log : list ProgressEvent) (message : string) :
  parseSinglePDF fileName (Return doc) = (log, Throw message) →
  message = cannotDetectMessage
  ∧ undetectable doc
  ∧ log.*1 = ["Extracting"; "Detecting"].
Proof.
  unfold parseSinglePDF.
  destruct (detectType _) as [meta|message'] eqn:Hdetect.
  - destruct (ExtractedText.pages (extractText doc)) eqn:Hpages; [|done].
    apply extractText_no_pages in Hpages. rewrite Hpages in Hdetect.
    by vm_compute in Hdetect.
  - intros [= <- <-]. unfold detectType in Hdetect.
    destruct (Js.includes _ "earning side") eqn:He; [done|].
    destruct (Js.includes _ "deduction side") eqn:Hd; [done|].
    injection Hdetect as <-. split; [done|]. split; [|done].
    split; rewrite <-includes_toLowerCase; congruence.
Qed.

Lemma decoded_document_fails_only_on_detection_witness :
  (parseSinglePDF "letter.pdf" (Return [sampleLetterPage])).2 = Throw cannotDetectMessage
  ∧ undetectable [sampleLetterPage].
Proof.
  destruct (parseSinglePDF "letter.pdf" (Return [sampleLetterPage]))
    as [log [result|message]] eqn:Hparse; [by vm_compute in Hparse|].
  destruct (decoded_document_fails_only_on_detection _ _ _ _ Hparse) as (-> & Hdoc & _).
  done.
Defined.

(** ** The files of a batch *)

Lemma processFiles_recordOk (files : list SourceFile.t) (b : Batch.t) :
  Forall (Forall (recordOk earning)) (Batch.earningRecords b) →
  Forall (Forall (recordOk deduction)) (Batch.deductionRecords b) →
  Forall (Forall (recordOk earning)) (Batch.earningRecords (processFiles b files).1)
  ∧ Forall (Forall (recordOk deduction))
           (Batch.deductionRecords (processFiles b files).1).
Proof.
  revert b. induction files as [|file files IH]; intros b He Hd; [done|].
  cbn [processFiles fst]. apply IH.
  - unfold processFile.
    destruct (parseSinglePDF _ _).2 as [result|message] eqn:Hparse; [|done].
    cbn [fst addResult Batch.earningRecords]. case_bool_decide as Htype; [|done].
    apply Forall_app. split; [done|]. constructor; [|done].
    rewrite <-Htype. by eapply parseSinglePDF_recordOk.
  - unfold processFile.
    destruct (parseSinglePDF _ _).2 as [result|message] eqn:Hparse; [|done].
    cbn [fst addResult Batch.deductionRecords]. case_bool_decide as Htype; [done|].
    apply Forall_app. split; [done|]. constructor; [|done].
    assert (SinglePdfResult.type result = deduction) as <-
      by by destruct (SinglePdfResult.type result).
    by eapply parseSinglePDF_recordOk.
Qed.

Lemma dom_foldl_spread_subseteq (m : gmap string Q) (maps : list (gmap string Q))
    (K : gset string) :
  dom m ⊆ K → Forall (λ f, dom f ⊆ K) maps → dom (foldl spread m maps) ⊆ K.
Proof.
  intros Hm Hmaps. rewrite dom_foldl_spread.
  apply union_subseteq. split; [done|].
  induction Hmaps as [|f maps Hf _ IH]; cbn; [set_solver|].
  apply union_subseteq. done.
Qed.

Lemma combineRecordSets_recordOk (pdfType : PdfType)
    (recordSets : list (list ParsedRecord.t)) :
  Forall (Forall (recordOk pdfType)) recordSets →
  Forall (recordOk pdfType) (combineRecordSets recordSets).
Proof.
  intros Hsets. apply Forall_forall.
  intros r (first & rest & Hrecs & ->)%combineRecordSets_elem_of.
  assert (Forall (recordOk pdfType) (first :: rest)) as Hall.
  { rewrite <-Hrecs. apply Forall_forall. intros rec [_ Hin]%list_elem_of_filter.
    apply list_elem_of_join in Hin as (records & Hin & Hrecords).
    rewrite Forall_forall in Hsets. specialize (Hsets _ Hrecords).
    rewrite Forall_forall in Hsets. by apply Hsets. }
  apply Forall_cons in Hall as [[Hh Hk] Hrest].
  destruct (foldl_absorb first rest) as (Eh & Ef & _). cbv zeta in Eh, Ef.
  split; [by rewrite Eh|]. rewrite Ef.
  apply dom_foldl_spread_subseteq; [done|].
  apply Forall_fmap. eapply Forall_impl; [exact Hrest|]. by intros rec [_ ?].
Qed.

Lemma processPayrollFromFiles_payroll (now : string) (files : list SourceFile.t) :
  ProcessPayrollResult.payroll (processPayrollFromFiles now files).1
  = mergePayroll
      (combineRecordSets (Batch.earningRecords (processFiles emptyBatch files).1))
      (combineRecordSets (Batch.deductionRecords (processFiles emptyBatch files).1)).
Proof.
  unfold processPayrollFromFiles.
  destruct (processFiles emptyBatch files) as [b log]. cbn [fst].
  cbn [ProcessPayrollResult.payroll].
  destruct (Batch.earningRecords b), (Batch.deductionRecords b); reflexivity.
Qed.

Lemma processPayrollFromFiles_validation (now : string) (files : list SourceFile.t) :
  ProcessPayrollResult.validation (processPayrollFromFiles now files).1
  = validateResults (ProcessPayrollResult.payroll (processPayrollFromFiles now files).1)
      (Batch.earningTotalRow (processFiles emptyBatch files).1)
      (Batch.deductionTotalRow (processFiles emptyBatch files).1).
Proof.
  unfold processPayrollFromFiles.
  destruct (processFiles emptyBatch files) as [b log]. reflexivity.
Qed.

(** the records of a batch, once combined and merged *)
Lemma processPayrollFromFiles_record (now : string) (files : list SourceFile.t)
    (r : PayrollRecord.t) :
  r ∈ ProcessPayrollResult.payroll (processPayrollFromFiles now files).1 →
  digitString 8 (PayrollRecord.hrpn r)
  ∧ dom (PayrollRecord.earning r) ⊆ list_to_set (storedKeys earning)
  ∧ dom (PayrollRecord.deduction r) ⊆ list_to_set (storedKeys deduction).
Proof.
  rewrite processPayrollFromFiles_payroll.
  destruct (processFiles_recordOk files emptyBatch) as [He Hd]; [constructor..|].
  apply (combineRecordSets_recordOk earning) in He.
  apply (combineRecordSets_recordOk deduction) in Hd.
  set (es := combineRecordSets _) in *. set (ds := combineRecordSets _) in *.
  intros [Hh Hr]%mergePayroll_hrpn. split; [|split].
  - apply list_elem_of_fmap in Hh as (rec & -> & Hrec).
    rewrite Forall_forall in He, Hd.
    apply elem_of_app in Hrec as [Hrec | Hrec]; [by apply He | by apply Hd].
  - rewrite Hr. cbn [mergedRecord PayrollRecord.earning].
    apply dom_foldl_spread_subseteq; [set_solver|].
    apply Forall_fmap, Forall_forall. intros rec [_ Hrec]%list_elem_of_filter.
    rewrite Forall_forall in He. by apply He.
  - rewrite Hr. cbn [mergedRecord PayrollRecord.deduction].
    apply dom_foldl_spread_subseteq; [set_solver|].
    apply Forall_fmap, Forall_forall. intros rec [_ Hrec]%list_elem_of_filter.
    rewrite Forall_forall in Hd. destruct (Hd _ Hrec) as [_ Hk].
    unfold strippedFields. cbn. rewrite !dom_delete. set_solver.
Qed.

(** X26: every record of the payroll of a batch has an identifier of eight
    decimal digits, so the validation of a batch never reports an invalid
    identifier. *)
Theorem batch_identifiers_are_always_valid (now : string) (files : list SourceFile.t) :
  let result := (processPayrollFromFiles now files).1 in
  (∀ r, r ∈ ProcessPayrollResult.payroll result → digitString 8 (PayrollRecord.hrpn r))
  ∧ ∀ m, m ∈ ValidationResult.errors (ProcessPayrollResult.validation result) →
         isInvalidHrpn m = false.
Proof.
  cbv zeta. split.
  - intros r Hr. by apply processPayrollFromFiles_record in Hr as [? _].
  - rewrite processPayrollFromFiles_validation.
    cbn [validateResults ValidationResult.errors].
    intros m (v & Hm & (r & -> & Hr)%list_elem_of_fmap)%list_elem_of_bind.
    apply processPayrollFromFiles_record in Hr as [Hh%hrpnErrors_nil _].
    cbn [validateRecord RecordValidation.errors] in Hm. rewrite Hh in Hm.
    rewrite (right_id_L [] (++)) in Hm. unfold netPayErrors in Hm.
    repeat case_match;
      first [by apply elem_of_nil in Hm | by apply list_elem_of_singleton in Hm as ->].
Qed.

Lemma parseSinglePDF_steps (fileName : string) (buffer : Completion PdfDocument)
    (event : ProgressEvent) :
  event ∈ (parseSinglePDF fileName buffer).1 →
  event.1 ∈ ["Extracting"; "Detecting"; "Headers"; "Segmenting"; "Parsing"].
Proof.
  unfold parseSinglePDF. destruct buffer as [doc|message]; cbn [fst].
  - destruct (detectType _) as [meta|message'].
    + destruct (ExtractedText.pages _); cbn [fst]; rewrite ?elem_of_app;
        rewrite ?list_elem_of_singleton; intros H;
        repeat (destruct H as [H | H]); subst event; cbn [fst];
        apply (bool_decide_unpack _); by vm_compute.
    + cbn [fst]. rewrite elem_of_app, !list_elem_of_singleton.
      intros [-> | ->]; cbn [fst]; apply (bool_decide_unpack _); by vm_compute.
  - rewrite list_elem_of_singleton. intros ->. cbn [fst].
    apply (bool_decide_unpack _). by vm_compute.
Qed.

Lemma filter_parse_log (step : string) (fileName : string)
    (buffer : Completion PdfDocument) :
  step ∉ ["Extracting"; "Detecting"; "Headers"; "Segmenting"; "Parsing"] →
  filter (λ event : ProgressEvent, event.1 = step) (parseSinglePDF fileName buffer).1 = [].
Proof.
  intros Hstep. apply filter_none, Forall_forall. intros event Hin Heq.
  apply Hstep. rewrite <-Heq. by eapply parseSinglePDF_steps.
Qed.

Lemma processFile_parses (b : Batch.t) (file : SourceFile.t) :
  parses file = false → (processFile b file).1 = b.
Proof.
  unfold parses, processFile. by destruct (parseSinglePDF _ _).2.
Qed.

Lemma processFiles_accounting (files : list SourceFile.t) (b : Batch.t) :
  let out := processFiles b files in
  FileMeta.file <$> Batch.allMetadata out.1
  = (FileMeta.file <$> Batch.allMetadata b)
    ++ (SourceFile.name <$> filter (λ file, parses file = true) files)
  ∧ filter (λ event : ProgressEvent, event.1 = "Processing") out.2
    = (λ file, ("Processing", "Processing " +:+ SourceFile.name file +:+ "..."))
        <$> files
  ∧ length (filter (λ event : ProgressEvent, event.1 = "Error") out.2)
    = length (filter (λ file, parses file = false) files).
Proof.
  cbv zeta. revert b. induction files as [|file files IH]; intros b.
  - cbn. by rewrite (right_id_L [] (++)).
  - cbn [processFiles fst snd].
    destruct (IH (processFile b file).1) as (IH1 & IH2 & IH3).
    rewrite IH1, !filter_app, IH2, length_app, IH3, !filter_cons.
    unfold processFile, parses.
    destruct (parseSinglePDF _ _) as [log [result|message]] eqn:Hparse; cbn [fst snd].
    + rewrite decide_True, decide_False by done.
      rewrite !filter_app, !filter_cons, !filter_nil. cbn [fst].
      rewrite decide_True, decide_False by done.
      pose proof (filter_parse_log "Processing" (SourceFile.name file)
                    (SourceFile.buffer file)) as H1.
      pose proof (filter_parse_log "Error" (SourceFile.name file)
                    (SourceFile.buffer file)) as H2.
      rewrite Hparse in H1, H2. cbn [fst] in H1, H2.
      rewrite H1, H2 by (apply (bool_decide_unpack _); by vm_compute).
      cbn [addResult Batch.allMetadata]. rewrite fmap_app, <-(assoc_L (++)).
      done.
    + rewrite decide_False, decide_True by done.
      rewrite !filter_app, !filter_cons, !filter_nil. cbn [fst].
      rewrite decide_True, decide_False, decide_False, decide_True by done.
      pose proof (filter_parse_log "Processing" (SourceFile.name file)
                    (SourceFile.buffer file)) as H1.
      pose proof (filter_parse_log "Error" (SourceFile.name file)
                    (SourceFile.buffer file)) as H2.
      rewrite Hparse in H1, H2. cbn [fst] in H1, H2.
      rewrite H1, H2 by (apply (bool_decide_unpack _); by vm_compute).
      cbn. done.
Qed.

(** X27: the progress callback gets one call [Processing] for each file of
    the batch, in order, and one call [Error] for each file whose parse
    throws; the metadata of the batch lists the files that were parsed,
    in order, and no other; the last three calls are those of the merge,
    the validation and the completion. *)
Theorem batch_accounts_for_every_file (now : string) (files : list SourceFile.t) :
  let out := processPayrollFromFiles now files in
  FileMeta.file <$> BatchMetadata.files (ProcessPayrollResult.metadata out.1)
  = SourceFile.name <$> filter (λ file, parses file = true) files
  ∧ filter (λ event : ProgressEvent, event.1 = "Processing") out.2
    = (λ file, ("Processing", "Processing " +:+ SourceFile.name file +:+ "..."))
        <$> files
  ∧ length (filter (λ event : ProgressEvent, event.1 = "Error") out.2)
    + length (BatchMetadata.files (ProcessPayrollResult.metadata out.1))
    = length files
  ∧ ∃ log,
      out.2 = log ++ [("Merging", "Merging records by HRPN...");
                      ("Validating", "Cross-validating results...");
                      ("Complete",
                       "Processed "
                       +:+ pretty (length (ProcessPayrollResult.payroll out.1))
                       +:+ " employees successfully!")].
Proof.
  cbv zeta. unfold processPayrollFromFiles.
  destruct (processFiles_accounting files emptyBatch) as (H1 & H2 & H3).
  destruct (processFiles emptyBatch files) as [b log]. cbn [fst snd] in *.
  cbn [ProcessPayrollResult.metadata BatchMetadata.files ProcessPayrollResult.payroll].
  split; [done|]. split; [|split].
  - rewrite filter_app, H2, (filter_none _ [_; _; _]);
      [apply (right_id_L [] (++)) | repeat constructor; by cbn].
  - rewrite filter_app, length_app, H3, (filter_none _ [_; _; _]);
      [|repeat constructor; by cbn]. cbn [length].
    apply (f_equal length) in H1. rewrite length_fmap in H1.
    rewrite H1, length_app, length_fmap. cbn [emptyBatch Batch.allMetadata fmap list_fmap length].
    rewrite length_fmap. clear.
    induction files as [|file files IH]; [done|].
    rewrite !filter_cons. destruct (parses file);
      repeat case_decide; try done; cbn [length]; lia.
  - by exists log.
Qed.

Lemma processFiles_none_parses (files : list SourceFile.t) (b : Batch.t) :
  Forall (λ file, parses file = false) files → (processFiles b files).1 = b.
Proof.
  intros Hfiles. revert b. induction Hfiles as [|file files Hfile _ IH]; intros b; [done|].
  cbn [processFiles fst]. by rewrite IH, processFile_parses.
Qed.

(** X28: a batch in which no file can be parsed, the empty batch among
    them, still completes: the payroll is empty, the validation holds no
    error and is valid, the metadata names no file and no month, and the
    last progress call reports 0 employees processed successfully. *)
Theorem batch_without_parsed_file_completes (now : string) (files : list SourceFile.t) :
  Forall (λ file, parses file = false) files →
  let out := processPayrollFromFiles now files in
  ProcessPayrollResult.payroll out.1 = []
  ∧ ValidationResult.isValid (ProcessPayrollResult.validation out.1) = true
  ∧ ValidationResult.errors (ProcessPayrollResult.validation out.1) = []
  ∧ ProcessPayrollResult.metadata out.1 = BatchMetadata.mk now None None None [] 0
  ∧ last out.2 = Some ("Complete", "Processed 0 employees successfully!").
Proof.
  intros Hfiles. cbv zeta. unfold processPayrollFromFiles.
  pose proof (processFiles_none_parses files emptyBatch Hfiles) as Hb.
  destruct (processFiles emptyBatch files) as [b log]. cbn [fst] in Hb. subst b.
  cbn [fst snd]. split; [done|]. split; [done|]. split; [done|]. split; [done|].
  by rewrite last_app.
Qed.

Lemma batch_without_parsed_file_completes_witness :
  let out :=
    processPayrollFromFiles "2026-02-01T00:00:00.000Z"
      [sampleLetterFile; sampleBrokenFile] in
  ProcessPayrollResult.payroll out.1 = []
  ∧ ValidationResult.isValid (ProcessPayrollResult.validation out.1) = true
  ∧ last out.2 = Some ("Complete", "Processed 0 employees successfully!").
Proof.
  assert (Forall (λ file, parses file = false) [sampleLetterFile; sampleBrokenFile])
    as Hfiles by (repeat constructor; by vm_compute).
  destruct (batch_without_parsed_file_completes "2026-02-01T00:00:00.000Z" _ Hfiles)
    as (H1 & H2 & _ & _ & H5).
  done.
Defined.

Lemma firstTruthyOf_snoc (values : list (option string)) (v : option string) :
  firstTruthyOf (values ++ [v]) = firstTruthy (firstTruthyOf values) v.
Proof.
  unfold firstTruthyOf, firstTruthy. rewrite filter_app.
  destruct (filter _ values) as [|v0 vs] eqn:Hf.
  - cbn [app head mbind option_bind]. rewrite filter_cons, filter_nil.
    cbn [truthy negb andb]. destruct (truthy v) eqn:Hv.
    + by rewrite decide_True.
    + by rewrite decide_False by congruence.
  - cbn [app head mbind option_bind id].
    assert (truthy v0 = true) as ->; [|done].
    assert (v0 ∈ filter (λ v, truthy v = true) values) as Hin by (rewrite Hf; by left).
    by apply list_elem_of_filter in Hin as [? _].
Qed.

Lemma processFiles_first_truthy (files : list SourceFile.t) (b : Batch.t) :
  Batch.month b = firstTruthyOf (FileMeta.month <$> Batch.allMetadata b) →
  Batch.billNo b = firstTruthyOf (FileMeta.billNo <$> Batch.allMetadata b) →
  let b' := (processFiles b files).1 in
  Batch.month b' = firstTruthyOf (FileMeta.month <$> Batch.allMetadata b')
  ∧ Batch.billNo b' = firstTruthyOf (FileMeta.billNo <$> Batch.allMetadata b').
Proof.
  cbv zeta. revert b. induction files as [|file files IH]; intros b Hm Hb; [done|].
  cbn [processFiles fst]. apply IH; unfold processFile;
    destruct (parseSinglePDF _ _).2 as [result|message]; cbn [fst]; try done.
  - cbn [addResult Batch.month Batch.allMetadata].
    rewrite fmap_app, list_fmap_singleton, firstTruthyOf_snoc. cbn [FileMeta.month].
    by rewrite Hm.
  - cbn [addResult Batch.billNo Batch.allMetadata].
    rewrite fmap_app, list_fmap_singleton, firstTruthyOf_snoc. cbn [FileMeta.billNo].
    by rewrite Hb.
Qed.

(** X29: the month and the bill number of a batch are those of the first
    parsed file that has one; a later file never replaces them, and they
    are [null] when no file has one. *)
Theorem batch_month_is_the_first_one_found (now : string) (files : list SourceFile.t) :
  let metadata := ProcessPayrollResult.metadata (processPayrollFromFiles now files).1 in
  BatchMetadata.month metadata
  = firstTruthyOf (FileMeta.month <$> BatchMetadata.files metadata)
  ∧ BatchMetadata.billNo metadata
    = firstTruthyOf (FileMeta.billNo <$> BatchMetadata.files metadata).
Proof.
  cbv zeta. unfold processPayrollFromFiles.
  destruct (processFiles_first_truthy files emptyBatch) as [Hm Hb]; [done..|].
  destruct (processFiles emptyBatch files) as [b log]. done.
Qed.

(** ** The row of a record *)

Lemma fieldOrZero_not_in_dom (fields : gmap string Q) (key : string) :
  key ∉ dom fields → fieldOrZero fields key = 0%Q.
Proof. intros H%not_elem_of_dom. unfold fieldOrZero. by rewrite H. Qed.

(** X30: the fields of the payroll of a batch are stored under the keys that
    normalising a column label twice gives.  For the special additional
    pay and for the GPF of class 4 that key is in lower case, which is
    not the key that [payrollToSupabaseRow] reads: the row of a record of
    a batch always has 0 for these two amounts. *)
Theorem row_never_carries_special_pay (now : string) (files : list SourceFile.t)
    (r : PayrollRecord.t) (monthDate monthYear : string) (sourceFiles : list string)
    (billNo office : option string) :
  r ∈ ProcessPayrollResult.payroll (processPayrollFromFiles now files).1 →
  let row := payrollToSupabaseRow r monthDate monthYear sourceFiles billNo office in
  dom (PayrollRecord.earning r) ⊆ list_to_set (storedKeys earning)
  ∧ dom (PayrollRecord.deduction r) ⊆ list_to_set (storedKeys deduction)
  ∧ storedKey "Special Additional Pay" = "specialpay"
  ∧ storedKey "GPF Reg Class 4" = "gpfclass4"
  ∧ SupabaseRow.special_pay row = 0%Q
  ∧ SupabaseRow.gpf_class4 row = 0%Q.
Proof.
  intros (_ & He & Hd)%processPayrollFromFiles_record row.
  split; [done|]. split; [done|].
  split; [by vm_compute|]. split; [by vm_compute|].
  subst row. cbn [payrollToSupabaseRow SupabaseRow.special_pay SupabaseRow.gpf_class4].
  split; apply fieldOrZero_not_in_dom.
  - intros Hin%He. rewrite storedKeys_earning in Hin. set_solver.
  - intros Hin%Hd. rewrite storedKeys_deduction in Hin. set_solver.
Qed.

Lemma row_never_carries_special_pay_witness :
  ∃ r, ProcessPayrollResult.payroll
         (processPayrollFromFiles "2026-02-01T00:00:00.000Z" [sampleSpecialPayFile]).1 !! 0
       = Some r
       ∧ PayrollRecord.earning r !! "specialpay" = Some 5000%Q
       ∧ SupabaseRow.special_pay
           (payrollToSupabaseRow r "2026-01-01" "January-2026" ["special.pdf"] None None)
         = 0%Q.
Proof.
  destruct (ProcessPayrollResult.payroll
              (processPayrollFromFiles "2026-02-01T00:00:00.000Z"
                 [sampleSpecialPayFile]).1 !! 0) as [r|] eqn:Hr;
    [|by vm_compute in Hr].
  exists r. split; [done|].
  split; [vm_compute in Hr; by injection Hr as <-|].
  apply list_elem_of_lookup_2 in Hr.
  exact (proj1 (proj2 (proj2 (proj2 (proj2
           (row_never_carries_special_pay _ _ r "2026-01-01" "January-2026"
              ["special.pdf"] None None Hr)))))).
Defined.
